(** * Operations of CyberChef: a shallow embedding

    Sources embedded here:
    - [src/core/operations/RISCVEncode.mjs]: the operation without label
      support ([Encode.run]);
    - the revision of the same operation that supports labels, whose text
      follows the Makefile in the sources, [Makefile] lines 137-360
      ([EncodeLabels.run], [parseRef], [deref], [invRef]);
    - [RISCVDecode.mjs], [Makefile] lines 25-136 ([Decode.run]);
    - [src/core/operations/RunBrainfuck.mjs] ([Brainfuck.run], [parse],
      [parseProgram], [parseLoop], [program], [loop], [ops]);
    - [src/core/operations/RunEmoLanguage.mjs] ([Emo.run], [check],
      [emulate]).

    JavaScript strings are modelled by [string]; a character stands for one
    code unit in the Latin-1 range.  Arrays are lists, numbers that index
    arrays are [nat], addresses printed in hexadecimal are [N], machine words
    are [Z] between 0 and [2^32].  The input and the output of the two
    Esolang operations, whose character codes are computed with, are lists
    of UTF-16 code units. *)

From Stdlib Require Import ZArith NArith List String Ascii Bool Lia Arith.
Import ListNotations.
Local Open Scope list_scope.
Local Open Scope string_scope.

(** ** JavaScript built-ins used by the operations *)

Module JS.

(** The line feed character and the one-character string ["\n"]. *)
Definition LF : ascii := "010"%char.
Definition nl : string := String LF "".

Definition is_newline (c : ascii) : bool := Ascii.eqb c LF.

(** Separators of the token regular expression [/[ ,()]+/]. *)
Definition is_token_sep (c : ascii) : bool :=
  Ascii.eqb c " " || Ascii.eqb c "," || Ascii.eqb c "(" || Ascii.eqb c ")".

Definition is_empty (s : string) : bool :=
  match s with EmptyString => true | String _ _ => false end.

Definition starts_with (p : ascii -> bool) (s : string) : bool :=
  match s with EmptyString => false | String c _ => p c end.

(** Prepend a character to the first piece of a split. *)
Definition cons_head (c : ascii) (l : list string) : list string :=
  match l with
  | [] => [String c ""]
  | h :: t => String c h :: t
  end.

(** [s.split(/[sep]+/)]: the pieces between maximal runs of separator
    characters.  A leading (trailing) run leaves an empty first (last)
    piece and the empty string splits into one empty piece. *)
Fixpoint split_plus (sep : ascii -> bool) (s : string) : list string :=
  match s with
  | EmptyString => [""]
  | String c r =>
      if sep c
      then if starts_with sep r then split_plus sep r
           else "" :: split_plus sep r
      else cons_head c (split_plus sep r)
  end.

(** [s.split(c)] for a one-character string [c]: a cut at every
    occurrence. *)
Fixpoint split_each (sep : ascii -> bool) (s : string) : list string :=
  match s with
  | EmptyString => [""]
  | String c r =>
      if sep c then "" :: split_each sep r
      else cons_head c (split_each sep r)
  end.

(** [s.includes(c)] for a one-character string [c]. *)
Fixpoint includes (p : ascii -> bool) (s : string) : bool :=
  match s with
  | EmptyString => false
  | String c r => p c || includes p r
  end.

(** [s.includes("0x")]. *)
Fixpoint includes_0x (s : string) : bool :=
  match s with
  | String "0" (String "x" _) => true
  | String _ r => includes_0x r
  | EmptyString => false
  end.

(** White space removed by [trim]: TAB, LF, VT, FF, CR, SPACE, NBSP. *)
Definition is_space (c : ascii) : bool :=
  let n := nat_of_ascii c in
  (((9 <=? n) && (n <=? 13)) || (n =? 32) || (n =? 160))%nat.

Fixpoint trimStart (s : string) : string :=
  match s with
  | EmptyString => ""
  | String c r => if is_space c then trimStart r else s
  end.

Fixpoint trimEnd (s : string) : string :=
  match s with
  | EmptyString => ""
  | String c r =>
      let r' := trimEnd r in
      if is_space c && is_empty r' then "" else String c r'
  end.

Definition trim (s : string) : string := trimEnd (trimStart s).

(** [s.endsWith(c)] for a one-character string [c]. *)
Fixpoint endsWith (p : ascii -> bool) (s : string) : bool :=
  match s with
  | EmptyString => false
  | String c EmptyString => p c
  | String _ r => endsWith p r
  end.

Definition is_digit (c : ascii) : bool :=
  let n := nat_of_ascii c in ((48 <=? n) && (n <=? 57))%nat.

Definition is_colon (c : ascii) : bool := Ascii.eqb c ":".

Definition lower (c : ascii) : ascii :=
  let n := nat_of_ascii c in
  if (((65 <=? n) && (n <=? 90))
      || ((192 <=? n) && (n <=? 222) && negb (n =? 215)))%nat
  then ascii_of_nat (n + 32) else c.

Fixpoint toLowerCase (s : string) : string :=
  match s with
  | EmptyString => ""
  | String c r => String (lower c) (toLowerCase r)
  end.

(** Value of a digit in the given radix (10 or 16), if it is one. *)
Definition digit_value (radix : N) (c : ascii) : option N :=
  let n := N_of_ascii c in
  let v :=
    if ((48 <=? n) && (n <=? 57))%N then Some (n - 48)%N
    else if ((97 <=? n) && (n <=? 102))%N then Some (n - 87)%N
    else if ((65 <=? n) && (n <=? 70))%N then Some (n - 55)%N
    else None in
  match v with
  | Some d => if (d <? radix)%N then Some d else None
  | None => None
  end.

Definition is_sign (c : ascii) : bool := Ascii.eqb c "+" || Ascii.eqb c "-".

Definition strip_sign (s : string) : string :=
  match s with
  | String c r => if is_sign c then r else s
  | EmptyString => ""
  end.

Definition strip_0x (s : string) : string :=
  match s with
  | String "0" (String "x" r) => r
  | String "0" (String "X" r) => r
  | _ => s
  end.

(** [isNaN(parseInt(s, radix))]: after leading white space, an optional
    sign and, for radix 16, an optional [0x], no digit follows. *)
Definition parseInt_isNaN (radix : N) (s : string) : bool :=
  let body := strip_sign (trimStart s) in
  let body := if (radix =? 16)%N then strip_0x body else body in
  match body with
  | EmptyString => true
  | String c _ =>
      match digit_value radix c with Some _ => false | None => true end
  end.

Definition hex_digit (d : N) : ascii :=
  if (d <? 10)%N then ascii_of_N (48 + d) else ascii_of_N (87 + d).

(** Digits of [n] in base 16, most significant first; [fuel] bounds the
    number of digits. *)
Fixpoint to_hex (fuel : nat) (n : N) (acc : string) : string :=
  match fuel with
  | O => acc
  | S fuel' =>
      let acc' := String (hex_digit (n mod 16)) acc in
      if (n / 16 =? 0)%N then acc' else to_hex fuel' (n / 16) acc'
  end.

(** [n.toString(16)] for a non-negative integer. *)
Definition toString16 (n : N) : string := to_hex (S (N.to_nat (N.log2 n))) n "".

Fixpoint to_dec (fuel : nat) (n : N) (acc : string) : string :=
  match fuel with
  | O => acc
  | S fuel' =>
      let acc' := String (ascii_of_N (48 + n mod 10)) acc in
      if (n / 10 =? 0)%N then acc' else to_dec fuel' (n / 10) acc'
  end.

(** String of an integer in a template or a concatenation. *)
Definition toString10 (z : Z) : string :=
  let n := Z.to_N (Z.abs z) in
  let digits := to_dec (S (N.to_nat (N.log2 n))) n "" in
  if (z <? 0)%Z then String "-" digits else digits.

Fixpoint repeat_char (c : ascii) (k : nat) : string :=
  match k with O => "" | S k' => String c (repeat_char c k') end.

(** [s.padStart(width, "0")]. *)
Definition padStart (s : string) (width : nat) : string :=
  repeat_char "0" (width - String.length s) ++ s.

(** [Math.ceil(Math.log(x) / Math.log(16))], the quotient of logarithms
    read as the exact real number.  For [x = 0] JavaScript has
    [-Infinity], which [padStart] treats as width 0. *)
Definition ceil_log16 (x : N) : N := ((N.log2_up x + 3) / 4)%N.

(** [a.join(sep)] on an array whose elements may be [undefined]
    ([None]), which [join] renders as the empty string. *)
Fixpoint join (sep : string) (a : list (option string)) : string :=
  match a with
  | [] => ""
  | [x] => match x with Some s => s | None => "" end
  | x :: rest =>
      (match x with Some s => s | None => "" end) ++ sep ++ join sep rest
  end.

(** A value interpolated in a template literal. *)
Definition interpolate (v : option string) : string :=
  match v with Some s => s | None => "undefined" end.

(** [a.shift()] when the first element is [""], then [a.pop()] when the
    last one is. *)
Definition shift_empty (a : list string) : list string :=
  match a with
  | h :: t => if is_empty h then t else a
  | [] => []
  end.

Definition pop_empty (a : list string) : list string :=
  match rev a with
  | h :: t => if is_empty h then rev t else a
  | [] => []
  end.

End JS.

Import JS.

(** ** Library functions of the repository that the operations import *)

Module Hex.

(** Modelled from the spec: [fromHex] of [lib/Hex.mjs], which is not among
    the sources; the spec names it as the conversion from a hex string to
    a byte array.  Two hexadecimal digits make one byte and any other
    character separates. *)
Fixpoint fromHex (s : string) : list N :=
  match s with
  | EmptyString => []
  | String a r =>
      match digit_value 16 a with
      | None => fromHex r
      | Some x =>
          match r with
          | EmptyString => [x]
          | String b r' =>
              match digit_value 16 b with
              | Some y => (16 * x + y)%N :: fromHex r'
              | None => x :: fromHex r'
              end
          end
      end
  end.

(** Modelled from the spec: [toHexFast] of [lib/Hex.mjs], the conversion
    from a byte array to a hex string, two lower-case digits a byte. *)
Fixpoint toHexFast (bytes : list N) : string :=
  match bytes with
  | [] => ""
  | b :: rest =>
      String (hex_digit (b / 16)) (String (hex_digit (b mod 16)) (toHexFast rest))
  end.

End Hex.

Module Utils.

(** Modelled from the spec: [Utils.strToByteArray], which is not among the
    sources; the character codes of a string of one-byte characters. *)
Fixpoint strToByteArray (s : string) : list N :=
  match s with
  | EmptyString => []
  | String c r => N_of_ascii c :: strToByteArray r
  end.

End Utils.

(** ** The interface of the instruction codec

    [lib/RISCV.mjs] is not among the sources.  The operations construct
    [new Instruction(text, options)], which either returns an object or
    throws an error carrying a message, and read the fields [hex], [bin]
    and [asm] of the object. *)

Inductive ISA : Set := AUTO | RV32I | RV64I | RV128I.

Inductive completion (A : Type) : Type :=
| Normal (value : A)
| Throw (message : string).
Arguments Normal {A} value.
Arguments Throw {A} message.

Record Encoded : Set := mkEncoded { hex : string; bin : string }.

Record DecodeOptions : Set := mkDecodeOptions {
  opt_ISA : ISA;
  opt_ABI : bool;
  opt_immAsHex : bool
}.

Record Decoded : Set := mkDecoded { asm : string }.

Definition EncodeCodec : Type := string -> ISA -> completion Encoded.
Definition DecodeCodec : Type := string -> DecodeOptions -> completion Decoded.

(** ** Errors and the monad of the operations

    A run either returns or throws an [OperationError]; the state it threads
    is the list of texts handed to the codec so far. *)

Inductive OperationError : Set :=
| ErrorAtLine (line : option nat) (message : string)
    (* `Error at line ${line}: ${error.message}` *)
| DuplicateLabel (line : nat) (refName : string)
    (* `Error at line ${line}: Duplicate label name ...` *)
| InvalidLabelName (line : nat) (refName : string)
    (* `Error at line ${line}: label name (...) can't start with number` *)
| UndefinedLabel (line : option nat) (target : string)
    (* `Error at line ${line}: Undefined label ...` *)
| MisalignedInput
    (* "Instruction's length is not a multiple of 4." *)
| ErrorAtAddress (address : string) (message : string)
    (* `Error at 0x${address}: ${error.message}` *)
| TypeError.
    (* a method called on [undefined] *)

Inductive result (A : Type) : Type :=
| Ok (value : A)
| Err (error : OperationError).
Arguments Ok {A} value.
Arguments Err {A} error.

Definition M (A : Type) : Type := list string -> list string * result A.

Definition ret {A} (a : A) : M A := fun log => (log, Ok a).

Definition throw {A} (e : OperationError) : M A := fun log => (log, Err e).

Definition bind {A B} (m : M A) (k : A -> M B) : M B :=
  fun log =>
    match m log with
    | (log', Ok a) => k a log'
    | (log', Err e) => (log', Err e)
    end.

Notation "x <- m ;; k" := (bind m (fun x => k))
  (at level 61, m at next level, right associativity).

Definition lift {A} (r : result A) : M A := fun log => (log, r).

(** [new Instruction(text, options)] inside [try]: the call is recorded and
    its completion is handed to the [catch] logic. *)
Definition construct {O R} (codec : string -> O -> completion R)
    (text : string) (options : O) : M (completion R) :=
  fun log => ((log ++ [text])%list, Ok (codec text options)).

(** Outcome of a whole run, started with no codec call made. *)
Definition calls {A} (m : M A) : list string := fst (m []).
Definition outcome {A} (m : M A) : result A := snd (m []).

Inductive OutputMode : Set := RawBytes | HexString | BinaryString.

Record Args : Set := mkArgs {
  isa : ISA;
  outputMode : OutputMode;
  ignoreIllegal : bool;
  showAddr : bool;
  showInput : bool
}.

(** The value of the variable [inst] in the loops: an object whose [bin]
    property may be missing. *)
Record InstValue : Set := mkInst { inst_hex : string; inst_bin : option string }.

Definition of_encoded (e : Encoded) : InstValue :=
  {| inst_hex := hex e; inst_bin := Some (bin e) |}.

(** The arrays the loop of [run] pushes to. *)
Record Buffers : Set := mkBuffers {
  instBytecode : list string;
  instBytes : list N;
  lines : list (option string)
}.

Definition no_buffers : Buffers :=
  {| instBytecode := []; instBytes := []; lines := [] |}.

(** [`0x${(i * 4).toString(16).padStart(addrLength, "0")}`] *)
Definition address_text (addrLength : N) (i : nat) : string :=
  "0x" ++ padStart (toString16 (N.of_nat (i * 4))) (N.to_nat addrLength).

(** [commands.split(/\n+/)] followed by the removal of an empty first and
    of an empty last element. *)
Definition source_lines (commands : string) : list string :=
  pop_empty (shift_empty (split_plus is_newline commands)).

(** ** [RISCVEncode.run] of [src/core/operations/RISCVEncode.mjs] *)

Module Encode.
Section WithCodec.

Variable Instruction : EncodeCodec.

(** lines 100-109: the [try] / [catch] around the constructor. *)
Definition encode_line (args : Args) (i : nat) (text : string) : M InstValue :=
  c <- construct Instruction text (isa args) ;;
  match c with
  | Normal e => ret (of_encoded e)
  | Throw message =>
      if ignoreIllegal args
      then ret {| inst_hex := "ffffffff"; inst_bin := None |}
      else throw (ErrorAtLine (Some (i + 1)) message)
  end.

(** lines 112-128: the line pushed to [ret] outside raw mode. *)
Definition output_line (args : Args) (addrLength : N) (i : nat)
    (text : string) (inst : InstValue) : option (option string) :=
  match outputMode args with
  | RawBytes => None
  | mode =>
      let instStr :=
        match mode with
        | HexString => Some (inst_hex inst)
        | _ => inst_bin inst
        end in
      Some
        (if showAddr args && showInput args then
           Some (address_text addrLength i ++ ": " ++ interpolate instStr
                 ++ " [ " ++ trim text ++ " ]")
         else if showAddr args then
           Some (address_text addrLength i ++ ": " ++ interpolate instStr)
         else if showInput args then
           Some (interpolate instStr ++ " [ " ++ trim text ++ " ]")
         else instStr)
  end.

Definition push_inst (b : Buffers) (inst : InstValue)
    (line : option (option string)) : Buffers :=
  {| instBytecode := (instBytecode b ++ [inst_hex inst])%list;
     instBytes := (instBytes b ++ Hex.fromHex (inst_hex inst))%list;
     lines := match line with
              | Some l => (lines b ++ [l])%list
              | None => lines b
              end |}.

(** lines 99-129: the loop, from index [i] on, over the remaining
    elements [insts[i], insts[i+1], ...]. *)
Fixpoint loop (args : Args) (addrLength : N) (i : nat) (rest : list string)
    (b : Buffers) : M Buffers :=
  match rest with
  | [] => ret b
  | text :: rest' =>
      inst <- encode_line args i text ;;
      loop args addrLength (S i) rest'
        (push_inst b inst (output_line args addrLength i text inst))
  end.

Definition run (commands : string) (args : Args) : M (list N) :=
  let insts := source_lines commands in
  let instNum := List.length insts in
  let addrLength := ceil_log16 (N.of_nat (instNum * 4)) in
  b <- loop args addrLength 0 insts no_buffers ;;
  match outputMode args with
  | RawBytes => ret (instBytes b)
  | _ => ret (Utils.strToByteArray (join nl (lines b)))
  end.

End WithCodec.
End Encode.

(** ** The label-supporting revision of [RISCVEncode]: [run] ([Makefile]
    lines 223-275), [parseRef] (281-313), [deref] (322-339) and [invRef]
    (345-356) *)

Module EncodeLabels.

(** [refList] is a plain object used as a map from label names to
    addresses.  Its own properties are kept in insertion order, the order
    in which [for ... in] visits them; a name that is not an own property
    is still found when [Object.prototype] has it. *)
Definition RefList : Set := list (string * nat).

Definition Object_prototype_keys : list string :=
  [ "constructor"; "hasOwnProperty"; "isPrototypeOf";
    "propertyIsEnumerable"; "toLocaleString"; "toString"; "valueOf";
    "__proto__"; "__defineGetter__"; "__defineSetter__";
    "__lookupGetter__"; "__lookupSetter__" ].

Inductive property : Set :=
| Own (value : nat)
| Inherited
| Undefined.

Fixpoint own (o : RefList) (key : string) : option nat :=
  match o with
  | [] => None
  | (k, v) :: rest => if String.eqb k key then Some v else own rest key
  end.

(** [refList[key]] *)
Definition get (o : RefList) (key : string) : property :=
  match own o key with
  | Some v => Own v
  | None =>
      if existsb (String.eqb key) Object_prototype_keys
      then Inherited else Undefined
  end.

(** [refList[key] = value], used only where [refList[key]] was
    [undefined]. *)
Fixpoint set (o : RefList) (key : string) (value : nat) : RefList :=
  match o with
  | [] => [(key, value)]
  | (k, v) :: rest =>
      if String.eqb k key then (k, value) :: rest
      else (k, v) :: set rest key value
  end.

(** [lineMap]: an object keyed by instruction index. *)
Definition LineMap : Set := list (nat * nat).

Fixpoint line_of (m : LineMap) (index : nat) : option nat :=
  match m with
  | [] => None
  | (k, v) :: rest => if Nat.eqb k index then Some v else line_of rest index
  end.

Fixpoint set_line (m : LineMap) (index line : nat) : LineMap :=
  match m with
  | [] => [(index, line)]
  | (k, v) :: rest =>
      if Nat.eqb k index then (k, line) :: rest
      else (k, v) :: set_line rest index line
  end.

Record Parsed : Set := mkParsed {
  insts : list string;
  refList : RefList;
  lineMap : LineMap
}.

Definition nothing_parsed : Parsed :=
  {| insts := []; refList := []; lineMap := [] |}.

(** The body of the loop of [parseRef] for [codes[i]], lines 294-310. *)
Definition classify (i : nat) (code : string) (p : Parsed) : result Parsed :=
  if negb (includes is_colon code) then
    Ok {| insts := (insts p ++ [trim code])%list;
          refList := refList p;
          lineMap := set_line (lineMap p) (List.length (insts p)) (i + 1) |}
  else
    let pieces := split_each is_colon (trim code) in
    let refName := hd "" pieces in
    match get (refList p) refName with
    | Undefined =>
        if starts_with is_digit refName then
          Err (InvalidLabelName (i + 1) refName)
        else
          let refList' :=
            set (refList p) refName (List.length (insts p) * 4) in
          if negb (endsWith is_colon (trim code)) then
            match nth_error pieces 1 with
            | Some piece =>
                Ok {| insts := (insts p ++ [trim piece])%list;
                      refList := refList';
                      lineMap := set_line (lineMap p)
                                   (List.length (insts p)) (i + 1) |}
            | None => Err TypeError
            end
          else
            Ok {| insts := insts p; refList := refList';
                  lineMap := lineMap p |}
    | _ => Err (DuplicateLabel (i + 1) refName)
    end.

Fixpoint parse_loop (i : nat) (codes : list string) (p : Parsed)
    : result Parsed :=
  match codes with
  | [] => Ok p
  | code :: rest =>
      match classify i code p with
      | Ok p' => parse_loop (S i) rest p'
      | Err e => Err e
      end
  end.

Definition parseRef (commands : string) : result Parsed :=
  parse_loop 0 (source_lines commands) nothing_parsed.

Definition mneList : list string :=
  ["jal"; "beq"; "bne"; "blt"; "bge"; "bltu"; "bgeu"].

(** [target] already is a numeric literal. *)
Definition is_numeric (target : string) : bool :=
  (includes_0x target && negb (parseInt_isNaN 16 target))
  || negb (parseInt_isNaN 10 target).

(** [deref]; its two [console.log] calls are left out. *)
Definition deref (inst : string) (refs : RefList) (lineNum : option nat)
    (instAddr : nat) : result string :=
  let tokens := split_plus is_token_sep inst in
  if negb (existsb (String.eqb (toLowerCase (hd "" tokens))) mneList)
  then Ok inst
  else
    let target := last tokens "" in
    if is_numeric target then Ok inst
    else
      match get refs target with
      | Undefined => Err (UndefinedLabel lineNum target)
      | found =>
          let offset :=
            match found with
            | Own address => toString10 (Z.of_nat address - Z.of_nat instAddr)
            | _ => "NaN"
            end in
          Ok (join " " (map Some (removelast tokens)) ++ " " ++ offset)
      end.

(** [invRefList]: an object keyed by address, holding label names. *)
Definition InvRefList : Set := list (nat * list string).

Fixpoint labels_at (inv : InvRefList) (dest : nat) : option (list string) :=
  match inv with
  | [] => None
  | (k, v) :: rest => if Nat.eqb k dest then Some v else labels_at rest dest
  end.

Fixpoint add_label (inv : InvRefList) (dest : nat) (ref : string)
    : InvRefList :=
  match inv with
  | [] => [(dest, [ref])]
  | (k, v) :: rest =>
      if Nat.eqb k dest then (k, (v ++ [ref])%list) :: rest
      else (k, v) :: add_label rest dest ref
  end.

Definition invRef (refs : RefList) : InvRefList :=
  fold_left (fun inv entry => add_label inv (snd entry) (fst entry)) refs [].

(** The text appended when labels point at instruction [i]. *)
Definition label_suffix (inv : InvRefList) (i : nat) : string :=
  match labels_at inv (i * 4) with
  | Some names => " (label: " ++ join ", " (map Some names) ++ ")"
  | None => ""
  end.

Section WithCodec.

Variable Instruction : EncodeCodec.

Definition all_ones : string := "11111111111111111111111111111111".

(** lines 234-243: [deref], outside the [try], then the [try] / [catch]
    around the constructor. *)
Definition encode_line (args : Args) (p : Parsed) (i : nat) (text : string)
    : M InstValue :=
  instDeref <- lift (deref text (refList p) (line_of (lineMap p) i) (i * 4)) ;;
  c <- construct Instruction instDeref (isa args) ;;
  match c with
  | Normal e => ret (of_encoded e)
  | Throw message =>
      if ignoreIllegal args
      then ret {| inst_hex := "ffffffff"; inst_bin := Some all_ones |}
      else throw (ErrorAtLine (line_of (lineMap p) i) message)
  end.

(** lines 246-268: the line pushed to [ret] outside raw mode. *)
Definition output_line (args : Args) (inv : InvRefList) (addrLength : N)
    (i : nat) (text : string) (inst : InstValue) : option (option string) :=
  match outputMode args with
  | RawBytes => None
  | mode =>
      let instStr :=
        match mode with
        | HexString => Some (inst_hex inst)
        | _ => inst_bin inst
        end in
      Some
        (if showAddr args && showInput args then
           Some (address_text addrLength i ++ ": " ++ interpolate instStr
                 ++ " [ " ++ trim text ++ " ]" ++ label_suffix inv i)
         else if showAddr args then
           Some (address_text addrLength i ++ ": " ++ interpolate instStr)
         else if showInput args then
           Some (interpolate instStr ++ " [ " ++ trim text ++ " ]"
                 ++ label_suffix inv i)
         else instStr)
  end.

Fixpoint loop (args : Args) (p : Parsed) (inv : InvRefList) (addrLength : N)
    (i : nat) (rest : list string) (b : Buffers) : M Buffers :=
  match rest with
  | [] => ret b
  | text :: rest' =>
      inst <- encode_line args p i text ;;
      loop args p inv addrLength (S i) rest'
        (Encode.push_inst b inst (output_line args inv addrLength i text inst))
  end.

Definition run (commands : string) (args : Args) : M (list N) :=
  p <- lift (parseRef commands) ;;
  let invRefList := invRef (refList p) in
  let instNum := List.length (insts p) in
  let addrLength := ceil_log16 (N.of_nat (instNum * 4)) in
  b <- loop args p invRefList addrLength 0 (insts p) no_buffers ;;
  match outputMode args with
  | RawBytes => ret (instBytes b)
  | _ => ret (Utils.strToByteArray (join nl (lines b)))
  end.

End WithCodec.
End EncodeLabels.

(** ** [RISCVDecode.run], [Makefile] lines 100-132 *)

Module Decode.

Record Args : Set := mkArgs {
  isa : ISA;
  abi : bool;
  showAddr : bool;
  showBytecode : bool;
  showImmAsHex : bool;
  ignoreIllegal : bool
}.

Section WithCodec.

Variable Instruction : DecodeCodec.

Definition illegal_text : string := "*** illegal instruction ***".

(** [insts.slice(i * 4, i * 4 + 4)] *)
Definition slice4 (bytes : list N) (i : nat) : list N :=
  firstn 4 (skipn (i * 4) bytes).

Definition decode_slot (args : Args) (addrLength : N) (i : nat)
    (instHex : string) : M string :=
  c <- construct Instruction instHex
         {| opt_ISA := isa args; opt_ABI := abi args;
            opt_immAsHex := showImmAsHex args |} ;;
  match c with
  | Normal d => ret (asm d)
  | Throw message =>
      if ignoreIllegal args then ret illegal_text
      else throw (ErrorAtAddress
                    (padStart (toString16 (N.of_nat (i * 4)))
                       (N.to_nat addrLength)) message)
  end.

Definition output_line (args : Args) (addrLength : N) (i : nat)
    (instHex text : string) : string :=
  if showAddr args && showBytecode args then
    address_text addrLength i ++ " (" ++ instHex ++ "): " ++ text
  else if showAddr args then
    address_text addrLength i ++ ": " ++ text
  else if showBytecode args then
    instHex ++ ": " ++ text
  else text.

(** The loop, with [count] iterations left from index [i] on. *)
Fixpoint loop (args : Args) (addrLength : N) (bytes : list N)
    (count i : nat) (out : list string) : M (list string) :=
  match count with
  | O => ret out
  | S count' =>
      let instHex := Hex.toHexFast (slice4 bytes i) in
      text <- decode_slot args addrLength i instHex ;;
      loop args addrLength bytes count' (S i)
        (out ++ [output_line args addrLength i instHex text])%list
  end.

Definition run (bytes : list N) (args : Args) : M string :=
  if negb (Nat.eqb (List.length bytes mod 4) 0) then throw MisalignedInput
  else
    let instNum := (List.length bytes / 4)%nat in
    let addrLength := ceil_log16 (N.of_nat (instNum * 4)) in
    out <- loop args addrLength bytes instNum 0 [] ;;
    ret (join nl (map Some out)).

End WithCodec.
End Decode.

(** ** The instruction codec

    [lib/RISCV.mjs] is not among the sources.  The codec below is written
    from the specification (sections 3, 4.1 and 4.2).  The field model is
    data: a format says which bits of a word are fixed and where the
    pieces of each operand stand, an entry of the opcode table gives the
    pattern of the fixed bits.  The functions of the codec take the table
    as an argument; the catalog [opcode_table] is made of the formats and
    patterns of the RISC-V instruction set manual for the extensions the
    specification lists. *)

Module Codec.

Local Open Scope Z_scope.

(** Modelled from the spec: the extension set of the data model. *)
Inductive Extension : Set :=
| ExtI | Zifencei | Zicsr | ExtM | ExtA | ExtF | ExtD | ExtQ | ExtC.

(** Modelled from the spec: the kinds of an operand ("operand count and
    kinds"): a general or a float register, an immediate read as a two's
    complement number of [width] bits, an immediate without sign of
    [width] bits (the number of a control and status register, a
    rounding mode, the sets of a fence), and the amount of a shift, which
    is below the width of the registers. *)
Inductive Kind : Set :=
| IntReg
| FloatReg
| Signed (width : Z)
| Unsigned (width : Z)
| Shamt.

(** Modelled from the spec: the "immediate assembly rule" of a format,
    piece by piece: the [span] bits of the value from bit [of_value] up
    stand in the word from bit [of_word] up. *)
Record Piece : Set := mkPiece { of_value : Z; of_word : Z; span : Z }.

Record Slot : Set := mkSlot { kind : Kind; pieces : list Piece }.

(** How the operands are written: [a, b, c], or [a, imm(b)] for a memory
    operand, or [a, b, (c)] for the address of an atomic operation. *)
Inductive Syntax : Set := Plain | Memory | Address.

(** Modelled from the spec: an instruction format ("Instruction Format").
    [fixed] is the mask of the bits that hold the opcode and the funct
    fields, [slots] gives the bit ranges of the operands in the order in
    which they are written. *)
Record Format : Set := mkFormat {
  fixed : Z;
  slots : list Slot;
  syntax : Syntax
}.

(** Modelled from the spec: an opcode table entry ("Opcode Table Entry").
    [pattern] holds the opcode and funct bit patterns at their places in
    the word. *)
Record TableEntry : Set := mkEntry {
  mnemonic : string;
  format : Format;
  pattern : Z;
  extension : Extension;
  min_width : Z
}.

Inductive Operand : Set :=
| Reg (index : Z)
| FReg (index : Z)
| Imm (value : Z).

Inductive CodecError : Set :=
| IllegalInstruction (reason : string)
| ImmediateOutOfRange
| UnknownRegister (name : string).

(** *** The formats *)

(** Modelled from the spec: the variants of the instruction format, "R,
    I, S, B, U, J, and extension-specific shapes for CSR, atomic, and
    floating-point instructions", with the bit ranges of the RISC-V
    instruction set manual: bits 6-0 hold the opcode, 11-7 rd, 14-12
    funct3, 19-15 rs1, 24-20 rs2 and 31-25 funct7.  The definitions from
    here to [R4_type] are these variants and their parts. *)

(** An operand that stands in one piece: [width] bits at bit [at_bit]. *)
Definition whole (k : Kind) (width at_bit : Z) : Slot :=
  mkSlot k [mkPiece 0 at_bit width].

Definition rd (k : Kind) : Slot := whole k 5 7.
Definition rs1 (k : Kind) : Slot := whole k 5 15.
Definition rs2 (k : Kind) : Slot := whole k 5 20.
Definition rs3 (k : Kind) : Slot := whole k 5 27.

(** The rounding mode of a float instruction, in the place of funct3. *)
Definition rm : Slot := whole (Unsigned 3) 3 12.

Definition imm_I : Slot := whole (Signed 12) 12 20.

(** imm[4:0] in bits 11-7 and imm[11:5] in bits 31-25. *)
Definition imm_S : Slot :=
  mkSlot (Signed 12) [mkPiece 0 7 5; mkPiece 5 25 7].

(** imm[11] in bit 7, imm[4:1] in bits 11-8, imm[10:5] in bits 30-25 and
    imm[12] in bit 31. *)
Definition imm_B : Slot :=
  mkSlot (Signed 13)
    [mkPiece 11 7 1; mkPiece 1 8 4; mkPiece 5 25 6; mkPiece 12 31 1].

Definition imm_U : Slot := whole (Signed 20) 20 12.

(** imm[19:12] in bits 19-12, imm[11] in bit 20, imm[10:1] in bits 30-21
    and imm[20] in bit 31. *)
Definition imm_J : Slot :=
  mkSlot (Signed 21)
    [mkPiece 12 12 8; mkPiece 11 20 1; mkPiece 1 21 10; mkPiece 20 31 1].

(** The masks of the fixed fields. *)
Definition opcode_bits : Z := 0x0000007f.
Definition funct3_bits : Z := 0x00007000.
Definition funct7_bits : Z := 0xfe000000.
Definition rd_bits : Z := 0x00000f80.
Definition rs1_bits : Z := 0x000f8000.
Definition rs2_bits : Z := 0x01f00000.

(** R: three registers; opcode, funct3 and funct7 fixed. *)
Definition R_of (k_rd k_rs1 k_rs2 : Kind) : Format :=
  mkFormat (opcode_bits + funct3_bits + funct7_bits)
    [rd k_rd; rs1 k_rs1; rs2 k_rs2] Plain.

Definition R_type : Format := R_of IntReg IntReg IntReg.

(** I: two registers and a 12-bit immediate; opcode and funct3 fixed. *)
Definition I_type : Format :=
  mkFormat (opcode_bits + funct3_bits) [rd IntReg; rs1 IntReg; imm_I] Plain.

(** The I format of a load, written [rd, imm(rs1)]. *)
Definition I_load_of (k_rd : Kind) : Format :=
  mkFormat (opcode_bits + funct3_bits) [rd k_rd; imm_I; rs1 IntReg] Memory.

Definition I_load : Format := I_load_of IntReg.

(** The I format of a shift by a constant: the amount stands in bits
    26-20 and is below the width of the registers, so that bits 31-27 are
    fixed at every width, bit 26 is 0 below 128 bits and bit 25 is 0 at
    32 bits. *)
Definition I_shift : Format :=
  mkFormat (opcode_bits + funct3_bits + 0xf8000000)
    [rd IntReg; rs1 IntReg; whole Shamt 7 20] Plain.

(** The shifts of a word and of a double word by a constant, whose amount
    has 5 and 6 bits at every width. *)
Definition I_shift_word : Format :=
  mkFormat (opcode_bits + funct3_bits + funct7_bits)
    [rd IntReg; rs1 IntReg; whole (Unsigned 5) 5 20] Plain.

Definition I_shift_double : Format :=
  mkFormat (opcode_bits + funct3_bits + 0xfc000000)
    [rd IntReg; rs1 IntReg; whole (Unsigned 6) 6 20] Plain.

(** S: written [rs2, imm(rs1)]. *)
Definition S_of (k_rs2 : Kind) : Format :=
  mkFormat (opcode_bits + funct3_bits) [rs2 k_rs2; imm_S; rs1 IntReg] Memory.

Definition S_type : Format := S_of IntReg.

Definition B_type : Format :=
  mkFormat (opcode_bits + funct3_bits) [rs1 IntReg; rs2 IntReg; imm_B] Plain.

Definition U_type : Format := mkFormat opcode_bits [rd IntReg; imm_U] Plain.

Definition J_type : Format := mkFormat opcode_bits [rd IntReg; imm_J] Plain.

(** [fence pred, succ]: the two sets in bits 27-24 and 23-20, all else
    fixed. *)
Definition Fence_type : Format :=
  mkFormat 0xf00fffff [whole (Unsigned 4) 4 24; whole (Unsigned 4) 4 20]
    Plain.

(** No operand: every bit is fixed ([ecall], [ebreak], [fence.i]). *)
Definition System_type : Format := mkFormat 0xffffffff [] Plain.

(** The shapes of Zicsr: [rd, csr, rs1] and [rd, csr, uimm]. *)
Definition CSR_type : Format :=
  mkFormat (opcode_bits + funct3_bits)
    [rd IntReg; whole (Unsigned 12) 12 20; rs1 IntReg] Plain.

Definition CSRI_type : Format :=
  mkFormat (opcode_bits + funct3_bits)
    [rd IntReg; whole (Unsigned 12) 12 20; whole (Unsigned 5) 5 15] Plain.

(** The shapes of the atomics: [rd, rs2, (rs1)], and [rd, (rs1)] for a
    load-reserved, whose rs2 field is fixed.  The bits aq and rl belong to
    funct7. *)
Definition AMO_type : Format :=
  mkFormat (opcode_bits + funct3_bits + funct7_bits)
    [rd IntReg; rs2 IntReg; rs1 IntReg] Address.

Definition LR_type : Format :=
  mkFormat (opcode_bits + funct3_bits + funct7_bits + rs2_bits)
    [rd IntReg; rs1 IntReg] Address.

(** The shapes of the float instructions: three registers and a rounding
    mode; two registers and a rounding mode, or two registers alone, with
    the rs2 field fixed; four registers and a rounding mode, with the
    format of the numbers in bits 26-25. *)
Definition FR_rounded : Format :=
  mkFormat (opcode_bits + funct7_bits)
    [rd FloatReg; rs1 FloatReg; rs2 FloatReg; rm] Plain.

Definition F2_rounded (k_rd k_rs1 : Kind) : Format :=
  mkFormat (opcode_bits + funct7_bits + rs2_bits) [rd k_rd; rs1 k_rs1; rm]
    Plain.

Definition F2_of (k_rd k_rs1 : Kind) : Format :=
  mkFormat (opcode_bits + funct3_bits + funct7_bits + rs2_bits)
    [rd k_rd; rs1 k_rs1] Plain.

Definition R4_type : Format :=
  mkFormat (opcode_bits + 0x06000000)
    [rd FloatReg; rs1 FloatReg; rs2 FloatReg; rs3 FloatReg; rm] Plain.

(** *** The catalog *)

(** The pattern of an entry from its opcode, funct3 and funct7, and from
    the content of the rs2 field where that is fixed. *)
Definition bit_pattern (opcode funct3 funct7 at_rs2 : Z) : Z :=
  Z.lor (Z.lor (Z.lor opcode (Z.shiftl funct3 12)) (Z.shiftl funct7 25))
        (Z.shiftl at_rs2 20).

(** Short names for the rows of the table. *)
Definition E (name : string) (f : Format) (opcode funct3 funct7 : Z)
    (ext : Extension) (width : Z) : TableEntry :=
  mkEntry name f (bit_pattern opcode funct3 funct7 0) ext width.

Definition E2 (name : string) (f : Format) (opcode funct3 funct7 at_rs2 : Z)
    (ext : Extension) (width : Z) : TableEntry :=
  mkEntry name f (bit_pattern opcode funct3 funct7 at_rs2) ext width.

(** Modelled from the spec: the rows of the opcode table for the base
    integer instructions at 32, 64 and 128 bits, Zifencei, Zicsr and M,
    with the patterns of the RISC-V instruction set manual (those of the
    128-bit instructions from its draft of RV128I).  A row gives the
    mnemonic, the format, opcode, funct3 and funct7, the extension and the
    minimum width. *)
Definition base_rows : list TableEntry :=
  [ E "lui" U_type 55 0 0 ExtI 32;  E "auipc" U_type 23 0 0 ExtI 32;
    E "jal" J_type 111 0 0 ExtI 32; E "jalr" I_type 103 0 0 ExtI 32;
    E "beq" B_type 99 0 0 ExtI 32;  E "bne" B_type 99 1 0 ExtI 32;
    E "blt" B_type 99 4 0 ExtI 32;  E "bge" B_type 99 5 0 ExtI 32;
    E "bltu" B_type 99 6 0 ExtI 32; E "bgeu" B_type 99 7 0 ExtI 32;
    E "lb" I_load 3 0 0 ExtI 32;   E "lh" I_load 3 1 0 ExtI 32;
    E "lw" I_load 3 2 0 ExtI 32;   E "lbu" I_load 3 4 0 ExtI 32;
    E "lhu" I_load 3 5 0 ExtI 32;  E "lwu" I_load 3 6 0 ExtI 64;
    E "ld" I_load 3 3 0 ExtI 64;   E "ldu" I_load 3 7 0 ExtI 128;
    E "lq" I_load 15 2 0 ExtI 128;
    E "sb" S_type 35 0 0 ExtI 32;   E "sh" S_type 35 1 0 ExtI 32;
    E "sw" S_type 35 2 0 ExtI 32;   E "sd" S_type 35 3 0 ExtI 64;
    E "sq" S_type 35 4 0 ExtI 128;
    E "addi" I_type 19 0 0 ExtI 32; E "slti" I_type 19 2 0 ExtI 32;
    E "sltiu" I_type 19 3 0 ExtI 32; E "xori" I_type 19 4 0 ExtI 32;
    E "ori" I_type 19 6 0 ExtI 32;  E "andi" I_type 19 7 0 ExtI 32;
    E "slli" I_shift 19 1 0 ExtI 32; E "srli" I_shift 19 5 0 ExtI 32;
    E "srai" I_shift 19 5 32 ExtI 32;
    E "add" R_type 51 0 0 ExtI 32;  E "sub" R_type 51 0 32 ExtI 32;
    E "sll" R_type 51 1 0 ExtI 32;  E "slt" R_type 51 2 0 ExtI 32;
    E "sltu" R_type 51 3 0 ExtI 32; E "xor" R_type 51 4 0 ExtI 32;
    E "srl" R_type 51 5 0 ExtI 32;  E "sra" R_type 51 5 32 ExtI 32;
    E "or" R_type 51 6 0 ExtI 32;   E "and" R_type 51 7 0 ExtI 32;
    E "fence" Fence_type 15 0 0 ExtI 32;
    E "ecall" System_type 115 0 0 ExtI 32;
    E2 "ebreak" System_type 115 0 0 1 ExtI 32;
    E "addiw" I_type 27 0 0 ExtI 64;
    E "slliw" I_shift_word 27 1 0 ExtI 64;
    E "srliw" I_shift_word 27 5 0 ExtI 64;
    E "sraiw" I_shift_word 27 5 32 ExtI 64;
    E "addw" R_type 59 0 0 ExtI 64; E "subw" R_type 59 0 32 ExtI 64;
    E "sllw" R_type 59 1 0 ExtI 64; E "srlw" R_type 59 5 0 ExtI 64;
    E "sraw" R_type 59 5 32 ExtI 64;
    E "addid" I_type 91 0 0 ExtI 128;
    E "sllid" I_shift_double 91 1 0 ExtI 128;
    E "srlid" I_shift_double 91 5 0 ExtI 128;
    E "sraid" I_shift_double 91 5 32 ExtI 128;
    E "addd" R_type 123 0 0 ExtI 128; E "subd" R_type 123 0 32 ExtI 128;
    E "slld" R_type 123 1 0 ExtI 128; E "srld" R_type 123 5 0 ExtI 128;
    E "srad" R_type 123 5 32 ExtI 128;
    E "fence.i" System_type 15 1 0 Zifencei 32;
    E "csrrw" CSR_type 115 1 0 Zicsr 32; E "csrrs" CSR_type 115 2 0 Zicsr 32;
    E "csrrc" CSR_type 115 3 0 Zicsr 32;
    E "csrrwi" CSRI_type 115 5 0 Zicsr 32;
    E "csrrsi" CSRI_type 115 6 0 Zicsr 32;
    E "csrrci" CSRI_type 115 7 0 Zicsr 32;
    E "mul" R_type 51 0 1 ExtM 32;  E "mulh" R_type 51 1 1 ExtM 32;
    E "mulhsu" R_type 51 2 1 ExtM 32; E "mulhu" R_type 51 3 1 ExtM 32;
    E "div" R_type 51 4 1 ExtM 32;  E "divu" R_type 51 5 1 ExtM 32;
    E "rem" R_type 51 6 1 ExtM 32;  E "remu" R_type 51 7 1 ExtM 32;
    E "mulw" R_type 59 0 1 ExtM 64; E "divw" R_type 59 4 1 ExtM 64;
    E "divuw" R_type 59 5 1 ExtM 64; E "remw" R_type 59 6 1 ExtM 64;
    E "remuw" R_type 59 7 1 ExtM 64;
    E "muld" R_type 123 0 1 ExtM 128; E "divd" R_type 123 4 1 ExtM 128;
    E "divud" R_type 123 5 1 ExtM 128; E "remd" R_type 123 6 1 ExtM 128;
    E "remud" R_type 123 7 1 ExtM 128 ].

(** Modelled from the spec: the rows of the atomics (A).  A row is made
    of an operation (funct5), a width (funct3) and the ordering bits aq
    and rl, which the mnemonic carries as a suffix. *)
Definition orderings : list (string * Z) :=
  [("", 0); (".rl", 1); (".aq", 2); (".aqrl", 3)].

Definition atomic_widths : list (string * Z * Z) :=
  [(".w", 2, 32); (".d", 3, 64); (".q", 4, 128)].

Definition atomic_operations : list (string * Z) :=
  [ ("sc", 3); ("amoswap", 1); ("amoadd", 0); ("amoxor", 4);
    ("amoand", 12); ("amoor", 8); ("amomin", 16); ("amomax", 20);
    ("amominu", 24); ("amomaxu", 28) ].

Definition atomic_rows : list TableEntry :=
  flat_map (fun w : string * Z * Z =>
    let '(suffix, funct3, width) := w in
    flat_map (fun o : string * Z =>
      E ("lr" ++ suffix ++ fst o) LR_type 47 funct3 (2 * 4 + snd o) ExtA width
      :: map (fun a : string * Z =>
                E (fst a ++ suffix ++ fst o) AMO_type 47 funct3
                  (snd a * 4 + snd o) ExtA width)
             atomic_operations)
      orderings)
    atomic_widths.

(** Modelled from the spec: the rows of the float instructions of one
    format of numbers (F, D or Q): its suffix, the letter of its loads
    and stores, the two bits that stand for it in funct7, the width of
    its loads and stores (funct3) and its extension. *)
Definition float_rows (s mem : string) (fmt funct3 : Z) (ext : Extension)
    : list TableEntry :=
  [ E ("fl" ++ mem) (I_load_of FloatReg) 7 funct3 0 ext 32;
    E ("fs" ++ mem) (S_of FloatReg) 39 funct3 0 ext 32;
    E ("fmadd" ++ s) R4_type 67 0 fmt ext 32;
    E ("fmsub" ++ s) R4_type 71 0 fmt ext 32;
    E ("fnmsub" ++ s) R4_type 75 0 fmt ext 32;
    E ("fnmadd" ++ s) R4_type 79 0 fmt ext 32;
    E ("fadd" ++ s) FR_rounded 83 0 (0 + fmt) ext 32;
    E ("fsub" ++ s) FR_rounded 83 0 (4 + fmt) ext 32;
    E ("fmul" ++ s) FR_rounded 83 0 (8 + fmt) ext 32;
    E ("fdiv" ++ s) FR_rounded 83 0 (12 + fmt) ext 32;
    E ("fsqrt" ++ s) (F2_rounded FloatReg FloatReg) 83 0 (44 + fmt) ext 32;
    E ("fsgnj" ++ s) (R_of FloatReg FloatReg FloatReg) 83 0 (16 + fmt) ext 32;
    E ("fsgnjn" ++ s) (R_of FloatReg FloatReg FloatReg) 83 1 (16 + fmt) ext 32;
    E ("fsgnjx" ++ s) (R_of FloatReg FloatReg FloatReg) 83 2 (16 + fmt) ext 32;
    E ("fmin" ++ s) (R_of FloatReg FloatReg FloatReg) 83 0 (20 + fmt) ext 32;
    E ("fmax" ++ s) (R_of FloatReg FloatReg FloatReg) 83 1 (20 + fmt) ext 32;
    E ("fle" ++ s) (R_of IntReg FloatReg FloatReg) 83 0 (80 + fmt) ext 32;
    E ("flt" ++ s) (R_of IntReg FloatReg FloatReg) 83 1 (80 + fmt) ext 32;
    E ("feq" ++ s) (R_of IntReg FloatReg FloatReg) 83 2 (80 + fmt) ext 32;
    E ("fclass" ++ s) (F2_of IntReg FloatReg) 83 1 (112 + fmt) ext 32;
    E2 ("fcvt.w" ++ s) (F2_rounded IntReg FloatReg) 83 0 (96 + fmt) 0 ext 32;
    E2 ("fcvt.wu" ++ s) (F2_rounded IntReg FloatReg) 83 0 (96 + fmt) 1 ext 32;
    E2 ("fcvt.l" ++ s) (F2_rounded IntReg FloatReg) 83 0 (96 + fmt) 2 ext 64;
    E2 ("fcvt.lu" ++ s) (F2_rounded IntReg FloatReg) 83 0 (96 + fmt) 3 ext 64;
    E2 ("fcvt" ++ s ++ ".w") (F2_rounded FloatReg IntReg) 83 0 (104 + fmt) 0
       ext 32;
    E2 ("fcvt" ++ s ++ ".wu") (F2_rounded FloatReg IntReg) 83 0 (104 + fmt) 1
       ext 32;
    E2 ("fcvt" ++ s ++ ".l") (F2_rounded FloatReg IntReg) 83 0 (104 + fmt) 2
       ext 64;
    E2 ("fcvt" ++ s ++ ".lu") (F2_rounded FloatReg IntReg) 83 0 (104 + fmt) 3
       ext 64 ].

(** Modelled from the spec: the rows of the moves between a float and a
    general register and of the conversions between the formats of
    numbers. *)
Definition float_moves : list TableEntry :=
  [ E "fmv.x.w" (F2_of IntReg FloatReg) 83 0 112 ExtF 32;
    E "fmv.w.x" (F2_of FloatReg IntReg) 83 0 120 ExtF 32;
    E "fmv.x.d" (F2_of IntReg FloatReg) 83 0 113 ExtD 64;
    E "fmv.d.x" (F2_of FloatReg IntReg) 83 0 121 ExtD 64;
    E "fmv.x.q" (F2_of IntReg FloatReg) 83 0 115 ExtQ 128;
    E "fmv.q.x" (F2_of FloatReg IntReg) 83 0 123 ExtQ 128;
    E2 "fcvt.s.d" (F2_rounded FloatReg FloatReg) 83 0 32 1 ExtD 32;
    E2 "fcvt.d.s" (F2_rounded FloatReg FloatReg) 83 0 33 0 ExtD 32;
    E2 "fcvt.s.q" (F2_rounded FloatReg FloatReg) 83 0 32 3 ExtQ 32;
    E2 "fcvt.q.s" (F2_rounded FloatReg FloatReg) 83 0 35 0 ExtQ 32;
    E2 "fcvt.d.q" (F2_rounded FloatReg FloatReg) 83 0 33 3 ExtQ 32;
    E2 "fcvt.q.d" (F2_rounded FloatReg FloatReg) 83 0 35 1 ExtQ 32 ].

(** Modelled from the spec: the opcode table ("Opcode Table Entry"): the
    base integer instructions at 32, 64 and 128 bits, Zifencei, Zicsr, M,
    A, F, D and Q.  The data model gives the 16-bit instructions of C no
    format (a word is a slot of 4 bytes, and the shapes it names are
    those of 32-bit instructions), so the catalog lists none; what is
    proved of the codec is proved for every table. *)
Definition opcode_table : list TableEntry :=
  (base_rows ++ atomic_rows
   ++ float_rows ".s" "w" 0 2 ExtF ++ float_rows ".d" "d" 1 3 ExtD
   ++ float_rows ".q" "q" 3 4 ExtQ ++ float_moves)%list.

Definition Extension_eqb (a b : Extension) : bool :=
  match a, b with
  | ExtI, ExtI | Zifencei, Zifencei | Zicsr, Zicsr | ExtM, ExtM
  | ExtA, ExtA | ExtF, ExtF | ExtD, ExtD | ExtQ, ExtQ | ExtC, ExtC => true
  | _, _ => false
  end.

(** Every extension the operation's description lists. *)
Definition all_extensions : list Extension :=
  [ExtI; Zifencei; Zicsr; ExtM; ExtA; ExtF; ExtD; ExtQ; ExtC].

(** Modelled from the spec: the width of the registers under an ISA
    selection ("ISA Width").  In [encode], [AUTO] is "inferred from the
    instruction's required operand width": it admits every entry and
    every operand that some width admits, as the widest width does. *)
Definition xlen (isa : ISA) : Z :=
  match isa with
  | RV32I => 32
  | RV64I => 64
  | RV128I | AUTO => 128
  end.

Definition width_ok (isa : ISA) (e : TableEntry) : bool :=
  min_width e <=? xlen isa.

(** [len] bits of [w] from bit [lo] up. *)
Definition bits (w lo len : Z) : Z := Z.land (Z.shiftr w lo) (Z.ones len).

(** The value of a [len]-bit field read as a two's complement number. *)
Definition sign_extend (len v : Z) : Z :=
  if 2 ^ (len - 1) <=? v then v - 2 ^ len else v.

Definition fits_signed (len v : Z) : bool :=
  (- 2 ^ (len - 1) <=? v) && (v <? 2 ^ (len - 1)).

Definition fits_unsigned (len v : Z) : bool := (0 <=? v) && (v <? 2 ^ len).

Definition is_reg (r : Z) : bool := (0 <=? r) && (r <? 32).

(** The bits of the word a piece stands in. *)
Definition field (p : Piece) : Z := Z.shiftl (Z.ones (span p)) (of_word p).

(** A piece of a value put in its place, and taken from a word. *)
Definition put (v : Z) (p : Piece) : Z :=
  Z.shiftl (bits v (of_value p) (span p)) (of_word p).

Definition take (w : Z) (p : Piece) : Z :=
  Z.shiftl (bits w (of_word p) (span p)) (of_value p).

Definition lor_all (l : list Z) : Z := fold_right Z.lor 0 l.

(** The pieces of the operands, each with the value it is a piece of. *)
Definition wires (ss : list Slot) (vs : list Z) : list (Piece * Z) :=
  flat_map (fun sv : Slot * Z => map (fun p => (p, snd sv)) (pieces (fst sv)))
           (combine ss vs).

(** Modelled from the spec: "packs fields per format": the pattern of the
    entry and every piece of every operand in its place. *)
Definition pack (e : TableEntry) (vs : list Z) : Z :=
  Z.lor (pattern e)
    (lor_all (map (fun pv : Piece * Z => put (snd pv) (fst pv))
                  (wires (slots (format e)) vs))).

(** The pieces of an operand put together again. *)
Definition unpack (s : Slot) (w : Z) : Z := lor_all (map (take w) (pieces s)).

(** Modelled from the spec: the validation of an operand: its kind, and
    the range of a register index or of an immediate ("validates each
    immediate fits the format's signed bit width").  [x] is the width of
    the registers. *)
Definition value_of (x : Z) (k : Kind) (o : Operand) : Z + CodecError :=
  match k, o with
  | IntReg, Reg r | FloatReg, FReg r =>
      if is_reg r then inl r
      else inr (IllegalInstruction "register out of range")
  | Signed n, Imm v =>
      if fits_signed n v then inl v else inr ImmediateOutOfRange
  | Unsigned n, Imm v =>
      if fits_unsigned n v then inl v else inr ImmediateOutOfRange
  | Shamt, Imm v =>
      if (0 <=? v) && (v <? x) then inl v else inr ImmediateOutOfRange
  | _, _ => inr (IllegalInstruction "operands do not fit the format")
  end.

(** The operands against the slots of the format, one for one
    ("validates operand count against the table entry's arity"). *)
Fixpoint values (x : Z) (ss : list Slot) (ops : list Operand)
    : list Z + CodecError :=
  match ss, ops with
  | [], [] => inl []
  | s :: ss', o :: ops' =>
      match value_of x (kind s) o with
      | inl v =>
          match values x ss' ops' with
          | inl vs => inl (v :: vs)
          | inr err => inr err
          end
      | inr err => inr err
      end
  | _, _ => inr (IllegalInstruction "operands do not fit the format")
  end.

(** Modelled from the spec: [encode] on a table entry. *)
Definition encode_entry (x : Z) (e : TableEntry) (ops : list Operand)
    : Z + CodecError :=
  match values x (slots (format e)) ops with
  | inl vs => inl (pack e vs)
  | inr err => inr err
  end.

(** The word holds the pattern of the entry in the fixed bits of its
    format. *)
Definition matches (w : Z) (e : TableEntry) : bool :=
  Z.land w (fixed (format e)) =? pattern e.

(** At the width [x] of the registers: the entry exists at that width and
    the amounts of its shifts are below it. *)
Definition matches_at (x w : Z) (e : TableEntry) : bool :=
  matches w e
  && forallb (fun s => match kind s with
                       | Shamt => unpack s w <? x
                       | _ => true
                       end) (slots (format e))
  && (min_width e <=? x).

(** Modelled from the spec: how [decode] renders the content of a slot as
    an operand: "un-shuffles and sign-extends the immediate". *)
Definition operand_of (w : Z) (s : Slot) : Operand :=
  match kind s with
  | IntReg => Reg (unpack s w)
  | FloatReg => FReg (unpack s w)
  | Signed n => Imm (sign_extend n (unpack s w))
  | Unsigned _ | Shamt => Imm (unpack s w)
  end.

Section WithTable.

Variable table : list TableEntry.

(** Modelled from the spec: [lookup_by_mnemonic] of the field model; the
    mnemonic is case-insensitive. *)
Definition lookup_by_mnemonic (name : string) (isa : ISA)
    (extensions : list Extension) : option TableEntry :=
  find (fun e => String.eqb (mnemonic e) (toLowerCase name)
                 && width_ok isa e
                 && existsb (Extension_eqb (extension e)) extensions)
       table.

(** Modelled from the spec: [encode] of the instruction codec, over a
    table. *)
Definition encode_with (name : string) (ops : list Operand) (isa : ISA)
    (extensions : list Extension) : Z + CodecError :=
  match lookup_by_mnemonic name isa extensions with
  | Some e => encode_entry (xlen isa) e ops
  | None => inr (IllegalInstruction "unknown mnemonic")
  end.

(** Modelled from the spec: [lookup_by_bits] of the field model, at the
    width [x]. *)
Definition lookup_by_bits (w x : Z) : option TableEntry :=
  find (matches_at x w) table.

(** Modelled from the spec: the [AUTO] policy of [decode], the narrowest
    width first and wider ones when nothing matches. *)
Definition lookup_auto (w : Z) (isa : ISA) : option TableEntry :=
  match isa with
  | AUTO =>
      match lookup_by_bits w 32 with
      | Some e => Some e
      | None =>
          match lookup_by_bits w 64 with
          | Some e => Some e
          | None => lookup_by_bits w 128
          end
      end
  | _ => lookup_by_bits w (xlen isa)
  end.

(** Modelled from the spec: [decode] of the instruction codec, over a
    table and up to the rendering of the line: the entry and the operands
    a word stands for. *)
Definition decode_with (w : Z) (isa : ISA)
    : (TableEntry * list Operand) + CodecError :=
  match lookup_auto w isa with
  | Some e => inl (e, map (operand_of w) (slots (format e)))
  | None => inr (IllegalInstruction "no table entry matches the word")
  end.

End WithTable.

(** Modelled from the spec: [encode] and [decode] of the instruction
    codec with the catalog as the table; [decode] up to the rendering of
    the line, the mnemonic and the operands a word stands for. *)
Definition encode (name : string) (ops : list Operand) (isa : ISA)
    (extensions : list Extension) : Z + CodecError :=
  encode_with opcode_table name ops isa extensions.

Definition decode (w : Z) (isa : ISA)
    : (string * list Operand) + CodecError :=
  match decode_with opcode_table w isa with
  | inl (e, ops) => inl (mnemonic e, ops)
  | inr err => inr err
  end.

End Codec.

(** ** The textual face of the codec: what [new Instruction(text, options)]
    does with an assembly line or with the hex digits of a word *)

Module Text.

Import Codec.

Definition abi_names : list string :=
  [ "zero"; "ra"; "sp"; "gp"; "tp"; "t0"; "t1"; "t2"; "s0"; "s1";
    "a0"; "a1"; "a2"; "a3"; "a4"; "a5"; "a6"; "a7";
    "s2"; "s3"; "s4"; "s5"; "s6"; "s7"; "s8"; "s9"; "s10"; "s11";
    "t3"; "t4"; "t5"; "t6" ].

(** Modelled from the spec: [to_numeric_name] and [to_abi_name] of the
    field model. *)
Definition to_numeric_name (idx : Z) : string := "x" ++ toString10 idx.

Definition to_abi_name (idx : Z) : string := nth (Z.to_nat idx) abi_names "".

Definition register_indices : list Z := map Z.of_nat (seq 0 32).

Definition float_abi_names : list string :=
  [ "ft0"; "ft1"; "ft2"; "ft3"; "ft4"; "ft5"; "ft6"; "ft7"; "fs0"; "fs1";
    "fa0"; "fa1"; "fa2"; "fa3"; "fa4"; "fa5"; "fa6"; "fa7";
    "fs2"; "fs3"; "fs4"; "fs5"; "fs6"; "fs7"; "fs8"; "fs9"; "fs10"; "fs11";
    "ft8"; "ft9"; "ft10"; "ft11" ].

(** The names of the float registers. *)
Definition to_float_name (idx : Z) : string := "f" ++ toString10 idx.

Definition to_float_abi_name (idx : Z) : string :=
  nth (Z.to_nat idx) float_abi_names "".

(** Modelled from the spec: the inverse lookup of register names, which
    fails for a name outside the catalog. *)
Definition parse_register (name : string) : option Z :=
  find (fun idx => String.eqb name (to_numeric_name idx)
                   || String.eqb name (to_abi_name idx))
       register_indices.

Definition parse_float_register (name : string) : option Z :=
  find (fun idx => String.eqb name (to_float_name idx)
                   || String.eqb name (to_float_abi_name idx))
       register_indices.

Fixpoint digits_value (radix : N) (s : string) (acc : N) : option N :=
  match s with
  | EmptyString => Some acc
  | String c r =>
      match digit_value radix c with
      | Some d => digits_value radix r (acc * radix + d)%N
      | None => None
      end
  end.

(** A decimal literal or a [0x] literal, with an optional sign. *)
Definition parse_number (s : string) : option Z :=
  let negative := starts_with (Ascii.eqb "-") s in
  let body := strip_sign s in
  let magnitude :=
    match body with
    | EmptyString => None
    | String "0" (String "x" (String c r)) =>
        digits_value 16 (String c r) 0
    | _ => digits_value 10 body 0
    end in
  match magnitude with
  | Some n => Some (if negative then (- Z.of_N n)%Z else Z.of_N n)
  | None => None
  end.

Definition parse_operand (token : string) : Operand + CodecError :=
  match parse_register token with
  | Some idx => inl (Reg idx)
  | None =>
      match parse_float_register token with
      | Some idx => inl (FReg idx)
      | None =>
          match parse_number token with
          | Some v => inl (Imm v)
          | None => inr (UnknownRegister token)
          end
      end
  end.

Fixpoint parse_operands (tokens : list string)
    : list Operand + CodecError :=
  match tokens with
  | [] => inl []
  | t :: rest =>
      match parse_operand t, parse_operands rest with
      | inl o, inl os => inl (o :: os)
      | inr e, _ => inr e
      | _, inr e => inr e
      end
  end.

Definition message (e : CodecError) : string :=
  match e with
  | IllegalInstruction reason => "Illegal instruction: " ++ reason
  | ImmediateOutOfRange => "Immediate out of range"
  | UnknownRegister name => "Unknown register: " ++ name
  end.

Fixpoint to_bin (len : nat) (w : Z) : string :=
  match len with
  | O => ""
  | S len' =>
      String (if Z.testbit w (Z.of_nat len') then "1" else "0")%char
             (to_bin len' w)
  end.

Definition hex_of_word (w : Z) : string := padStart (toString16 (Z.to_N w)) 8.
Definition bin_of_word (w : Z) : string := to_bin 32 w.

(** Modelled from the spec: the constructor on an assembly line.  The
    line is cut into tokens at blanks, commas and parentheses, the first
    token is the mnemonic and the others are the operands. *)
Definition Instruction : EncodeCodec :=
  fun text isa =>
    let tokens :=
      filter (fun t => negb (is_empty t))
             (split_plus is_token_sep (toLowerCase (trim text))) in
    match tokens with
    | [] => Throw (message (IllegalInstruction "empty line"))
    | name :: operand_tokens =>
        match parse_operands operand_tokens with
        | inr e => Throw (message e)
        | inl ops =>
            match encode name ops isa all_extensions with
            | inl w => Normal {| hex := hex_of_word w; bin := bin_of_word w |}
            | inr e => Throw (message e)
            end
        end
    end.

Definition render_register (abi : bool) (idx : Z) : string :=
  if abi then to_abi_name idx else to_numeric_name idx.

Definition render_float_register (abi : bool) (idx : Z) : string :=
  if abi then to_float_abi_name idx else to_float_name idx.

Definition render_immediate (immAsHex : bool) (v : Z) : string :=
  if immAsHex
  then (if (v <? 0)%Z then "-0x" else "0x") ++ toString16 (Z.to_N (Z.abs v))
  else toString10 v.

Definition render_operand (o : DecodeOptions) (op : Operand) : string :=
  match op with
  | Reg idx => render_register (opt_ABI o) idx
  | FReg idx => render_float_register (opt_ABI o) idx
  | Imm v => render_immediate (opt_immAsHex o) v
  end.

Definition render_list (o : DecodeOptions) (ops : list Operand) : string :=
  join ", " (map (fun op => Some (render_operand o op)) ops).

(** The line of an instruction: the mnemonic and the operands in the
    syntax of the format. *)
Definition render (o : DecodeOptions) (e : TableEntry) (ops : list Operand)
    : string :=
  match syntax (format e), ops with
  | _, [] => mnemonic e
  | Memory, [a; b; c] =>
      mnemonic e ++ " " ++ render_operand o a ++ ", "
        ++ render_operand o b ++ "(" ++ render_operand o c ++ ")"
  | Address, _ :: _ =>
      mnemonic e ++ " " ++ render_list o (removelast ops) ++ ", ("
        ++ render_operand o (last ops (Imm 0)) ++ ")"
  | _, _ => mnemonic e ++ " " ++ render_list o ops
  end.

(** Modelled from the spec: the constructor on the eight hex digits of a
    word. *)
Definition Disassemble : DecodeCodec :=
  fun instHex o =>
    match (if Nat.eqb (String.length instHex) 8
           then digits_value 16 instHex 0 else None) with
    | None => Throw (message (IllegalInstruction "not a 32-bit word"))
    | Some n =>
        match decode_with opcode_table (Z.of_N n) (opt_ISA o) with
        | inl (e, ops) => Normal {| asm := render o e ops |}
        | inr e => Throw (message e)
        end
    end.

End Text.

(** ** Notions of the specification

    These follow the wording of the specification and are compared with the
    embedded code by the theorems. *)

Module Spec.

(** The lines of a text as supplied: a cut at every line feed, blank
    lines kept. *)
Definition text_lines (commands : string) : list string :=
  split_each is_newline commands.

(** The non-empty lines of a text, in order. *)
Definition nonempty_lines (commands : string) : list string :=
  filter (fun l => negb (is_empty l)) (text_lines commands).

(** The text holds nothing but line feeds (the empty text included). *)
Fixpoint only_newlines (commands : string) : bool :=
  match commands with
  | EmptyString => true
  | String c r => is_newline c && only_newlines r
  end.

Definition has_newline (s : string) : bool := includes is_newline s.

(** A string that can stand as one line: not empty, no line feed. *)
Definition clean (l : string) : Prop :=
  is_empty l = false /\ has_newline l = false.

(** A text that consists of the given lines: they are joined by single
    line feeds and each of them is clean, so the text has exactly these
    lines and does not end with a line feed. *)
Definition is_text_of_lines (text : string) (ls : list string) : Prop :=
  text = join nl (map Some ls) /\ Forall clean ls.

(** The codec gives clean hex and binary texts. *)
Definition clean_codec (Instruction : EncodeCodec) : Prop :=
  forall text isa e,
    Instruction text isa = Normal e -> clean (hex e) /\ clean (bin e).

(** The settings under which the substitute of [Encode.run] for a refused
    line, which has no binary text, does not end up as a bare line. *)
Definition fill_not_bare (args : Args) : Prop :=
  outputMode args = HexString \/ ignoreIllegal args = false
  \/ showAddr args = true \/ showInput args = true.

(** The address column of a line: [0x], then exactly [width] hexadecimal
    digits whose value is [address], zeros in front. *)
Definition address_column (width : nat) (address : N) (column : string)
    : Prop :=
  exists digits,
    column = "0x" ++ digits
    /\ String.length digits = width
    /\ Text.digits_value 16 digits 0 = Some address
    /\ digits = repeat_char "0" (width - String.length (toString16 address))
                ++ toString16 address.

(** A line that shows the address [4 * k] in a column of [width] digits
    and, in brackets, the trimmed source [text]. *)
Definition annotated_line (width k : nat) (text : string)
    (l : option string) : Prop :=
  exists column instStr,
    l = Some (column ++ ": " ++ instStr ++ " [ " ++ trim text ++ " ]")
    /\ address_column width (N.of_nat (k * 4)) column.

(** [w] is the ceiling of the logarithm of [x] to the base 16. *)
Definition is_ceil_log16 (x w : N) : Prop :=
  (x <= 16 ^ w)%N /\ (w = 0 \/ 16 ^ (w - 1) < x)%N.

(** The output of a textual mode for [n] instructions when addresses are
    shown: [n] lines, line [k] starting with the address [4 * k] in a
    column whose width is the ceiling of the logarithm to the base 16 of
    the byte count [4 * n]. *)
Definition addressed_output (n : nat) (bytes : list N) : Prop :=
  let w := ceil_log16 (N.of_nat (n * 4)) in
  is_ceil_log16 (N.of_nat (n * 4)) w
  /\ exists ls,
       bytes = Utils.strToByteArray (join nl ls)
       /\ List.length ls = n
       /\ forall k l,
            nth_error ls k = Some l ->
            exists column rest,
              l = Some (column ++ ": " ++ rest)
              /\ address_column (N.to_nat w) (N.of_nat (k * 4)) column.

(** The name a line defines as a label, if it defines one. *)
Definition label_of (code : string) : option string :=
  if includes is_colon code
  then Some (hd "" (split_each is_colon (trim code)))
  else None.

(** Line [i] (from 0) of the program defines the label [name]. *)
Definition defines (commands : string) (i : nat) (name : string) : Prop :=
  exists code,
    nth_error (source_lines commands) i = Some code
    /\ label_of code = Some name.

Definition is_DuplicateLabel (e : OperationError) : Prop :=
  match e with DuplicateLabel _ _ => True | _ => False end.

Definition is_InvalidLabelName (e : OperationError) : Prop :=
  match e with InvalidLabelName _ _ => True | _ => False end.

(** The label table answers for the name, as an own property or through
    the prototype. *)
Definition known (refs : EncodeLabels.RefList) (name : string) : Prop :=
  EncodeLabels.get refs name <> EncodeLabels.Undefined.

(** One of the two errors of the label namespace. *)
Definition label_error (e : OperationError) : Prop :=
  is_DuplicateLabel e \/ is_InvalidLabelName e.

(** No label defined on the lines before line [j] starts with a digit. *)
Definition no_digit_before (codes : list string) (j : nat) : Prop :=
  forall k code name,
    k < j -> nth_error codes k = Some code -> label_of code = Some name ->
    starts_with is_digit name = false.

(** What a slot holds in raw mode: the bytes of the hex digits of the
    encoded instruction, or of the fill pattern. *)
Definition slot_bytes (Instruction : EncodeCodec) (isa : ISA) (text : string)
    : list N :=
  match Instruction text isa with
  | Normal e => Hex.fromHex (hex e)
  | Throw _ => Hex.fromHex "ffffffff"
  end.

(** Every character is a hexadecimal digit. *)
Fixpoint all_hex (s : string) : bool :=
  match s with
  | EmptyString => true
  | String c r =>
      match digit_value 16 c with Some _ => all_hex r | None => false end
  end.

Definition eight_hex_digits (s : string) : Prop :=
  String.length s = 8 /\ all_hex s = true.

(** The codec gives the hex text of a 32-bit word. *)
Definition hex_words (Instruction : EncodeCodec) : Prop :=
  forall text isa e, Instruction text isa = Normal e -> eight_hex_digits (hex e).

(** The value of [inst] for a text handed to the codec: the encoded
    instruction, or [fill] when the codec throws and illegal instructions
    are ignored. *)
Definition slot_of (Instruction : EncodeCodec) (args : Args)
    (fill : InstValue) (codec_text : string) (v : InstValue) : Prop :=
  match Instruction codec_text (isa args) with
  | Normal e => v = of_encoded e
  | Throw _ => ignoreIllegal args = true /\ v = fill
  end.

(** A relation between the lines from index [i] on and their values. *)
Fixpoint slots_from (rel : nat -> string -> InstValue -> Prop) (i : nat)
    (rest : list string) (vs : list InstValue) : Prop :=
  match rest, vs with
  | [], [] => True
  | t :: r, v :: vs' => rel i t v /\ slots_from rel (S i) r vs'
  | _, _ => False
  end.

(** The lines pushed for the lines from index [i] on. *)
Fixpoint output_from (out : nat -> string -> InstValue -> option (option string))
    (i : nat) (rest : list string) (vs : list InstValue)
    : list (option string) :=
  match rest, vs with
  | t :: r, v :: vs' =>
      (match out i t v with Some l => [l] | None => [] end
       ++ output_from out (S i) r vs')%list
  | _, _ => []
  end.

Definition fill_without_bin : InstValue :=
  {| inst_hex := "ffffffff"; inst_bin := None |}.

Definition fill_with_bin : InstValue :=
  {| inst_hex := "ffffffff"; inst_bin := Some EncodeLabels.all_ones |}.

(** The relation of [EncodeLabels.run]: the codec sees the line with its
    label reference resolved. *)
Definition resolved_slot (Instruction : EncodeCodec) (args : Args)
    (p : EncodeLabels.Parsed) (i : nat) (text : string) (v : InstValue)
    : Prop :=
  exists text',
    EncodeLabels.deref text (EncodeLabels.refList p)
      (EncodeLabels.line_of (EncodeLabels.lineMap p) i) (i * 4) = Ok text'
    /\ slot_of Instruction args fill_with_bin text' v.

Import Codec.

(** The entry can be used under the selected width and extensions. *)
Definition compatible (e : TableEntry) (isa : ISA)
    (extensions : list Extension) : Prop :=
  width_ok isa e = true
  /\ existsb (Extension_eqb (extension e)) extensions = true.

Definition register (r : Z) : Prop := (0 <= r < 32)%Z.

Definition signed_range (len v : Z) : Prop :=
  (- 2 ^ (len - 1) <= v < 2 ^ (len - 1))%Z.

Definition unsigned_range (len v : Z) : Prop := (0 <= v < 2 ^ len)%Z.

(** An operand of the kind a slot asks for, in the range of the kind: a
    register index from 0 to 31, an immediate within the signed or the
    unsigned width of the slot, the amount of a shift below the width [x]
    of the registers. *)
Definition operand_in (x : Z) (k : Kind) (o : Operand) : Prop :=
  match k, o with
  | IntReg, Reg r | FloatReg, FReg r => register r
  | Signed n, Imm v => signed_range n v
  | Unsigned n, Imm v => unsigned_range n v
  | Shamt, Imm v => (0 <= v < x)%Z
  | _, _ => False
  end.

(** The operands an entry takes, one for each slot of its format, each in
    its range. *)
Definition in_range (e : TableEntry) (isa : ISA) (ops : list Operand)
    : Prop :=
  Forall2 (fun s o => operand_in (xlen isa) (kind s) o)
          (slots (format e)) ops.

(** The number of bits of the value of an operand. *)
Definition width_of (k : Kind) : Z :=
  match k with
  | IntReg | FloatReg => 5
  | Signed n | Unsigned n => n
  | Shamt => 7
  end.

(** The bits of the value of an operand that have a place in the word,
    and those below its width that have none: bit 0 of the offset of a
    branch or a jump. *)
Definition placed (s : Slot) : Z :=
  lor_all (map (fun p => Z.shiftl (Z.ones (span p)) (of_value p)) (pieces s)).

Definition lost (s : Slot) : Z :=
  Z.ldiff (Z.ones (width_of (kind s))) (placed s).

(** An immediate has no bit set that has no place in the word. *)
Definition keeps_bits (s : Slot) (o : Operand) : Prop :=
  match o with
  | Imm v => Z.land v (lost s) = 0%Z
  | _ => True
  end.

Definition aligned (e : TableEntry) (ops : list Operand) : Prop :=
  Forall2 keeps_bits (slots (format e)) ops.

Definition round_trips (table : list TableEntry) (e : TableEntry)
    (ops : list Operand) (isa : ISA) (extensions : list Extension) : Prop :=
  exists w,
    encode_with table (mnemonic e) ops isa extensions = inl w
    /\ (0 <= w < 2 ^ 32)%Z
    /\ decode_with table w isa = inl (e, ops).

(** The relation holds between an element of the list and every later
    one. *)
Fixpoint each_pair {A : Type} (R : A -> A -> Prop) (l : list A) : Prop :=
  match l with
  | [] => True
  | a :: rest => Forall (R a) rest /\ each_pair R rest
  end.

(** Two pieces stand in different bits of the word. *)
Definition apart (p q : Piece) : Prop :=
  (of_word p + span p <= of_word q \/ of_word q + span q <= of_word p)%Z.

(** A piece lies in the word and in the value. *)
Definition piece_ok (width : Z) (p : Piece) : Prop :=
  (0 <= of_value p /\ 0 <= of_word p /\ 0 < span p
   /\ of_word p + span p <= 32 /\ of_value p + span p <= width)%Z.

(** The pieces of a slot lie in the word and in the value, and a register
    index has a place for each of its bits. *)
Definition slot_ok (s : Slot) : Prop :=
  Forall (piece_ok (width_of (kind s))) (pieces s)
  /\ (0 < width_of (kind s))%Z
  /\ match kind s with
     | IntReg | FloatReg | Shamt => lost s = 0%Z
     | _ => True
     end.

(** A format lays out a word: no two pieces share a bit, and none holds a
    fixed bit. *)
Definition format_ok (f : Format) : Prop :=
  (0 <= fixed f < 2 ^ 32)%Z
  /\ Forall slot_ok (slots f)
  /\ each_pair apart (flat_map pieces (slots f))
  /\ Forall (fun p => Z.land (fixed f) (field p) = 0%Z)
            (flat_map pieces (slots f)).

(** The pattern of an entry lies in the fixed bits of its format, its
    mnemonic is in lower case, and it is an entry of one of the three
    widths. *)
Definition entry_ok (e : TableEntry) : Prop :=
  format_ok (format e)
  /\ Z.land (pattern e) (fixed (format e)) = pattern e
  /\ toLowerCase (mnemonic e) = mnemonic e
  /\ (min_width e = 32 \/ min_width e = 64 \/ min_width e = 128)%Z.

(** Modelled from the spec: the invariant of the opcode table: "Lookup by
    mnemonic (encode direction) and by extracted opcode/funct bits (decode
    direction) must be unambiguous - any bit pattern decodes to at most
    one table entry." *)
Definition field_model (table : list TableEntry) : Prop :=
  Forall entry_ok table
  /\ (forall a b, In a table -> In b table ->
                  mnemonic a = mnemonic b -> a = b)
  /\ (forall w a b, In a table -> In b table ->
                    matches w a = true -> matches w b = true -> a = b).

(** *** The invariant, as a test that can be run on a table *)

Fixpoint each_pairb {A : Type} (r : A -> A -> bool) (l : list A) : bool :=
  match l with
  | [] => true
  | a :: rest => forallb (r a) rest && each_pairb r rest
  end.

Definition apartb (p q : Piece) : bool :=
  ((of_word p + span p <=? of_word q) || (of_word q + span q <=? of_word p))%Z.

Definition piece_okb (width : Z) (p : Piece) : bool :=
  ((0 <=? of_value p) && (0 <=? of_word p) && (0 <? span p)
   && (of_word p + span p <=? 32) && (of_value p + span p <=? width))%Z.

Definition slot_okb (s : Slot) : bool :=
  forallb (piece_okb (width_of (kind s))) (pieces s)
  && (0 <? width_of (kind s))%Z
  && match kind s with
     | IntReg | FloatReg | Shamt => (lost s =? 0)%Z
     | _ => true
     end.

Definition format_okb (f : Format) : bool :=
  ((0 <=? fixed f) && (fixed f <? 2 ^ 32))%Z
  && forallb slot_okb (slots f)
  && each_pairb apartb (flat_map pieces (slots f))
  && forallb (fun p => (Z.land (fixed f) (field p) =? 0)%Z)
             (flat_map pieces (slots f)).

Definition entry_okb (e : TableEntry) : bool :=
  format_okb (format e)
  && (Z.land (pattern e) (fixed (format e)) =? pattern e)%Z
  && String.eqb (toLowerCase (mnemonic e)) (mnemonic e)
  && ((min_width e =? 32) || (min_width e =? 64) || (min_width e =? 128))%Z.

(** Two entries differ in a bit that is fixed in both. *)
Definition told_apart (a b : TableEntry) : bool :=
  negb (Z.land (Z.land (fixed (format a)) (fixed (format b)))
               (Z.lxor (pattern a) (pattern b)) =? 0)%Z.

Definition field_modelb (table : list TableEntry) : bool :=
  forallb entry_okb table
  && each_pairb (fun a b => negb (String.eqb (mnemonic a) (mnemonic b)))
                table
  && each_pairb told_apart table.

End Spec.

Import Codec Text Spec.

(** ** Notions used in the further properties of the RISC-V operations *)

Module Words.

(** The options [Decode.run] hands to the codec. *)
Definition options (args : Decode.Args) : DecodeOptions :=
  {| opt_ISA := Decode.isa args; opt_ABI := Decode.abi args;
     opt_immAsHex := Decode.showImmAsHex args |}.

(** The hex text of word [i] of a byte array. *)
Definition word (bytes : list N) (i : nat) : string :=
  Hex.toHexFast (Decode.slice4 bytes i).

(** What is shown for a word when refused words are ignored. *)
Definition shown (Instruction : DecodeCodec) (args : Decode.Args)
    (instHex : string) : string :=
  match Instruction instHex (options args) with
  | Normal d => asm d
  | Throw _ => Decode.illegal_text
  end.

End Words.


Module Labels.

(** The instruction a line holds: the whole line when it has no colon,
    nothing when it ends with a colon, else the text between its first
    and its second colon. *)
Definition instruction_of (code : string) : option string :=
  if includes is_colon code then
    if endsWith is_colon (trim code) then None
    else nth_error (map trim (split_each is_colon (trim code))) 1
  else Some (trim code).

(** The instructions of a sequence of lines, in order. *)
Definition instructions (codes : list string) : list string :=
  flat_map (fun code =>
              match instruction_of code with Some t => [t] | None => [] end)
    codes.

(** The number of instructions on the lines before line [i] (from 0). *)
Definition instructions_before (codes : list string) (i : nat) : nat :=
  List.length (instructions (firstn i codes)).

(** The label names the lines define, in the order of the lines. *)
Definition names (codes : list string) : list string :=
  flat_map (fun code =>
              match label_of code with Some name => [name] | None => [] end)
    codes.

(** The names that point at the address [dest], in the order of the
    table. *)
Definition names_at (refs : EncodeLabels.RefList) (dest : nat)
    : list string :=
  map fst (filter (fun entry => Nat.eqb (snd entry) dest) refs).

(** The name is a property of [Object.prototype]. *)
Definition inherited (name : string) : Prop :=
  In name EncodeLabels.Object_prototype_keys.

(** The first token of an instruction is one of the mnemonics that
    [deref] rewrites. *)
Definition takes_label (inst : string) : bool :=
  existsb (String.eqb (toLowerCase (hd "" (split_plus is_token_sep inst))))
    EncodeLabels.mneList.

(** The last token of an instruction. *)
Definition target_of (inst : string) : string :=
  last (split_plus is_token_sep inst) "".

(** A line as both revisions of [run] read it alike: no colon, no white
    space at its ends, and no reference to a label. *)
Definition plain (line : string) : Prop :=
  includes is_colon line = false
  /\ trim line = line
  /\ (takes_label line = true -> EncodeLabels.is_numeric (target_of line) = true).

(** The classification pass refuses a line that defines [name] after the
    lines [done] when [name] starts with a digit, when a line of [done]
    defines it already, or when it is a property of [Object.prototype]. *)
Definition refused (done : list string) (name : string) : Prop :=
  starts_with is_digit name = true
  \/ In name (names done)
  \/ inherited name.

(** Line [k] (from 0) defines [name] and is refused, and no line before
    it is. *)
Definition first_refused (codes : list string) (k : nat) (name : string)
    : Prop :=
  (exists code, nth_error codes k = Some code /\ label_of code = Some name)
  /\ refused (firstn k codes) name
  /\ forall k' code' name',
       k' < k -> nth_error codes k' = Some code' ->
       label_of code' = Some name' ->
       ~ refused (firstn k' codes) name'.

(** The error of a refused line [k] (from 0): the invalid name when it
    starts with a digit, the duplicate otherwise. *)
Definition error_of (k : nat) (name : string) : OperationError :=
  if starts_with is_digit name then InvalidLabelName (k + 1) name
  else DuplicateLabel (k + 1) name.

(** What the classification pass holds after the lines [done]. *)
Definition tracks (done : list string) (p : EncodeLabels.Parsed) : Prop :=
  EncodeLabels.insts p = instructions done
  /\ (forall k,
        k < List.length (EncodeLabels.insts p) ->
        exists j code,
          EncodeLabels.line_of (EncodeLabels.lineMap p) k = Some (j + 1)
          /\ nth_error done j = Some code
          /\ instruction_of code = nth_error (EncodeLabels.insts p) k
          /\ instructions_before done j = k)
  /\ (forall k,
        List.length (EncodeLabels.insts p) <= k ->
        EncodeLabels.line_of (EncodeLabels.lineMap p) k = None)
  /\ (forall i code name,
        nth_error done i = Some code -> label_of code = Some name ->
        EncodeLabels.own (EncodeLabels.refList p) name
        = Some (instructions_before done i * 4))
  /\ (forall name address,
        EncodeLabels.own (EncodeLabels.refList p) name = Some address ->
        exists i code,
          nth_error done i = Some code /\ label_of code = Some name).

End Labels.

(** ** Numbers and thrown values of the Esolang operations

    [RunBrainfuck.mjs] and [RunEmoLanguage.mjs] compute with JavaScript
    numbers and with the character codes of strings.  A string whose
    character codes matter is the list of its UTF-16 code units, which is
    what [split("")], [charCodeAt(0)] and [String.fromCharCode] work on. *)

Module Esolang.

Module Number.

Local Open Scope Z_scope.

(** Integers are exact in a double up to [2 ^ 53] in magnitude; one more
    than [2 ^ 53] rounds back to [2 ^ 53]. *)
Definition limit : Z := 2 ^ 53.

(** [x + 1] and [x - 1] on an integer within the limit. *)
Definition increment (x : Z) : Z := if x =? limit then x else x + 1.
Definition decrement (x : Z) : Z := if x =? - limit then x else x - 1.

(** [ToUint16], the conversion [String.fromCharCode] applies. *)
Definition ToUint16 (x : Z) : N := Z.to_N (x mod 65536).

(** [ToInt32], the conversion the shift operators apply. *)
Definition ToInt32 (x : Z) : Z := (x + 2 ^ 31) mod 2 ^ 32 - 2 ^ 31.

End Number.

(** What a [throw] statement of the two operations throws. *)
Inductive Thrown : Set :=
| NewOperationError (message : string)
    (* throw new OperationError(message) *)
| CallOperationError (message : string)
    (* throw OperationError(message): the class is called without new *)
| PropertyOfUndefined.
    (* a method is called on undefined *)

Inductive Completion (A : Type) : Type :=
| Returns (value : A)
| Throws (thrown : Thrown).
Arguments Returns {A} value.
Arguments Throws {A} thrown.

(** Code units of a string of one-byte characters. *)
Definition code_units (s : string) : list N :=
  map N_of_ascii (list_ascii_of_string s).

End Esolang.

(** ** [RunBrainfuck] of [src/core/operations/RunBrainfuck.mjs] *)

Module Brainfuck.

Import Esolang.

(** The variables the closure of [parse] shares (lines 48-51).  [data] is
    an array with holes, read and written at [ptr] only: a map from
    indices to numbers. *)
Record Machine : Type := mkMachine {
  input : list N;
  output : list N;
  data : Z -> option Z;
  ptr : Z
}.

Definition cell (m : Machine) : option Z := data m (ptr m).

(** [data[ptr] = v] *)
Definition store (m : Machine) (v : Z) : Machine :=
  {| input := input m; output := output m;
     data := fun p => if (p =? ptr m)%Z then Some v else data m p;
     ptr := ptr m |}.

(** [data[ptr] || 0] *)
Definition or_zero (v : option Z) : Z :=
  match v with Some x => x | None => 0%Z end.

(** [String.fromCharCode(data[ptr])]; [undefined] converts to NaN and
    then to 0. *)
Definition fromCharCode (v : option Z) : N :=
  match v with Some x => Number.ToUint16 x | None => 0%N end.

(** [data[ptr] > 0] *)
Definition positive (v : option Z) : bool :=
  match v with Some x => (0 <? x)%Z | None => false end.

(** The keys of [ops], lines 53-84. *)
Inductive Op : Set := Plus | Minus | Less | Greater | Dot | Comma.

(** [ops[nextChar]] for a one-character string. *)
Definition ops (nextChar : ascii) : option Op :=
  if Ascii.eqb nextChar "+" then Some Plus
  else if Ascii.eqb nextChar "-" then Some Minus
  else if Ascii.eqb nextChar "<" then Some Less
  else if Ascii.eqb nextChar ">" then Some Greater
  else if Ascii.eqb nextChar "." then Some Dot
  else if Ascii.eqb nextChar "," then Some Comma
  else None.

(** The functions stored in [ops]. *)
Definition call (o : Op) (m : Machine) : Completion Machine :=
  match o with
  | Plus => Returns (store m (Number.increment (or_zero (cell m))))
  | Minus => Returns (store m (Number.decrement (or_zero (cell m))))
  | Less =>
      Returns {| input := input m; output := output m; data := data m;
                 ptr := if (ptr m - 1 <? 0)%Z then 0%Z else (ptr m - 1)%Z |}
  | Greater =>
      Returns {| input := input m; output := output m; data := data m;
                 ptr := Number.increment (ptr m) |}
  | Dot =>
      Returns {| input := input m;
                 output := output m ++ [fromCharCode (cell m)];
                 data := data m; ptr := ptr m |}
  | Comma =>
      match input m with
      | c :: rest =>
          Returns (store {| input := rest; output := output m;
                            data := data m; ptr := ptr m |} (Z.of_N c))
      | [] => Throws (NewOperationError "Input is not enough")
      end
  end.

(** The nodes a parse builds: a function of [ops], or the function
    [loop(nodes)] returns. *)
#[local] Unset Elimination Schemes.
Inductive Node : Set :=
| Operation (o : Op)
| Loop (nodes : list Node).
#[local] Set Elimination Schemes.

(** The number of times the body of a loop can run: [loopCounter++ >
    10000] holds when the counter has reached 10001. *)
Definition iterations : nat := N.to_nat 10001.

(** [node()] for a node; for a loop, lines 108-120, the [while] with its
    counter and the [forEach] over the nodes of the body. *)
Fixpoint invoke (n : Node) (m : Machine) {struct n} : Completion Machine :=
  match n with
  | Operation o => call o m
  | Loop nodes =>
      let body :=
        fix forEach (ns : list Node) (m : Machine) : Completion Machine :=
          match ns with
          | [] => Returns m
          | node :: rest =>
              match invoke node m with
              | Returns m' => forEach rest m'
              | Throws t => Throws t
              end
          end in
      (fix while (left : nat) (m : Machine) : Completion Machine :=
         if positive (cell m) then
           match left with
           | O => Throws (NewOperationError "Infinite loop detected")
           | S left' =>
               match body nodes m with
               | Returns m' => while left' m'
               | Throws t => Throws t
               end
           end
         else Returns m) iterations m
  end.

(** [nodes.forEach(function (node) { node(); })] *)
Fixpoint forEach (nodes : list Node) (m : Machine) : Completion Machine :=
  match nodes with
  | [] => Returns m
  | node :: rest =>
      match invoke node m with
      | Returns m' => forEach rest m'
      | Throws t => Throws t
      end
  end.

(** The [while] of [loop(nodes)] with [left] runs of the body left. *)
Fixpoint while (nodes : list Node) (left : nat) (m : Machine)
    : Completion Machine :=
  if positive (cell m) then
    match left with
    | O => Throws (NewOperationError "Infinite loop detected")
    | S left' =>
        match forEach nodes m with
        | Returns m' => while nodes left' m'
        | Throws t => Throws t
        end
    end
  else Returns m.

(** The state [program(nodes)] starts from, lines 92-95. *)
Definition start (inputString : list N) : Machine :=
  {| input := inputString; output := []; data := fun _ => None; ptr := 0%Z |}.

(** [program(nodes)(inputString)], lines 91-100. *)
Definition program (nodes : list Node) (inputString : list N)
    : Completion (list N) :=
  match forEach nodes (start inputString) with
  | Returns m => Returns (output m)
  | Throws t => Throws t
  end.

(** [parseLoop], lines 149-166, on the characters still in
    [programChars], with the nodes pushed so far; it returns the loop node
    and the characters left.  [fuel] bounds the depth of the recursion and
    the number of characters consumed. *)
Fixpoint parseLoop (fuel : nat) (programChars : list ascii)
    (nodes : list Node) : option (Completion (Node * list ascii)) :=
  match fuel with
  | O => None
  | S fuel' =>
      match programChars with
      | [] => Some (Throws (CallOperationError "Missing closing bracket"))
      | nextChar :: rest =>
          if Ascii.eqb nextChar "]" then Some (Returns (Loop nodes, rest))
          else
            match ops nextChar with
            | Some o => parseLoop fuel' rest (nodes ++ [Operation o])
            | None =>
                if Ascii.eqb nextChar "[" then
                  match parseLoop fuel' rest [] with
                  | Some (Returns (inner, rest')) =>
                      parseLoop fuel' rest' (nodes ++ [inner])
                  | other => other
                  end
                else parseLoop fuel' rest nodes
            end
      end
  end.

(** [parseProgram], lines 128-144, up to the call of [program]. *)
Fixpoint parseProgram (fuel : nat) (programChars : list ascii)
    (nodes : list Node) : option (Completion (list Node)) :=
  match fuel with
  | O => None
  | S fuel' =>
      match programChars with
      | [] => Some (Returns nodes)
      | nextChar :: rest =>
          match ops nextChar with
          | Some o => parseProgram fuel' rest (nodes ++ [Operation o])
          | None =>
              if Ascii.eqb nextChar "[" then
                match parseLoop fuel' rest [] with
                | Some (Returns (inner, rest')) =>
                    parseProgram fuel' rest' (nodes ++ [inner])
                | Some (Throws t) => Some (Throws t)
                | None => None
                end
              else if Ascii.eqb nextChar "]" then
                Some (Throws (NewOperationError "Missing opening bracket"))
              else parseProgram fuel' rest nodes
          end
      end
  end.

(** [parse(str)], lines 172-175. *)
Definition parse (str : string) : option (Completion (list Node)) :=
  parseProgram (S (String.length str)) (list_ascii_of_string str) [].

(** [run(input, args)], lines 41-45: [this.parse(input)(bfInput)]. *)
Definition run (input : string) (bfInput : list N)
    : option (Completion (list N)) :=
  match parse input with
  | Some (Returns nodes) => Some (program nodes bfInput)
  | Some (Throws t) => Some (Throws t)
  | None => None
  end.

(** *** Notions used in the properties of the operation *)

(** The same grammar read in one pass, with the node lists of the loops
    that are still open kept on a stack. *)
Fixpoint scan (programChars : list ascii) (stack : list (list Node))
    (nodes : list Node) : Completion (list Node) :=
  match programChars with
  | [] =>
      match stack with
      | [] => Returns nodes
      | _ :: _ => Throws (CallOperationError "Missing closing bracket")
      end
  | nextChar :: rest =>
      match ops nextChar with
      | Some o => scan rest stack (nodes ++ [Operation o])
      | None =>
          if Ascii.eqb nextChar "[" then scan rest (nodes :: stack) []
          else if Ascii.eqb nextChar "]" then
            match stack with
            | [] => Throws (NewOperationError "Missing opening bracket")
            | outer :: stack' => scan rest stack' (outer ++ [Loop nodes])
            end
          else scan rest stack nodes
      end
  end.

(** The number of brackets left open after the characters, starting
    with [depth] open ones; [None] when a closing bracket has no opening
    one before it. *)
Fixpoint brackets (programChars : list ascii) (depth : nat) : option nat :=
  match programChars with
  | [] => Some depth
  | c :: rest =>
      if Ascii.eqb c "[" then brackets rest (S depth)
      else if Ascii.eqb c "]" then
        match depth with
        | O => None
        | S depth' => brackets rest depth'
        end
      else brackets rest depth
  end.

(** The eight characters that are not comments. *)
Definition is_command (c : ascii) : bool :=
  match ops c with
  | Some _ => true
  | None => Ascii.eqb c "[" || Ascii.eqb c "]"
  end.

(** The characters of a string that satisfy [p]. *)
Fixpoint keep (p : ascii -> bool) (s : string) : string :=
  match s with
  | EmptyString => ""
  | String c r => if p c then String c (keep p r) else keep p r
  end.

Definition char_of (o : Op) : ascii :=
  match o with
  | Plus => "+" | Minus => "-" | Less => "<" | Greater => ">"
  | Dot => "." | Comma => ","
  end.

(** The program text of a node and of a list of nodes. *)
Fixpoint text_of (n : Node) : string :=
  match n with
  | Operation o => String (char_of o) ""
  | Loop nodes =>
      "[" ++ (fix texts (ns : list Node) : string :=
                match ns with
                | [] => ""
                | node :: rest => text_of node ++ texts rest
                end) nodes ++ "]"
  end.

Fixpoint texts_of (nodes : list Node) : string :=
  match nodes with
  | [] => ""
  | node :: rest => text_of node ++ texts_of rest
  end.

(** Every operation of the node, at any depth, satisfies [p]. *)
Fixpoint every (p : Op -> bool) (n : Node) : bool :=
  match n with
  | Operation o => p o
  | Loop nodes => forallb (every p) nodes
  end.

Definition every_node (p : Op -> bool) (nodes : list Node) : bool :=
  forallb (every p) nodes.

Definition is_not (o o' : Op) : bool :=
  match o, o' with
  | Plus, Plus | Minus, Minus | Less, Less | Greater, Greater
  | Dot, Dot | Comma, Comma => false
  | _, _ => true
  end.

(** The stack of open loops with [pre] put in front of the outermost
    node list. *)
Fixpoint under (pre : list Node) (stack : list (list Node))
    : list (list Node) :=
  match stack with
  | [] => []
  | [bottom] => [(pre ++ bottom)%list]
  | top :: below => top :: under pre below
  end.

(** The operations of the characters of a text that are keys of [ops],
    in order. *)
Definition operations (programChars : list ascii) : list Op :=
  flat_map (fun c => match ops c with Some o => [o] | None => [] end)
    programChars.

(** The number of operations [o] among a list of operations. *)
Definition count (o : Op) (l : list Op) : nat :=
  List.length (filter (fun o' => negb (is_not o o')) l).

(** The state with another input. *)
Definition with_input (inputString : list N) (m : Machine) : Machine :=
  {| input := inputString; output := output m; data := data m;
     ptr := ptr m |}.

(** The pointer and the cells are within the range in which the numbers
    of the code are exact, and the input holds code units. *)
Definition within_limits (m : Machine) : Prop :=
  (0 <= ptr m <= Number.limit)%Z
  /\ (forall p v, data m p = Some v ->
                  (- Number.limit <= v <= Number.limit)%Z)
  /\ Forall (fun c => (c < 65536)%N) (input m).

End Brainfuck.

(** ** [RunEmoLanguage] of [src/core/operations/RunEmoLanguage.mjs] *)

Module Emo.

Import Esolang.

Definition is_tilde (c : ascii) : bool := Ascii.eqb c "~".

(** [l.split("~")[0].trim()], lines 58 and 112. *)
Definition strip (l : string) : string :=
  trim (hd "" (split_each is_tilde l)).

(** [line[0]] and [line[line.length - 1]]; [None] stands for
    [undefined]. *)
Definition first_char (line : string) : option ascii :=
  match line with
  | EmptyString => None
  | String c _ => Some c
  end.

Fixpoint last_char (line : string) : option ascii :=
  match line with
  | EmptyString => None
  | String c EmptyString => Some c
  | String _ rest => last_char rest
  end.

(** [x !== "c1" && x !== "c2" && ...] for a character or [undefined]. *)
Definition none_of (chars : list ascii) (x : option ascii) : bool :=
  match x with
  | Some c => negb (existsb (Ascii.eqb c) chars)
  | None => true
  end.

(** [line.indexOf("c1") < 0 && line.indexOf("c2") < 0 && ...] *)
Definition holds_none_of (chars : list ascii) (line : string) : bool :=
  negb (includes (fun c => existsb (Ascii.eqb c) chars) line).

Definition Line (i : nat) (text : string) : string :=
  "Line(" ++ toString10 (Z.of_nat i) ++ "): " ++ text.

(** The messages the four tests of lines 61-72 push for a line. *)
Definition line_errors (i : nat) (line : string) : list string :=
  ((if none_of [":"; ";"; "<"; "="]%char (first_char line)
    then [Line i "Line must begin with :, ;, =, or <"] else [])
   ++ (if none_of [")"; "("; ">"; "|"; "@"; "}"; "{"]%char (last_char line)
       then [Line i "Line must end with (, ), |, @, {, }, or >"] else [])
   ++ (if holds_none_of [";"; ":"; "="]%char line
       then [Line i "Line must contain :, ;, or ="] else [])
   ++ (if holds_none_of [")"; "("; "|"; "@"]%char line
          && none_of ["}"; "{"]%char (last_char line)
       then [Line i "Line must contain (, ), @, }, {, or |"] else []))%list.

(** The change of [nestedLoopCount] a line makes, lines 73-78. *)
Definition nesting (line : string) : Z :=
  ((if includes (Ascii.eqb "<") line then 1 else 0)
   - (if includes (Ascii.eqb ">") line then 1 else 0))%Z.

(** The loop of [check], lines 56-80, over the lines left. *)
Fixpoint check_lines (lines : list string) (i : nat) (nestedLoopCount : Z)
    (errors : list string) : Z * list string :=
  match lines with
  | [] => (nestedLoopCount, errors)
  | l :: rest =>
      let line := strip l in
      if is_empty line then check_lines rest i nestedLoopCount errors
      else
        check_lines rest (S i) (nestedLoopCount + nesting line)%Z
          (errors ++ line_errors i line)
  end.

(** [check(input)], lines 51-87. *)
Definition check (input : string) : Completion unit :=
  let (nestedLoopCount, errors) :=
    check_lines (split_each is_newline input) 0 0%Z [] in
  let errors :=
    if negb (nestedLoopCount =? 0)%Z
    then (errors
          ++ ["Incorrect nested loops, missing opening or closing bracket"])%list
    else errors in
  match errors with
  | [] => Returns tt
  | _ :: _ => Throws (NewOperationError (join nl (map Some errors)))
  end.

(** The values of the variables of [emulate]: [undefined], NaN or an
    integer. *)
Inductive Value : Set :=
| Undefined
| NaN
| Num (z : Z).

(** [x + 1] and [x - 1] after the conversion to a number. *)
Definition plus_one (v : Value) : Value :=
  match v with Num z => Num (Number.increment z) | _ => NaN end.

Definition minus_one (v : Value) : Value :=
  match v with Num z => Num (Number.decrement z) | _ => NaN end.

(** [x << 1] and [x >> 1]: the operand is converted to a 32-bit integer,
    NaN to 0. *)
Definition to_int32 (v : Value) : Z :=
  match v with Num z => Number.ToInt32 z | _ => 0%Z end.

Definition shift_left (v : Value) : Value :=
  Num (Number.ToInt32 (2 * to_int32 v)).

Definition shift_right (v : Value) : Value :=
  Num (Z.shiftr (to_int32 v) 1).

(** [v || 0] *)
Definition or_zero (v : Value) : Value :=
  match v with
  | Num z => if (z =? 0)%Z then Num 0 else Num z
  | _ => Num 0
  end.

(** [v === 0] *)
Definition is_zero (v : Value) : bool :=
  match v with Num z => (z =? 0)%Z | _ => false end.

(** [String.fromCharCode(v)] *)
Definition fromCharCode (v : Value) : N :=
  match v with Num z => Number.ToUint16 z | _ => 0%N end.

(** The variables of [emulate], lines 96-108, and the loop variable
    [index] of line 110.  The arrays [memory], [loopBegin] and [loopEnd]
    are read and written at single indices, which may be negative: maps
    from integers to values. *)
Record State : Type := mkState {
  input : list N;
  output : list N;
  memory : Z -> Value;
  loopBegin : Z -> Value;
  loopEnd : Z -> Value;
  stack : list Value;
  ptrOrValue : bool;
  justLooped : bool;
  register : Value;
  workingLocation : Value;
  currentMemoryPtr : Z;
  loopIndex : Z;
  index : Value
}.

Definition start (inputString : list N) : State :=
  {| input := inputString; output := [];
     memory := fun _ => Undefined; loopBegin := fun _ => Undefined;
     loopEnd := fun _ => Undefined; stack := [];
     ptrOrValue := false; justLooped := false;
     register := Num 0; workingLocation := Num 0;
     currentMemoryPtr := 0%Z; loopIndex := 0%Z; index := Num 0 |}.

(** [a[k] = v] *)
Definition assign (a : Z -> Value) (k : Z) (v : Value) : Z -> Value :=
  fun j => if (j =? k)%Z then v else a j.

Definition set_workingLocation (v : Value) (s : State) : State :=
  {| input := input s; output := output s; memory := memory s;
     loopBegin := loopBegin s; loopEnd := loopEnd s; stack := stack s;
     ptrOrValue := ptrOrValue s; justLooped := justLooped s;
     register := register s; workingLocation := v;
     currentMemoryPtr := currentMemoryPtr s; loopIndex := loopIndex s;
     index := index s |}.

Definition set_ptrOrValue (b : bool) (s : State) : State :=
  {| input := input s; output := output s; memory := memory s;
     loopBegin := loopBegin s; loopEnd := loopEnd s; stack := stack s;
     ptrOrValue := b; justLooped := justLooped s;
     register := register s; workingLocation := workingLocation s;
     currentMemoryPtr := currentMemoryPtr s; loopIndex := loopIndex s;
     index := index s |}.

Definition set_register (v : Value) (s : State) : State :=
  {| input := input s; output := output s; memory := memory s;
     loopBegin := loopBegin s; loopEnd := loopEnd s; stack := stack s;
     ptrOrValue := ptrOrValue s; justLooped := justLooped s;
     register := v; workingLocation := workingLocation s;
     currentMemoryPtr := currentMemoryPtr s; loopIndex := loopIndex s;
     index := index s |}.

Definition set_memory (a : Z -> Value) (s : State) : State :=
  {| input := input s; output := output s; memory := a;
     loopBegin := loopBegin s; loopEnd := loopEnd s; stack := stack s;
     ptrOrValue := ptrOrValue s; justLooped := justLooped s;
     register := register s; workingLocation := workingLocation s;
     currentMemoryPtr := currentMemoryPtr s; loopIndex := loopIndex s;
     index := index s |}.

Definition set_currentMemoryPtr (k : Z) (s : State) : State :=
  {| input := input s; output := output s; memory := memory s;
     loopBegin := loopBegin s; loopEnd := loopEnd s; stack := stack s;
     ptrOrValue := ptrOrValue s; justLooped := justLooped s;
     register := register s; workingLocation := workingLocation s;
     currentMemoryPtr := k; loopIndex := loopIndex s;
     index := index s |}.

Definition set_input (l : list N) (s : State) : State :=
  {| input := l; output := output s; memory := memory s;
     loopBegin := loopBegin s; loopEnd := loopEnd s; stack := stack s;
     ptrOrValue := ptrOrValue s; justLooped := justLooped s;
     register := register s; workingLocation := workingLocation s;
     currentMemoryPtr := currentMemoryPtr s; loopIndex := loopIndex s;
     index := index s |}.

Definition set_output (l : list N) (s : State) : State :=
  {| input := input s; output := l; memory := memory s;
     loopBegin := loopBegin s; loopEnd := loopEnd s; stack := stack s;
     ptrOrValue := ptrOrValue s; justLooped := justLooped s;
     register := register s; workingLocation := workingLocation s;
     currentMemoryPtr := currentMemoryPtr s; loopIndex := loopIndex s;
     index := index s |}.

Definition set_justLooped (b : bool) (s : State) : State :=
  {| input := input s; output := output s; memory := memory s;
     loopBegin := loopBegin s; loopEnd := loopEnd s; stack := stack s;
     ptrOrValue := ptrOrValue s; justLooped := b;
     register := register s; workingLocation := workingLocation s;
     currentMemoryPtr := currentMemoryPtr s; loopIndex := loopIndex s;
     index := index s |}.

Definition set_loopIndex (k : Z) (s : State) : State :=
  {| input := input s; output := output s; memory := memory s;
     loopBegin := loopBegin s; loopEnd := loopEnd s; stack := stack s;
     ptrOrValue := ptrOrValue s; justLooped := justLooped s;
     register := register s; workingLocation := workingLocation s;
     currentMemoryPtr := currentMemoryPtr s; loopIndex := k;
     index := index s |}.

Definition set_loopBegin (a : Z -> Value) (s : State) : State :=
  {| input := input s; output := output s; memory := memory s;
     loopBegin := a; loopEnd := loopEnd s; stack := stack s;
     ptrOrValue := ptrOrValue s; justLooped := justLooped s;
     register := register s; workingLocation := workingLocation s;
     currentMemoryPtr := currentMemoryPtr s; loopIndex := loopIndex s;
     index := index s |}.

Definition set_loopEnd (a : Z -> Value) (s : State) : State :=
  {| input := input s; output := output s; memory := memory s;
     loopBegin := loopBegin s; loopEnd := a; stack := stack s;
     ptrOrValue := ptrOrValue s; justLooped := justLooped s;
     register := register s; workingLocation := workingLocation s;
     currentMemoryPtr := currentMemoryPtr s; loopIndex := loopIndex s;
     index := index s |}.

Definition set_stack (l : list Value) (s : State) : State :=
  {| input := input s; output := output s; memory := memory s;
     loopBegin := loopBegin s; loopEnd := loopEnd s; stack := l;
     ptrOrValue := ptrOrValue s; justLooped := justLooped s;
     register := register s; workingLocation := workingLocation s;
     currentMemoryPtr := currentMemoryPtr s; loopIndex := loopIndex s;
     index := index s |}.

Definition set_index (v : Value) (s : State) : State :=
  {| input := input s; output := output s; memory := memory s;
     loopBegin := loopBegin s; loopEnd := loopEnd s; stack := stack s;
     ptrOrValue := ptrOrValue s; justLooped := justLooped s;
     register := register s; workingLocation := workingLocation s;
     currentMemoryPtr := currentMemoryPtr s; loopIndex := loopIndex s;
     index := v |}.

(** [memory[currentMemoryPtr]] *)
Definition current (s : State) : Value := memory s (currentMemoryPtr s).

(** On the pointer or on the working value, as [ptrOrValue] says. *)
Definition on_pointer_or_value (on_pointer : Z -> Z)
    (on_value : Value -> Value) (s : State) : State :=
  if ptrOrValue s
  then set_currentMemoryPtr (on_pointer (currentMemoryPtr s)) s
  else set_workingLocation (on_value (workingLocation s)) s.

(** The [switch] of lines 115-205 for the character [line[i]]. *)
Definition step (c : ascii) (s : State) : Completion State :=
  if Ascii.eqb c ";" then
    Returns (set_ptrOrValue true (set_workingLocation (current s) s))
  else if Ascii.eqb c ":" then
    Returns (set_ptrOrValue false (set_workingLocation (register s) s))
  else if Ascii.eqb c ")" then
    Returns (set_register (workingLocation s) s)
  else if Ascii.eqb c "}" then
    Returns (set_register (or_zero (current s)) s)
  else if Ascii.eqb c "{" then
    Returns (set_memory
               (assign (memory s) (currentMemoryPtr s) (register s)) s)
  else if Ascii.eqb c "(" then
    Returns (set_memory
               (assign (memory s) (currentMemoryPtr s) (workingLocation s)) s)
  else if Ascii.eqb c "^" then
    Returns (on_pointer_or_value Number.increment plus_one s)
  else if Ascii.eqb c "-" then
    Returns (on_pointer_or_value Number.decrement minus_one s)
  else if Ascii.eqb c "o" then
    Returns (on_pointer_or_value
               (fun k => Number.ToInt32 (2 * Number.ToInt32 k))
               shift_left s)
  else if Ascii.eqb c "c" then
    Returns (on_pointer_or_value
               (fun k => Z.shiftr (Number.ToInt32 k) 1) shift_right s)
  else if Ascii.eqb c "=" then
    match input s with
    | code :: rest =>
        Returns (set_workingLocation (Num (Z.of_N code)) (set_input rest s))
    | [] => Throws (NewOperationError "Input is not enough")
    end
  else if Ascii.eqb c "|" then Returns s
  else if Ascii.eqb c "@" then
    Returns (set_output (output s ++ [fromCharCode (workingLocation s)]) s)
  else if Ascii.eqb c "<" then
    if justLooped s then Returns (set_justLooped false s)
    else
      let s' := set_loopIndex (Number.increment (loopIndex s)) s in
      Returns (set_loopBegin
                 (assign (loopBegin s') (loopIndex s') (index s')) s')
  else if Ascii.eqb c ">" then
    let s' :=
      set_loopEnd (assign (loopEnd s) (loopIndex s) (index s)) s in
    if is_zero (current s') then
      Returns (set_loopIndex (Number.decrement (loopIndex s')) s')
    else
      Returns (set_justLooped true
                 (set_index (minus_one (loopBegin s' (loopIndex s'))) s'))
  else if Ascii.eqb c "P" then
    Returns (set_stack (stack s ++ [workingLocation s]) s)
  else if Ascii.eqb c "X" then
    Returns (set_workingLocation (last (stack s) Undefined)
               (set_stack (removelast (stack s)) s))
  else Returns s.

(** The inner loop of lines 114-206 over the characters of the line. *)
Fixpoint each_char (chars : list ascii) (s : State) : Completion State :=
  match chars with
  | [] => Returns s
  | c :: rest =>
      match step c s with
      | Returns s' => each_char rest s'
      | Throws t => Throws t
      end
  end.

(** [lines[index]] for the value of [index] at the head of the loop. *)
Definition line_at (lines : list string) (z : Z) : option string :=
  if (z <? 0)%Z then None else nth_error lines (Z.to_nat z).

(** The outer loop of lines 110-207, from the test [index <
    lines.length] on; [fuel] bounds the number of lines run. *)
Fixpoint for_lines (fuel : nat) (lines : list string) (s : State)
    : option (Completion State) :=
  match fuel with
  | O => None
  | S fuel' =>
      match index s with
      | Num z =>
          if (z <? Z.of_nat (List.length lines))%Z then
            match line_at lines z with
            | None => Some (Throws PropertyOfUndefined)
            | Some l =>
                match each_char (list_ascii_of_string (strip l)) s with
                | Returns s' =>
                    for_lines fuel' lines (set_index (plus_one (index s')) s')
                | Throws t => Some (Throws t)
                end
            end
          else Some (Returns s)
      | _ => Some (Returns s)
      end
  end.

(** [emulate(code, inputString)], lines 94-209. *)
Definition emulate (fuel : nat) (code : string) (inputString : list N)
    : option (Completion (list N)) :=
  match for_lines fuel (split_each is_newline code) (start inputString) with
  | Some (Returns s) => Some (Returns (output s))
  | Some (Throws t) => Some (Throws t)
  | None => None
  end.

(** [run(input, args)], lines 41-45. *)
Definition run (fuel : nat) (input : string) (programInput : list N)
    : option (Completion (list N)) :=
  match check input with
  | Returns _ => emulate fuel input programInput
  | Throws t => Some (Throws t)
  end.

(** *** Notions used in the properties of the operation *)

(** The lines [check] and [emulate] work on: each line without its
    comment and trimmed. *)
Definition stripped (input : string) : list string :=
  map strip (split_each is_newline input).

(** Those of them that are not empty. *)
Definition code_lines (input : string) : list string :=
  filter (fun line => negb (is_empty line)) (stripped input).

Definition one_of (chars : list ascii) (c : ascii) : bool :=
  existsb (Ascii.eqb c) chars.

(** The line begins with [:], [;] or [=], or with [<] when it holds one
    of [:], [;] and [=]. *)
Definition begins_well (line : string) : bool :=
  match first_char line with
  | Some c =>
      one_of [":"; ";"; "="]%char c
      || (Ascii.eqb c "<" && includes (one_of [";"; ":"; "="]%char) line)
  | None => false
  end.

(** The line ends with one of [(], [)], [|], [@], [{] and [}], or with
    [>] when it holds one of [(], [)], [|] and [@]. *)
Definition ends_well (line : string) : bool :=
  match last_char line with
  | Some c =>
      one_of [")"; "("; "|"; "@"; "}"; "{"]%char c
      || (Ascii.eqb c ">" && includes (one_of [")"; "("; "|"; "@"]%char) line)
  | None => false
  end.

Definition well_formed (line : string) : bool :=
  begins_well line && ends_well line.

(** Lines that hold [<] less lines that hold [>]. *)
Definition balance (lines : list string) : Z :=
  fold_right (fun line n => (nesting line + n)%Z) 0%Z lines.

(** The messages of the lines, each line under its position counted
    from [i]. *)
Fixpoint numbered (i : nat) (lines : list string) : list string :=
  match lines with
  | [] => []
  | line :: rest => (line_errors i line ++ numbered (S i) rest)%list
  end.

(** The messages of a text: those of its non-empty lines, numbered from
    0, then the one on nesting. *)
Definition messages (input : string) : list string :=
  (numbered 0 (code_lines input)
   ++ (if (balance (code_lines input) =? 0)%Z then []
       else ["Incorrect nested loops, missing opening or closing bracket"]))%list.

(** An integer within the range of exact integers, or not a number. *)
Definition exact (v : Value) : Prop :=
  match v with
  | Num z => (- Number.limit <= z <= Number.limit)%Z
  | _ => True
  end.

(** Every number of the state is within the range in which the numbers
    of the code are exact, and the input holds code units. *)
Definition within_limits (s : State) : Prop :=
  Forall (fun c => (c < 65536)%N) (input s)
  /\ (forall k, exact (memory s k))
  /\ (forall k, exact (loopBegin s k))
  /\ (forall k, exact (loopEnd s k))
  /\ Forall exact (stack s)
  /\ exact (register s)
  /\ exact (workingLocation s)
  /\ exact (Num (currentMemoryPtr s))
  /\ exact (Num (loopIndex s))
  /\ exact (index s).

(** The text with the comment of every line removed. *)
Definition without_comments (input : string) : string :=
  join nl (map (fun l => Some (hd "" (split_each is_tilde l)))
             (split_each is_newline input)).

End Emo.

(** * Properties *)

(** ** The built-ins and the codec on examples *)

Example split_runs_of_newlines :
  split_plus is_newline ("a" ++ nl ++ nl ++ "b") = ["a"; "b"].
Proof. reflexivity. Qed.

Example split_keeps_outer_empty_pieces :
  split_plus is_newline (nl ++ nl ++ "a" ++ nl) = [""; "a"; ""]
  /\ split_plus is_newline "" = [""]
  /\ split_plus is_newline nl = [""; ""].
Proof. repeat split. Qed.

Example source_lines_drops_outer_empty_pieces :
  source_lines (nl ++ nl ++ "a" ++ nl ++ nl ++ "b" ++ nl) = ["a"; "b"]
  /\ source_lines "" = [] /\ source_lines nl = [].
Proof. repeat split. Qed.

Example split_tokens :
  split_plus is_token_sep "beq x1, x2, loop" = ["beq"; "x1"; "x2"; "loop"]
  /\ split_plus is_token_sep "lw a0, 8(sp)" = ["lw"; "a0"; "8"; "sp"; ""].
Proof. repeat split. Qed.

Example split_at_colon :
  split_each is_colon "loop: addi x1, x1, 1" = ["loop"; " addi x1, x1, 1"]
  /\ split_each is_colon "loop:" = ["loop"; ""].
Proof. repeat split. Qed.

Example numbers_as_text :
  toString16 0 = "0" /\ toString16 4096 = "1000"
  /\ padStart (toString16 12) 3 = "00c"
  /\ toString10 (-4) = "-4" /\ toString10 120 = "120".
Proof. repeat split. Qed.

Example numeric_targets :
  EncodeLabels.is_numeric "loop" = false
  /\ EncodeLabels.is_numeric "-4" = true
  /\ EncodeLabels.is_numeric "0x1f" = true
  /\ EncodeLabels.is_numeric "x0x" = false.
Proof. repeat split. Qed.

Example join_renders_undefined_empty :
  join nl [Some "a"; None; Some "b"] = "a" ++ nl ++ nl ++ "b"
  /\ join nl [Some "a"; None] = "a" ++ nl.
Proof. repeat split. Qed.

Example ceil_log16_values :
  ceil_log16 4 = 1%N /\ ceil_log16 16 = 1%N /\ ceil_log16 20 = 2%N
  /\ ceil_log16 256 = 2%N /\ ceil_log16 260 = 3%N.
Proof. repeat split. Qed.

Example encode_addi :
  Text.Instruction "addi x1, x1, 1" AUTO
  = Normal {| hex := "00108093"; bin := "00000000000100001000000010010011" |}.
Proof. vm_compute. reflexivity. Qed.

Example decode_nop :
  Text.Disassemble "00000013" (mkDecodeOptions AUTO false false)
  = Normal {| asm := "addi x0, x0, 0" |}
  /\ Text.Disassemble "00000013" (mkDecodeOptions AUTO true false)
     = Normal {| asm := "addi zero, zero, 0" |}.
Proof. vm_compute. repeat split. Qed.

Example decode_run_two_words :
  Decode.run Text.Disassemble [0; 0; 0; 19; 254; 32; 142; 227]%N
    (Decode.mkArgs AUTO false true true false false) []
  = (["00000013"; "fe208ee3"],
     Ok ("0x0 (00000013): addi x0, x0, 0" ++ nl
         ++ "0x4 (fe208ee3): beq x1, x2, -4")).
Proof. vm_compute. reflexivity. Qed.

(** The amount of a shift is checked against the width of the
    registers. *)
Example shift_amounts :
  Codec.encode "slli" [Reg 1; Reg 1; Imm 40] RV64I all_extensions
  = inl 0x02809093%Z
  /\ Codec.encode "slli" [Reg 1; Reg 1; Imm 40] AUTO all_extensions
     = inl 0x02809093%Z
  /\ Codec.encode "slli" [Reg 1; Reg 1; Imm 40] RV32I all_extensions
     = inr ImmediateOutOfRange
  /\ Codec.decode 0x02809093%Z AUTO = inl ("slli", [Reg 1; Reg 1; Imm 40%Z])
  /\ Codec.decode 0x02809093%Z RV32I
     = inr (IllegalInstruction "no table entry matches the word").
Proof. vm_compute. repeat split. Qed.

(** Instructions of the extensions, there and back. *)
Example encode_extensions :
  map (fun text => match Text.Instruction text AUTO with
                   | Normal e => hex e
                   | Throw message => message
                   end)
      [ "csrrw x0, 0x300, x2"; "amoadd.w.aqrl x1, x2, (x3)"; "lr.d x1, (x3)";
        "fmadd.d f1, f2, f3, f4, 7"; "flw fa0, -4(sp)"; "fcvt.s.d f1, f2, 0";
        "fence 15, 15"; "fence.i"; "ebreak"; "mulw x1, x2, x3";
        "sraiw x1, x2, 31"; "lq x1, 16(x2)" ]
  = [ "30011073"; "0621a0af"; "1001b0af"; "223170c3"; "ffc12507"; "401100d3";
      "0ff0000f"; "0000100f"; "00100073"; "023100bb"; "41f1509b";
      "0101208f" ].
Proof. vm_compute. reflexivity. Qed.

Example decode_extensions :
  map (fun instHex =>
         match Text.Disassemble instHex (mkDecodeOptions AUTO false false) with
         | Normal d => asm d
         | Throw message => message
         end)
      [ "30011073"; "0621a0af"; "1001b0af"; "223170c3"; "ffc12507"; "401100d3";
        "0ff0000f"; "0000100f"; "00100073"; "023100bb"; "41f1509b";
        "0101208f" ]
  = [ "csrrw x0, 768, x2"; "amoadd.w.aqrl x1, x2, (x3)"; "lr.d x1, (x3)";
      "fmadd.d f1, f2, f3, f4, 7"; "flw f10, -4(x2)"; "fcvt.s.d f1, f2, 0";
      "fence 15, 15"; "fence.i"; "ebreak"; "mulw x1, x2, x3";
      "sraiw x1, x2, 31"; "lq x1, 16(x2)" ].
Proof. vm_compute. reflexivity. Qed.

(** ** Splitting a text into lines *)

Section Splitting.

Variable sep : ascii -> bool.

Let nonempty (l : string) : bool := negb (is_empty l).

Lemma split_plus_cons : forall s, exists h t, split_plus sep s = h :: t.
Proof.
  induction s as [|c r [h [t IH]]]; simpl; eauto.
  destruct (sep c).
  - destruct (starts_with sep r); eauto.
  - rewrite IH; simpl; eauto.
Qed.

Lemma split_each_cons : forall s, exists h t, split_each sep s = h :: t.
Proof.
  induction s as [|c r [h [t IH]]]; simpl; eauto.
  destruct (sep c); eauto.
  rewrite IH; simpl; eauto.
Qed.

Lemma split_plus_head_sep : forall s,
  starts_with sep s = true -> exists t, split_plus sep s = "" :: t.
Proof.
  induction s as [|c r IH]; simpl; intros H; [discriminate|].
  rewrite H. destruct (starts_with sep r) eqn:Hr; eauto.
Qed.

(** Both ways of cutting agree on the first piece and on the non-empty
    pieces after it. *)
Lemma split_plus_each : forall s,
  hd "" (split_plus sep s) = hd "" (split_each sep s)
  /\ filter nonempty (tl (split_plus sep s))
     = filter nonempty (tl (split_each sep s)).
Proof.
  induction s as [|c r [IHh IHt]]; simpl; [auto|].
  destruct (split_plus_cons r) as [hp [tp Hp]].
  destruct (split_each_cons r) as [he [te He]].
  rewrite Hp, He in *; simpl in *; subst he.
  destruct (sep c) eqn:Hc; simpl.
  - destruct (starts_with sep r) eqn:Hr.
    + destruct (split_plus_head_sep r Hr) as [t' Ht'].
      rewrite Hp in Ht'; inversion Ht'; subst.
      simpl; auto.
    + simpl. split; [reflexivity|].
      destruct (nonempty hp); congruence.
  - auto.
Qed.

Lemma filter_split_plus : forall s,
  filter nonempty (split_plus sep s) = filter nonempty (split_each sep s).
Proof.
  intros s. destruct (split_plus_each s) as [Hh Ht].
  destruct (split_plus_cons s) as [hp [tp Hp]].
  destruct (split_each_cons s) as [he [te He]].
  rewrite Hp, He in *; simpl in *; subst.
  destruct (nonempty he); congruence.
Qed.

(** Only the first and the last piece of [split_plus] can be empty. *)
Lemma split_plus_inner : forall s,
  Forall (fun l => is_empty l = false) (removelast (tl (split_plus sep s)))
  /\ (starts_with sep s = false -> s <> "" ->
      is_empty (hd "" (split_plus sep s)) = false).
Proof.
  induction s as [|c r [IHi IHh]]; simpl.
  - split; [constructor | congruence].
  - destruct (split_plus_cons r) as [hp [tp Hp]].
    destruct (sep c) eqn:Hc.
    + destruct (starts_with sep r) eqn:Hr.
      * split; [assumption | discriminate].
      * split; [| discriminate].
        simpl. rewrite Hp in *; simpl in *.
        destruct tp as [|x tp']; [constructor|].
        constructor; [| assumption].
        apply IHh; [reflexivity|].
        intros ->; discriminate.
    + rewrite Hp in *; simpl in *. split; auto.
Qed.

End Splitting.

Lemma strip_inner_nonempty : forall (h : string) (t : list string),
  Forall (fun l => is_empty l = false) (removelast t) ->
  pop_empty (shift_empty (h :: t))
  = filter (fun l => negb (is_empty l)) (h :: t).
Proof.
  intros h t Hin.
  assert (Hf : forall m : list string,
             Forall (fun l => is_empty l = false) m ->
             filter (fun l => negb (is_empty l)) m = m).
  { induction 1 as [|x m Hx _ IH]; simpl; [reflexivity|].
    rewrite Hx; simpl; congruence. }
  destruct t as [|x t'] using rev_ind.
  - unfold shift_empty, pop_empty; simpl.
    destruct (is_empty h) eqn:Hh; simpl; [reflexivity|].
    rewrite Hh; reflexivity.
  - clear IHt'. rewrite removelast_last in Hin.
    unfold shift_empty. simpl filter.
    rewrite filter_app, (Hf _ Hin). simpl.
    destruct (is_empty h) eqn:Hh; simpl.
    + unfold pop_empty. rewrite rev_app_distr; simpl.
      destruct (is_empty x); simpl; [| reflexivity].
      rewrite rev_involutive, app_nil_r; reflexivity.
    + unfold pop_empty. simpl rev. rewrite rev_app_distr; simpl.
      destruct (is_empty x); simpl; [| reflexivity].
      rewrite rev_app_distr, rev_involutive; simpl.
      rewrite app_nil_r; reflexivity.
Qed.

(** The lines [run] works on are the non-empty lines of the text. *)
Lemma source_lines_nonempty : forall commands,
  source_lines commands = nonempty_lines commands.
Proof.
  intros commands. unfold source_lines, nonempty_lines, text_lines.
  destruct (split_plus_cons is_newline commands) as [h [t Hp]].
  rewrite <- filter_split_plus, Hp.
  apply strip_inner_nonempty.
  pose proof (proj1 (split_plus_inner is_newline commands)) as Hin.
  rewrite Hp in Hin; exact Hin.
Qed.

(** ** Strings *)

Lemma length_append : forall a b : string,
  String.length (a ++ b) = String.length a + String.length b.
Proof. induction a as [|c a IH]; simpl; intros; [|rewrite IH]; reflexivity. Qed.

Lemma append_assoc : forall a b c : string, (a ++ b) ++ c = a ++ (b ++ c).
Proof. induction a as [|x a IH]; simpl; intros; [|rewrite IH]; reflexivity. Qed.

Lemma length_repeat_char : forall c k, String.length (repeat_char c k) = k.
Proof. induction k as [|k IH]; simpl; [|rewrite IH]; reflexivity. Qed.

Lemma length_padStart : forall s width,
  String.length s <= width -> String.length (padStart s width) = width.
Proof.
  intros s width H. unfold padStart.
  rewrite length_append, length_repeat_char. lia.
Qed.

(** ** Hexadecimal addresses *)

Lemma to_hex_length : forall fuel (w : nat) n acc,
  1 <= w -> (n < 16 ^ N.of_nat w)%N ->
  String.length (to_hex fuel n acc) <= w + String.length acc.
Proof.
  induction fuel as [|fuel IH]; intros w n acc Hw Hn; simpl; [lia|].
  destruct (n / 16 =? 0)%N eqn:Hq; simpl; [lia|].
  apply N.eqb_neq in Hq.
  destruct w as [|[|w']]; [lia | |].
  - exfalso. apply Hq. apply N.div_small. exact Hn.
  - specialize (IH (S w') (n / 16)%N
                  (String (hex_digit (n mod 16)) acc)).
    simpl String.length in IH.
    assert (n / 16 < 16 ^ N.of_nat (S w'))%N.
    { apply N.Div0.div_lt_upper_bound.
      replace (N.of_nat (S (S w'))) with (N.succ (N.of_nat (S w'))) in Hn
        by lia.
      rewrite N.pow_succ_r' in Hn. exact Hn. }
    specialize (IH ltac:(lia) H). lia.
Qed.

Lemma toString16_length : forall (w : nat) n,
  1 <= w -> (n < 16 ^ N.of_nat w)%N -> String.length (toString16 n) <= w.
Proof.
  intros w n Hw Hn. unfold toString16.
  pose proof (to_hex_length (S (N.to_nat (N.log2 n))) w n "" Hw Hn) as H.
  change (String.length "") with 0 in H. lia.
Qed.

Lemma pow16_pow2 : forall w : N, (16 ^ w = 2 ^ (4 * w))%N.
Proof. intros w. rewrite N.pow_mul_r. reflexivity. Qed.

(** [ceil_log16] is the ceiling of the logarithm to the base 16. *)
Lemma ceil_log16_spec : forall x : N, is_ceil_log16 x (ceil_log16 x).
Proof.
  intros x. unfold is_ceil_log16, ceil_log16.
  set (L := N.log2_up x).
  assert (HL : (L <= 4 * ((L + 3) / 4))%N).
  { pose proof (N.div_mod (L + 3) 4 ltac:(lia)).
    pose proof (N.mod_lt (L + 3) 4 ltac:(lia)). lia. }
  assert (HU : (4 * ((L + 3) / 4) <= L + 3)%N).
  { apply N.Div0.mul_div_le. }
  destruct (N.le_gt_cases x 1) as [Hx | Hx].
  - assert (L = 0%N) by (apply N.log2_up_eqn0; exact Hx).
    replace ((L + 3) / 4)%N with 0%N by (rewrite H; reflexivity).
    split; [simpl; lia | left; reflexivity].
  - destruct (N.log2_up_spec x Hx) as [Hlo Hhi]. fold L in Hlo, Hhi.
    split.
    + rewrite pow16_pow2.
      apply N.le_trans with (2 ^ L)%N; [exact Hhi|].
      apply N.pow_le_mono_r; lia.
    + right. rewrite pow16_pow2.
      apply N.le_lt_trans with (2 ^ N.pred L)%N; [| exact Hlo].
      apply N.pow_le_mono_r; lia.
Qed.

Lemma ceil_log16_pos : forall n : nat,
  1 <= n -> (1 <= ceil_log16 (N.of_nat (n * 4)))%N.
Proof.
  intros n Hn.
  destruct (ceil_log16_spec (N.of_nat (n * 4))) as [Hle _].
  destruct (ceil_log16 (N.of_nat (n * 4))) eqn:E; [| lia].
  simpl in Hle. lia.
Qed.

(** Every address below the total byte count fits the padding width. *)
Lemma address_fits : forall n k : nat,
  k < n ->
  String.length (toString16 (N.of_nat (k * 4)))
  <= N.to_nat (ceil_log16 (N.of_nat (n * 4))).
Proof.
  intros n k Hk.
  pose proof (ceil_log16_pos n ltac:(lia)) as Hpos.
  destruct (ceil_log16_spec (N.of_nat (n * 4))) as [Hle _].
  apply toString16_length; [lia|].
  rewrite N2Nat.id. lia.
Qed.

Lemma digit_value_hex_digit : forall d : N,
  (d < 16)%N -> digit_value 16 (hex_digit d) = Some d.
Proof.
  intros d Hd.
  assert (Hall :
    forallb (fun x => match digit_value 16 (hex_digit x) with
                      | Some v => N.eqb v x
                      | None => false
                      end) (map N.of_nat (seq 0 16)) = true)
    by (vm_compute; reflexivity).
  rewrite forallb_forall in Hall. specialize (Hall d).
  assert (Hin : In d (map N.of_nat (seq 0 16))).
  { rewrite <- (N2Nat.id d). apply in_map, in_seq. lia. }
  specialize (Hall Hin).
  destruct (digit_value 16 (hex_digit d)) as [v|]; [| discriminate].
  apply N.eqb_eq in Hall. congruence.
Qed.

Lemma digits_value_app radix : forall s t acc,
  Text.digits_value radix (s ++ t) acc
  = match Text.digits_value radix s acc with
    | Some v => Text.digits_value radix t v
    | None => None
    end.
Proof.
  induction s as [|c s IH]; intros t acc; simpl; [reflexivity|].
  destruct (digit_value radix c); [apply IH | reflexivity].
Qed.

Lemma to_hex_acc : forall fuel n acc,
  to_hex fuel n acc = to_hex fuel n "" ++ acc.
Proof.
  induction fuel as [|fuel IH]; intros n acc; simpl; [reflexivity|].
  destruct (n / 16 =? 0)%N; [reflexivity|].
  rewrite (IH _ (String _ acc)), (IH _ (String _ "")), append_assoc.
  reflexivity.
Qed.

(** With enough fuel the digits of [to_hex] have the value of the number. *)
Lemma to_hex_value : forall fuel n acc,
  (n < 16 ^ N.of_nat fuel)%N ->
  Text.digits_value 16 (to_hex fuel n "") acc
  = Some (acc * 16 ^ N.of_nat (String.length (to_hex fuel n "")) + n)%N.
Proof.
  induction fuel as [|fuel IH]; intros n acc Hn.
  - simpl in *. f_equal. lia.
  - simpl to_hex.
    assert (Hd : (n mod 16 < 16)%N) by (apply N.mod_lt; lia).
    pose proof (N.div_mod n 16 ltac:(lia)) as Hdm.
    destruct (n / 16 =? 0)%N eqn:Hq.
    + apply N.eqb_eq in Hq. simpl.
      rewrite (digit_value_hex_digit _ Hd). f_equal. lia.
    + rewrite to_hex_acc, digits_value_app.
      assert (Hlt : (n / 16 < 16 ^ N.of_nat fuel)%N).
      { apply N.Div0.div_lt_upper_bound.
        replace (N.of_nat (S fuel)) with (N.succ (N.of_nat fuel)) in Hn by lia.
        rewrite N.pow_succ_r' in Hn. exact Hn. }
      rewrite (IH _ acc Hlt). simpl Text.digits_value.
      rewrite (digit_value_hex_digit _ Hd). f_equal.
      rewrite length_append. simpl String.length.
      replace (N.of_nat (String.length (to_hex fuel (n / 16) "") + 1))
        with (N.succ (N.of_nat (String.length (to_hex fuel (n / 16) ""))))
        by lia.
      rewrite N.pow_succ_r'. lia.
Qed.

Lemma toString16_value : forall n : N,
  Text.digits_value 16 (toString16 n) 0 = Some n.
Proof.
  intros n. unfold toString16. rewrite to_hex_value; [f_equal; lia|].
  set (k := N.to_nat (N.log2 n)).
  assert (Hlt : (n < 2 ^ N.of_nat (S k))%N).
  { destruct n as [|p]; [subst k; reflexivity|].
    subst k. rewrite Nat2N.inj_succ, N2Nat.id.
    apply N.log2_spec. lia. }
  apply N.lt_le_trans with (1 := Hlt).
  apply N.pow_le_mono_l. lia.
Qed.

Lemma digits_value_zeros : forall k s,
  Text.digits_value 16 (repeat_char "0" k ++ s) 0
  = Text.digits_value 16 s 0.
Proof. induction k as [|k IH]; intros s; simpl; auto. Qed.

Lemma address_text_column : forall n k : nat,
  k < n ->
  address_column (N.to_nat (ceil_log16 (N.of_nat (n * 4))))
    (N.of_nat (k * 4))
    (address_text (ceil_log16 (N.of_nat (n * 4))) k).
Proof.
  intros n k Hk. unfold address_column, address_text.
  exists (padStart (toString16 (N.of_nat (k * 4)))
            (N.to_nat (ceil_log16 (N.of_nat (n * 4))))).
  split; [reflexivity|].
  split; [apply length_padStart, address_fits, Hk|].
  split; [| reflexivity].
  unfold padStart. rewrite digits_value_zeros. apply toString16_value.
Qed.

(** ** The loop of [Encode.run] *)

Section EncodeLoop.

Variable Instruction : EncodeCodec.

Lemma Encode_loop_cons args al i text rest b log :
  Encode.loop Instruction args al i (text :: rest) b log
  = match Instruction text (isa args) with
    | Normal e =>
        Encode.loop Instruction args al (S i) rest
          (Encode.push_inst b (of_encoded e)
             (Encode.output_line args al i text (of_encoded e)))
          (log ++ [text])%list
    | Throw message =>
        if ignoreIllegal args then
          Encode.loop Instruction args al (S i) rest
            (Encode.push_inst b fill_without_bin
               (Encode.output_line args al i text fill_without_bin))
            (log ++ [text])%list
        else ((log ++ [text])%list, Err (ErrorAtLine (Some (i + 1)) message))
    end.
Proof.
  simpl. unfold bind, Encode.encode_line, bind, construct.
  destruct (Instruction text (isa args)); [reflexivity|].
  destruct (ignoreIllegal args); reflexivity.
Qed.

(** What a completed loop has pushed. *)
Lemma Encode_loop_spec args al : forall rest i b log log' b',
  Encode.loop Instruction args al i rest b log = (log', Ok b') ->
  exists vs,
    slots_from (fun _ => slot_of Instruction args fill_without_bin) i rest vs
    /\ log' = (log ++ rest)%list
    /\ instBytes b'
       = (instBytes b ++ flat_map (fun v => Hex.fromHex (inst_hex v)) vs)%list
    /\ lines b'
       = (lines b ++ output_from (Encode.output_line args al) i rest vs)%list.
Proof.
  induction rest as [|text rest IH]; intros i b log log' b' H.
  - inversion H; subst. exists []. simpl. rewrite !app_nil_r. auto.
  - rewrite Encode_loop_cons in H.
    destruct (Instruction text (isa args)) as [e | message] eqn:Hc.
    + apply IH in H. destruct H as [vs [Hs [Hl [Hb Ho]]]].
      exists (of_encoded e :: vs). simpl.
      unfold slot_of at 1. rewrite Hc.
      repeat split; try assumption.
      * rewrite Hl, <- app_assoc. reflexivity.
      * rewrite Hb. simpl. rewrite <- app_assoc. reflexivity.
      * rewrite Ho. simpl.
        destruct (Encode.output_line args al i text (of_encoded e));
          simpl; [rewrite <- app_assoc|]; reflexivity.
    + destruct (ignoreIllegal args) eqn:Hi; [| discriminate].
      apply IH in H. destruct H as [vs [Hs [Hl [Hb Ho]]]].
      exists (fill_without_bin :: vs). simpl.
      unfold slot_of at 1. rewrite Hc.
      repeat split; try assumption.
      * rewrite Hl, <- app_assoc. reflexivity.
      * rewrite Hb. simpl. rewrite <- app_assoc. reflexivity.
      * rewrite Ho. simpl.
        destruct (Encode.output_line args al i text fill_without_bin);
          simpl; [rewrite <- app_assoc|]; reflexivity.
Qed.

(** With illegal instructions ignored the loop reaches every line. *)
Lemma Encode_loop_total args al : forall rest i b log,
  ignoreIllegal args = true ->
  exists b',
    Encode.loop Instruction args al i rest b log = ((log ++ rest)%list, Ok b').
Proof.
  induction rest as [|text rest IH]; intros i b log Hi.
  - exists b. simpl. rewrite app_nil_r. reflexivity.
  - rewrite Encode_loop_cons, Hi.
    destruct (Instruction text (isa args)) as [e | message];
      match goal with
      | |- context [Encode.loop _ _ _ ?i' rest ?b1 ?l1] =>
          destruct (IH i' b1 l1 Hi) as [b' Hb']; exists b'; rewrite Hb'
      end; rewrite <- app_assoc; reflexivity.
Qed.

(** The loop stops at the first line the codec refuses. *)
Lemma Encode_loop_error args al : forall rest i b log log' e,
  Encode.loop Instruction args al i rest b log = (log', Err e) ->
  exists k text message,
    nth_error rest k = Some text
    /\ Instruction text (isa args) = Throw message
    /\ ignoreIllegal args = false
    /\ e = ErrorAtLine (Some (i + k + 1)) message
    /\ log' = (log ++ firstn (S k) rest)%list.
Proof.
  induction rest as [|text rest IH]; intros i b log log' e H.
  - discriminate.
  - rewrite Encode_loop_cons in H.
    destruct (Instruction text (isa args)) as [enc | message] eqn:Hc.
    + apply IH in H. destruct H as [k [t [m [Hn [Ht [Hi [He Hl]]]]]]].
      exists (S k), t, m. simpl. repeat split; try assumption.
      * rewrite He. f_equal. f_equal. lia.
      * rewrite Hl, <- app_assoc. reflexivity.
    + destruct (ignoreIllegal args) eqn:Hi.
      * apply IH in H. destruct H as [k [t [m [Hn [Ht [Hi' [He Hl]]]]]]].
        discriminate.
      * inversion H; subst. exists 0, text, message. simpl.
        repeat split; try assumption. f_equal. f_equal. lia.
Qed.

End EncodeLoop.

(** ** The loop of [EncodeLabels.run] *)

Section EncodeLabelsLoop.

Variable Instruction : EncodeCodec.

Lemma EncodeLabels_loop_cons args p inv al i text rest b log :
  EncodeLabels.loop Instruction args p inv al i (text :: rest) b log
  = match EncodeLabels.deref text (EncodeLabels.refList p)
            (EncodeLabels.line_of (EncodeLabels.lineMap p) i) (i * 4) with
    | Err e => (log, Err e)
    | Ok text' =>
        match Instruction text' (isa args) with
        | Normal e =>
            EncodeLabels.loop Instruction args p inv al (S i) rest
              (Encode.push_inst b (of_encoded e)
                 (EncodeLabels.output_line args inv al i text (of_encoded e)))
              (log ++ [text'])%list
        | Throw message =>
            if ignoreIllegal args then
              EncodeLabels.loop Instruction args p inv al (S i) rest
                (Encode.push_inst b fill_with_bin
                   (EncodeLabels.output_line args inv al i text fill_with_bin))
                (log ++ [text'])%list
            else ((log ++ [text'])%list,
                  Err (ErrorAtLine
                         (EncodeLabels.line_of (EncodeLabels.lineMap p) i)
                         message))
        end
    end.
Proof.
  simpl. unfold bind, EncodeLabels.encode_line, bind, lift, construct.
  destruct (EncodeLabels.deref text _ _ _); [| reflexivity].
  destruct (Instruction value (isa args)); [reflexivity|].
  destruct (ignoreIllegal args); reflexivity.
Qed.

Lemma EncodeLabels_loop_spec args p inv al : forall rest i b log log' b',
  EncodeLabels.loop Instruction args p inv al i rest b log = (log', Ok b') ->
  exists vs,
    slots_from (resolved_slot Instruction args p) i rest vs
    /\ instBytes b'
       = (instBytes b ++ flat_map (fun v => Hex.fromHex (inst_hex v)) vs)%list
    /\ lines b'
       = (lines b
          ++ output_from (EncodeLabels.output_line args inv al) i rest vs)%list.
Proof.
  induction rest as [|text rest IH]; intros i b log log' b' H.
  - inversion H; subst. exists []. simpl. rewrite !app_nil_r. auto.
  - rewrite EncodeLabels_loop_cons in H.
    destruct (EncodeLabels.deref text _ _ _) as [text' | err] eqn:Hd;
      [| discriminate].
    destruct (Instruction text' (isa args)) as [e | message] eqn:Hc.
    + apply IH in H. destruct H as [vs [Hs [Hb Ho]]].
      exists (of_encoded e :: vs). simpl.
      split; [split; [| assumption] |].
      * exists text'. split; [assumption|]. unfold slot_of. rewrite Hc.
        reflexivity.
      * split.
        -- rewrite Hb. simpl. rewrite <- app_assoc. reflexivity.
        -- rewrite Ho. simpl.
           destruct (EncodeLabels.output_line args inv al i text
                       (of_encoded e));
             simpl; [rewrite <- app_assoc|]; reflexivity.
    + destruct (ignoreIllegal args) eqn:Hi; [| discriminate].
      apply IH in H. destruct H as [vs [Hs [Hb Ho]]].
      exists (fill_with_bin :: vs). simpl.
      split; [split; [| assumption] |].
      * exists text'. split; [assumption|]. unfold slot_of. rewrite Hc.
        auto.
      * split.
        -- rewrite Hb. simpl. rewrite <- app_assoc. reflexivity.
        -- rewrite Ho. simpl.
           destruct (EncodeLabels.output_line args inv al i text
                       fill_with_bin);
             simpl; [rewrite <- app_assoc|]; reflexivity.
Qed.

End EncodeLabelsLoop.

(** ** Lines pushed outside raw mode *)

Lemma slots_from_length rel : forall rest i vs,
  slots_from rel i rest vs -> List.length vs = List.length rest.
Proof.
  induction rest as [|t r IH]; intros i [|v vs] H; simpl in *;
    try contradiction; [reflexivity|].
  f_equal. apply (IH (S i)). apply H.
Qed.

Lemma output_from_nth out : forall rest i vs k,
  (forall j t v, out j t v <> None) ->
  List.length vs = List.length rest ->
  nth_error (output_from out i rest vs) k
  = match nth_error rest k, nth_error vs k with
    | Some t, Some v =>
        match out (i + k) t v with Some l => Some l | None => None end
    | _, _ => None
    end.
Proof.
  induction rest as [|t r IH]; intros i [|v vs] k Hsome Hlen;
    simpl in *; try discriminate.
  - destruct k; reflexivity.
  - specialize (Hsome i t v) as Hitv.
    destruct (out i t v) as [l|] eqn:Ho; [| congruence].
    destruct k as [|k]; simpl.
    + rewrite Nat.add_0_r, Ho. reflexivity.
    + rewrite IH by (auto; lia).
      replace (S i + k) with (i + S k) by lia. reflexivity.
Qed.

Lemma output_from_length out : forall rest i vs,
  (forall j t v, out j t v <> None) ->
  List.length vs = List.length rest ->
  List.length (output_from out i rest vs) = List.length rest.
Proof.
  induction rest as [|t r IH]; intros i [|v vs] Hsome Hlen;
    simpl in *; try discriminate; [reflexivity|].
  specialize (Hsome i t v) as Hitv.
  destruct (out i t v) as [l|]; [| congruence].
  simpl. f_equal. apply IH; auto; lia.
Qed.

(** ** Whole runs *)

Section Runs.

Variable Instruction : EncodeCodec.

(** What a successful run of [Encode.run] returns. *)
Lemma Encode_run_ok commands args bytes :
  outcome (Encode.run Instruction commands args) = Ok bytes ->
  let insts := source_lines commands in
  let al := ceil_log16 (N.of_nat (List.length insts * 4)) in
  exists vs,
    slots_from (fun _ => slot_of Instruction args fill_without_bin) 0 insts vs
    /\ bytes
       = match outputMode args with
         | RawBytes => flat_map (fun v => Hex.fromHex (inst_hex v)) vs
         | _ => Utils.strToByteArray
                  (join nl (output_from (Encode.output_line args al) 0 insts vs))
         end.
Proof.
  intros H insts al. unfold outcome, Encode.run, bind in H.
  fold insts in H. fold al in H.
  destruct (Encode.loop Instruction args al 0 insts no_buffers [])
    as [log' [b' | e]] eqn:Hloop; [| discriminate].
  apply Encode_loop_spec in Hloop.
  destruct Hloop as [vs [Hs [_ [Hb Ho]]]].
  exists vs. split; [assumption|]. simpl in Hb, Ho.
  destruct (outputMode args); inversion H; subst; congruence.
Qed.

(** What a successful run of [EncodeLabels.run] returns. *)
Lemma EncodeLabels_run_ok commands args bytes :
  outcome (EncodeLabels.run Instruction commands args) = Ok bytes ->
  exists p vs,
    EncodeLabels.parseRef commands = Ok p
    /\ slots_from (resolved_slot Instruction args p) 0
         (EncodeLabels.insts p) vs
    /\ bytes
       = match outputMode args with
         | RawBytes => flat_map (fun v => Hex.fromHex (inst_hex v)) vs
         | _ =>
             Utils.strToByteArray
               (join nl
                  (output_from
                     (EncodeLabels.output_line args
                        (EncodeLabels.invRef (EncodeLabels.refList p))
                        (ceil_log16
                           (N.of_nat (List.length (EncodeLabels.insts p) * 4))))
                     0 (EncodeLabels.insts p) vs))
         end.
Proof.
  unfold outcome, EncodeLabels.run, bind, lift. intros H.
  destruct (EncodeLabels.parseRef commands) as [p | e] eqn:Hp;
    [| discriminate].
  simpl in H.
  match type of H with
  | context [EncodeLabels.loop ?a ?b ?c ?d ?e ?f ?g ?h ?i] =>
      destruct (EncodeLabels.loop a b c d e f g h i)
        as [log' [b' | err]] eqn:Hloop; [| discriminate]
  end.
  apply EncodeLabels_loop_spec in Hloop.
  destruct Hloop as [vs [Hs [Hb Ho]]].
  exists p, vs. split; [reflexivity|]. split; [assumption|].
  simpl in Hb, Ho.
  destruct (outputMode args); inversion H; subst; congruence.
Qed.

Lemma slot_bytes_flat_map args : forall rest i vs,
  slots_from (fun _ => slot_of Instruction args fill_without_bin) i rest vs ->
  flat_map (fun v => Hex.fromHex (inst_hex v)) vs
  = flat_map (slot_bytes Instruction (isa args)) rest.
Proof.
  induction rest as [|t r IH]; intros i [|v vs] H; simpl in *;
    try contradiction; [reflexivity|].
  destruct H as [Hv Hr]. rewrite (IH _ _ Hr). f_equal.
  unfold slot_of in Hv. unfold slot_bytes.
  destruct (Instruction t (isa args)).
  - subst v. reflexivity.
  - destruct Hv as [_ ->]. reflexivity.
Qed.

End Runs.

(** ** Address columns *)

Lemma Encode_output_line_addressed args al :
  outputMode args <> RawBytes -> showAddr args = true ->
  forall j t v, exists rest,
    Encode.output_line args al j t v
    = Some (Some (address_text al j ++ ": " ++ rest)).
Proof.
  intros Hm Ha j t v. unfold Encode.output_line. rewrite Ha. simpl.
  destruct (outputMode args); [congruence | |];
    destruct (showInput args); eauto.
Qed.

Lemma EncodeLabels_output_line_addressed args inv al :
  outputMode args <> RawBytes -> showAddr args = true ->
  forall j t v, exists rest,
    EncodeLabels.output_line args inv al j t v
    = Some (Some (address_text al j ++ ": " ++ rest)).
Proof.
  intros Hm Ha j t v. unfold EncodeLabels.output_line. rewrite Ha. simpl.
  destruct (outputMode args); [congruence | |];
    destruct (showInput args); eauto.
Qed.

(** Lines that start with their address have an address column of the
    padding width. *)
Lemma addressed_lines out rest vs :
  let al := ceil_log16 (N.of_nat (List.length rest * 4)) in
  (forall j t v, exists r,
      out j t v = Some (Some (address_text al j ++ ": " ++ r))) ->
  List.length vs = List.length rest ->
  List.length (output_from out 0 rest vs) = List.length rest
  /\ forall k l,
       nth_error (output_from out 0 rest vs) k = Some l ->
       exists column r,
         l = Some (column ++ ": " ++ r)
         /\ address_column (N.to_nat al) (N.of_nat (k * 4)) column.
Proof.
  intros al Hout Hlen.
  assert (Hsome : forall j t v, out j t v <> None).
  { intros j t v. destruct (Hout j t v) as [r ->]. discriminate. }
  split; [apply output_from_length; assumption|].
  intros k l Hk. rewrite output_from_nth in Hk by assumption.
  destruct (nth_error rest k) as [t|] eqn:Ht; [| discriminate].
  destruct (nth_error vs k) as [v|]; [| discriminate].
  simpl in Hk. destruct (Hout k t v) as [r Hr]. rewrite Hr in Hk.
  inversion Hk; subst l.
  exists (address_text al k), r. split; [reflexivity|].
  apply address_text_column.
  apply nth_error_Some. congruence.
Qed.

(** ** Four bytes a slot *)

Lemma fromHex_length : forall (k : nat) (s : string),
  String.length s = 2 * k -> all_hex s = true ->
  List.length (Hex.fromHex s) = k.
Proof.
  induction k as [|k IH]; intros s Hl Hh.
  - destruct s; [reflexivity | discriminate].
  - destruct s as [|a [|b r]]; simpl in Hl; try lia.
    simpl in Hh. simpl.
    destruct (digit_value 16 a); [| discriminate].
    destruct (digit_value 16 b); [| discriminate].
    simpl. f_equal. apply IH; [lia | exact Hh].
Qed.

Lemma eight_hex_digits_bytes s :
  eight_hex_digits s -> List.length (Hex.fromHex s) = 4.
Proof. intros [Hl Hh]. apply fromHex_length; assumption. Qed.

Lemma slot_bytes_length Instruction isa text :
  hex_words Instruction ->
  List.length (slot_bytes Instruction isa text) = 4.
Proof.
  intros Hw. unfold slot_bytes.
  destruct (Instruction text isa) as [e|] eqn:E; [| reflexivity].
  apply eight_hex_digits_bytes, (Hw _ _ _ E).
Qed.

(** In a concatenation of pieces of one length the k-th piece sits at
    offset [k] times that length. *)
Lemma flat_map_slot {A B} (f : A -> list B) (c : nat) : forall l,
  (forall x, In x l -> List.length (f x) = c) ->
  List.length (flat_map f l) = List.length l * c
  /\ forall k x, nth_error l k = Some x ->
                 firstn c (skipn (k * c) (flat_map f l)) = f x.
Proof.
  induction l as [|a l IH]; intros Hc.
  - split; [reflexivity|]. intros [|k] x H; discriminate.
  - destruct (IH (fun x Hx => Hc x (or_intror Hx))) as [Hlen Hk].
    pose proof (Hc a (or_introl eq_refl)) as Ha.
    split.
    + simpl. rewrite length_app, Hlen, Ha. reflexivity.
    + intros [|k] x Hx; simpl in Hx.
      * inversion Hx; subst x. simpl.
        rewrite firstn_app, <- Ha, firstn_all, Nat.sub_diag. simpl.
        apply app_nil_r.
      * simpl. rewrite skipn_app, Ha.
        rewrite (skipn_all2 (f a)) by (rewrite Ha; lia).
        replace (c + k * c - c) with (k * c) by lia.
        apply Hk, Hx.
Qed.

Lemma slots_from_In rel : forall rest i vs v,
  slots_from rel i rest vs -> In v vs -> exists j t, rel j t v.
Proof.
  induction rest as [|t r IH]; intros i [|v0 vs] v H Hin; simpl in *;
    try contradiction.
  destruct H as [H0 Hr]. destruct Hin as [-> | Hin]; eauto.
Qed.

Lemma resolved_slot_bytes Instruction args p j t v :
  hex_words Instruction ->
  resolved_slot Instruction args p j t v ->
  List.length (Hex.fromHex (inst_hex v)) = 4.
Proof.
  intros Hw [t' [_ Hs]]. unfold slot_of in Hs.
  destruct (Instruction t' (isa args)) as [e|] eqn:E.
  - subst v. apply eight_hex_digits_bytes, (Hw _ _ _ E).
  - destruct Hs as [_ ->]. reflexivity.
Qed.

(** ** Raw output does not depend on the display flags *)

Lemma Encode_loop_raw Instruction isa ign sa si sa' si' al al' :
  forall rest i b log,
    Encode.loop Instruction (mkArgs isa RawBytes ign sa si) al i rest b log
    = Encode.loop Instruction (mkArgs isa RawBytes ign sa' si') al' i rest b log.
Proof.
  induction rest as [|text rest IH]; intros i b log; [reflexivity|].
  rewrite !Encode_loop_cons. simpl.
  destruct (Instruction text isa); [apply IH|].
  destruct ign; [apply IH | reflexivity].
Qed.

Lemma EncodeLabels_loop_raw Instruction isa ign sa si sa' si' p inv al al' :
  forall rest i b log,
    EncodeLabels.loop Instruction (mkArgs isa RawBytes ign sa si) p inv al
      i rest b log
    = EncodeLabels.loop Instruction (mkArgs isa RawBytes ign sa' si') p inv al'
        i rest b log.
Proof.
  induction rest as [|text rest IH]; intros i b log; [reflexivity|].
  rewrite !EncodeLabels_loop_cons. simpl.
  destruct (EncodeLabels.deref text _ _ _) as [text'|]; [| reflexivity].
  destruct (Instruction text' isa); [apply IH|].
  destruct ign; [apply IH | reflexivity].
Qed.

(** * The properties of the specification *)

(** C7: for every byte array whose length is not a multiple of 4,
    [Decode.run] throws the misaligned-input error, and it does so before
    any slot is handed to the codec: no prefix is decoded. *)
Theorem C7_misaligned_input :
  forall (Instruction : DecodeCodec) (bytes : list N) (args : Decode.Args),
    List.length bytes mod 4 <> 0 ->
    Decode.run Instruction bytes args [] = ([], Err MisalignedInput).
Proof.
  intros Instruction bytes args H. unfold Decode.run.
  destruct (Nat.eqb (List.length bytes mod 4) 0) eqn:E.
  - apply Nat.eqb_eq in E. contradiction.
  - reflexivity.
Qed.

Lemma C7_misaligned_input_witness :
  Decode.run Disassemble [19; 0; 0]%N
    (Decode.mkArgs AUTO false false false false true) []
  = ([], Err MisalignedInput).
Proof.
  apply (C7_misaligned_input Disassemble [19; 0; 0]%N).
  simpl. discriminate.
Defined.

(** C8: in raw mode the result of [run] is the concatenation, in line
    order, of the bytes of each instruction's hex digits (those of the fill
    pattern for an ignored line), and it is the same for every setting of
    the show-address and show-input flags.  When the codec gives eight hex
    digits an instruction, instruction [k] holds the 4 bytes at offset
    [4 * k].  Stated for [Encode.run] and for the label-supporting
    [EncodeLabels.run], whose codec input is the line with its label
    resolved. *)
Theorem C8_raw_bytes_ignore_flags :
  forall (Instruction : EncodeCodec) (commands : string) (width : ISA)
         (ign sa si sa' si' : bool),
    let args := mkArgs width RawBytes ign sa si in
    let args' := mkArgs width RawBytes ign sa' si' in
    (forall log,
        Encode.run Instruction commands args log
        = Encode.run Instruction commands args' log)
    /\ (forall bytes,
           outcome (Encode.run Instruction commands args) = Ok bytes ->
           bytes = flat_map (slot_bytes Instruction width) (source_lines commands)
           /\ (hex_words Instruction ->
               List.length bytes = List.length (source_lines commands) * 4
               /\ forall k text,
                    nth_error (source_lines commands) k = Some text ->
                    firstn 4 (skipn (k * 4) bytes)
                    = slot_bytes Instruction width text))
    /\ (forall log,
           EncodeLabels.run Instruction commands args log
           = EncodeLabels.run Instruction commands args' log)
    /\ (forall bytes,
           outcome (EncodeLabels.run Instruction commands args) = Ok bytes ->
           exists p vs,
             EncodeLabels.parseRef commands = Ok p
             /\ slots_from (resolved_slot Instruction args p) 0
                  (EncodeLabels.insts p) vs
             /\ bytes = flat_map (fun v => Hex.fromHex (inst_hex v)) vs
             /\ (hex_words Instruction ->
                 List.length bytes = List.length (EncodeLabels.insts p) * 4
                 /\ forall k v,
                      nth_error vs k = Some v ->
                      firstn 4 (skipn (k * 4) bytes)
                      = Hex.fromHex (inst_hex v))).
Proof.
  intros Instruction commands width ign sa si sa' si' args args'.
  split; [| split; [| split]].
  - intros log. unfold Encode.run, bind, args, args'.
    erewrite (Encode_loop_raw Instruction width ign sa si sa' si'). reflexivity.
  - intros bytes H. apply Encode_run_ok in H. destruct H as [vs [Hs Hb]].
    simpl in Hb. subst bytes.
    rewrite (slot_bytes_flat_map Instruction args _ _ _ Hs).
    split; [reflexivity|]. intros Hw.
    apply flat_map_slot. intros x _. apply slot_bytes_length, Hw.
  - intros log. unfold EncodeLabels.run, bind, lift, args, args'.
    destruct (EncodeLabels.parseRef commands) as [p|]; [| reflexivity].
    erewrite (EncodeLabels_loop_raw Instruction width ign sa si sa' si').
    reflexivity.
  - intros bytes H. apply EncodeLabels_run_ok in H.
    destruct H as [p [vs [Hp [Hs Hb]]]]. exists p, vs.
    simpl in Hb. split; [assumption|]. split; [assumption|].
    split; [assumption|]. intros Hw. subst bytes.
    rewrite <- (slots_from_length _ _ _ _ Hs).
    apply flat_map_slot. intros v Hv.
    destruct (slots_from_In _ _ _ _ _ Hs Hv) as [j [t Hr]].
    apply (resolved_slot_bytes _ _ _ _ _ _ Hw Hr).
Qed.

(** C4: in the textual modes with show-address set, the line of the k-th
    instruction starts with [0x] and the hexadecimal address [4 * k],
    zero-padded to exactly [w] digits, [w] being the ceiling of the
    logarithm to the base 16 of 4 times the number of instructions.  Stated
    for [Encode.run] and for [EncodeLabels.run]. *)
Theorem C4_address_prefix :
  forall (Instruction : EncodeCodec) (commands : string) (args : Args),
    outputMode args <> RawBytes ->
    showAddr args = true ->
    (forall bytes,
        outcome (Encode.run Instruction commands args) = Ok bytes ->
        addressed_output (List.length (source_lines commands)) bytes)
    /\ (forall bytes,
           outcome (EncodeLabels.run Instruction commands args) = Ok bytes ->
           exists p,
             EncodeLabels.parseRef commands = Ok p
             /\ addressed_output (List.length (EncodeLabels.insts p)) bytes).
Proof.
  intros Instruction commands args Hm Ha. split.
  - intros bytes H. split; [apply ceil_log16_spec|].
    apply Encode_run_ok in H. destruct H as [vs [Hs Hb]].
    pose proof (slots_from_length _ _ _ _ Hs) as Hlen.
    destruct (addressed_lines (Encode.output_line args _)
                (source_lines commands) vs
                (Encode_output_line_addressed args _ Hm Ha) Hlen)
      as [Hl Hk].
    eexists. split; [| split; [exact Hl | exact Hk]].
    subst bytes. destruct (outputMode args); [congruence | |]; reflexivity.
  - intros bytes H. apply EncodeLabels_run_ok in H.
    destruct H as [p [vs [Hp [Hs Hb]]]]. exists p. split; [assumption|].
    split; [apply ceil_log16_spec|].
    pose proof (slots_from_length _ _ _ _ Hs) as Hlen.
    destruct (addressed_lines
                (EncodeLabels.output_line args
                   (EncodeLabels.invRef (EncodeLabels.refList p)) _)
                (EncodeLabels.insts p) vs
                (EncodeLabels_output_line_addressed args _ _ Hm Ha) Hlen)
      as [Hl Hk].
    eexists. split; [| split; [exact Hl | exact Hk]].
    subst bytes. destruct (outputMode args); [congruence | |]; reflexivity.
Qed.

Lemma C4_address_prefix_witness :
  addressed_output 2
    (Utils.strToByteArray ("0x0: 00108093" ++ nl ++ "0x4: fe208ee3")).
Proof.
  apply (proj1 (C4_address_prefix Text.Instruction
                  ("addi x1, x1, 1" ++ nl ++ "beq x1, x2, -4")
                  (mkArgs AUTO HexString false true false)
                  ltac:(discriminate) eq_refl)).
  vm_compute. reflexivity.
Defined.

(** ** Blank lines *)

Lemma only_newlines_no_lines : forall commands,
  only_newlines commands = true -> nonempty_lines commands = [].
Proof.
  unfold nonempty_lines, text_lines.
  induction commands as [|c r IH]; simpl; intros H; [reflexivity|].
  apply andb_prop in H. destruct H as [Hc Hr].
  rewrite Hc. simpl. auto.
Qed.

(** C9: blank lines contribute nothing.  The lines [run] works on are the
    non-empty lines of the text, so two texts with the same non-empty lines
    give the same run; the k-th non-empty line gets the address [4 * k]
    (shown next to its source text when both display flags are set); and a
    text of line feeds only, the empty text included, succeeds with an
    empty byte array in every mode (also in [EncodeLabels.run]). *)
Theorem C9_blank_lines_skipped :
  forall (Instruction : EncodeCodec) (commands : string) (args : Args),
    source_lines commands = nonempty_lines commands
    /\ (forall commands' log,
           nonempty_lines commands' = nonempty_lines commands ->
           Encode.run Instruction commands' args log
           = Encode.run Instruction commands args log)
    /\ (forall bytes,
           outputMode args <> RawBytes ->
           showAddr args = true -> showInput args = true ->
           outcome (Encode.run Instruction commands args) = Ok bytes ->
           exists ls,
             bytes = Utils.strToByteArray (join nl ls)
             /\ forall k text,
                  nth_error (nonempty_lines commands) k = Some text ->
                  exists l,
                    nth_error ls k = Some l
                    /\ annotated_line
                         (N.to_nat
                            (ceil_log16
                               (N.of_nat
                                  (List.length (nonempty_lines commands) * 4))))
                         k text l)
    /\ (only_newlines commands = true ->
        forall log,
          Encode.run Instruction commands args log = (log, Ok [])
          /\ EncodeLabels.run Instruction commands args log = (log, Ok [])).
Proof.
  intros Instruction commands args.
  split; [apply source_lines_nonempty|]. split; [| split].
  - intros commands' log H. unfold Encode.run.
    rewrite !source_lines_nonempty, H. reflexivity.
  - intros bytes Hm Ha Hi H. apply Encode_run_ok in H.
    destruct H as [vs [Hs Hb]].
    pose proof (slots_from_length _ _ _ _ Hs) as Hlen.
    rewrite <- source_lines_nonempty.
    set (al := ceil_log16 (N.of_nat (List.length (source_lines commands) * 4)))
      in *.
    exists (output_from (Encode.output_line args al) 0
              (source_lines commands) vs).
    split.
    { subst bytes. destruct (outputMode args); [congruence | |]; reflexivity. }
    intros k text Hk.
    assert (Hsome : forall j t v, Encode.output_line args al j t v <> None).
    { intros j t v.
      destruct (Encode_output_line_addressed args al Hm Ha j t v) as [r ->].
      discriminate. }
    rewrite output_from_nth by assumption. rewrite Hk.
    assert (Hlt : k < List.length (source_lines commands)).
    { apply nth_error_Some. congruence. }
    destruct (nth_error vs k) as [v|] eqn:Hv.
    2:{ apply nth_error_None in Hv. lia. }
    unfold Encode.output_line. rewrite Ha, Hi.
    destruct (outputMode args); [congruence | |].
    + exists (Some (address_text al k ++ ": " ++ inst_hex v
                    ++ " [ " ++ trim text ++ " ]")).
      split; [reflexivity|].
      exists (address_text al k), (inst_hex v).
      split; [reflexivity | apply address_text_column; exact Hlt].
    + exists (Some (address_text al k ++ ": " ++ interpolate (inst_bin v)
                    ++ " [ " ++ trim text ++ " ]")).
      split; [reflexivity|].
      exists (address_text al k), (interpolate (inst_bin v)).
      split; [reflexivity | apply address_text_column; exact Hlt].
  - intros H log.
    assert (Hl : source_lines commands = []).
    { rewrite source_lines_nonempty. apply only_newlines_no_lines, H. }
    split.
    + unfold Encode.run. rewrite Hl. simpl. unfold bind, ret. simpl.
      destruct (outputMode args); reflexivity.
    + unfold EncodeLabels.run, EncodeLabels.parseRef. rewrite Hl. simpl.
      unfold bind, lift, ret. simpl.
      destruct (outputMode args); reflexivity.
Qed.

Lemma C9_blank_lines_skipped_witness :
  Encode.run Text.Instruction (nl ++ nl ++ nl)
    (mkArgs AUTO BinaryString false true true) []
  = ([], Ok [])
  /\ Encode.run Text.Instruction (nl ++ "addi x1, x1, 1" ++ nl ++ nl ++ "bogus")
       (mkArgs AUTO RawBytes true false false) []
     = Encode.run Text.Instruction ("addi x1, x1, 1" ++ nl ++ "bogus" ++ nl)
         (mkArgs AUTO RawBytes true false false) [].
Proof.
  split.
  - apply (proj2 (proj2 (proj2
      (C9_blank_lines_skipped Text.Instruction (nl ++ nl ++ nl)
         (mkArgs AUTO BinaryString false true true))))).
    reflexivity.
  - apply (proj1 (proj2
      (C9_blank_lines_skipped Text.Instruction
         ("addi x1, x1, 1" ++ nl ++ "bogus" ++ nl)
         (mkArgs AUTO RawBytes true false false)))).
    reflexivity.
Defined.

(** ** Ignored and refused lines *)

(** X1: with illegal instructions ignored [Encode.run] never throws and
    hands every non-empty line to the codec, in order. *)
Lemma Encode_ignore_illegal_total :
  forall (Instruction : EncodeCodec) commands isa mode sa si,
  exists bytes,
    Encode.run Instruction commands (mkArgs isa mode true sa si) []
    = (source_lines commands, Ok bytes).
Proof.
  intros Instruction commands isa mode sa si. unfold Encode.run, bind.
  match goal with
  | |- context [Encode.loop ?I ?a ?al 0 ?r ?b []] =>
      destruct (Encode_loop_total I a al r 0 b [] eq_refl) as [b' Hb']
  end.
  rewrite Hb'. simpl. destruct mode; eexists; reflexivity.
Qed.

(** The line number of the error [Encode.run] throws is the position of
    the refused line among the non-empty lines. *)
Lemma Encode_error_line_index :
  forall (Instruction : EncodeCodec) commands args e,
    outcome (Encode.run Instruction commands args) = Err e ->
    exists k text message,
      nth_error (nonempty_lines commands) k = Some text
      /\ Instruction text (isa args) = Throw message
      /\ e = ErrorAtLine (Some (k + 1)) message.
Proof.
  intros Instruction commands args e H.
  unfold outcome, Encode.run, bind in H.
  match type of H with
  | context [Encode.loop ?I ?a ?al 0 ?r ?b []] =>
      destruct (Encode.loop I a al 0 r b []) as [log' [b' | err]] eqn:Hloop
  end.
  - destruct (outputMode args); discriminate.
  - simpl in H. inversion H; subst err.
    apply Encode_loop_error in Hloop.
    destruct Hloop as [k [t [m [Hn [Ht [_ [He _]]]]]]].
    exists k, t, m. rewrite <- source_lines_nonempty. auto.
Qed.

(** C2: with illegal instructions ignored, a refused line is replaced by
    the fill pattern.  In [Encode.run] the substitute object has the field
    [hex] only: the raw bytes are ff ff ff ff and the hex line is
    [ffffffff], but in binary mode the line is empty (or reads
    [undefined] next to an address) instead of 32 ones.
    [EncodeLabels.run], whose substitute has both fields, gives 32 ones. *)
Theorem C2_fill_pattern_lacks_bin :
  let ignoring mode sa := mkArgs AUTO mode true sa false in
  outcome (Encode.run Text.Instruction "bogus" (ignoring RawBytes false))
  = Ok [255; 255; 255; 255]%N
  /\ outcome (Encode.run Text.Instruction "bogus" (ignoring HexString false))
     = Ok (Utils.strToByteArray "ffffffff")
  /\ outcome (Encode.run Text.Instruction "bogus" (ignoring BinaryString false))
     = Ok []
  /\ outcome (Encode.run Text.Instruction "bogus" (ignoring BinaryString true))
     = Ok (Utils.strToByteArray "0x0: undefined")
  /\ outcome (EncodeLabels.run Text.Instruction "bogus"
                (ignoring BinaryString false))
     = Ok (Utils.strToByteArray "11111111111111111111111111111111").
Proof. vm_compute. repeat split. Qed.

(** C3: without ignore-illegal a refused line makes [run] throw an error
    that carries a line number.  The number counts the non-empty lines:
    here the refused text is on line 3 of the input as supplied, after a
    blank line, and the error says line 2, in [Encode.run] as in
    [EncodeLabels.run]. *)
Theorem C3_line_number_ignores_blank_lines :
  let commands := "addi x1, x1, 1" ++ nl ++ nl ++ "bogus" in
  let args := mkArgs AUTO RawBytes false false false in
  nth_error (text_lines commands) 2 = Some "bogus"
  /\ outcome (Encode.run Text.Instruction commands args)
     = Err (ErrorAtLine (Some 2) "Illegal instruction: unknown mnemonic")
  /\ outcome (EncodeLabels.run Text.Instruction commands args)
     = Err (ErrorAtLine (Some 2) "Illegal instruction: unknown mnemonic").
Proof. vm_compute. repeat split. Qed.

(** C10: in the textual modes the result is the lines of the instructions
    joined by single line feeds.  In [Encode.run] an ignored line has no
    binary text, so in binary mode without display flags its line is
    empty: two instructions give one line followed by a line feed.
    [EncodeLabels.run] gives the two lines. *)
Theorem C10_ignored_line_is_empty :
  let commands := "addi x1, x1, 1" ++ nl ++ "bogus" in
  let args := mkArgs AUTO BinaryString true false false in
  outcome (Encode.run Text.Instruction commands args)
  = Ok (Utils.strToByteArray ("00000000000100001000000010010011" ++ nl))
  /\ outcome (EncodeLabels.run Text.Instruction commands args)
     = Ok (Utils.strToByteArray
             ("00000000000100001000000010010011" ++ nl
              ++ "11111111111111111111111111111111")).
Proof. vm_compute. repeat split. Qed.

(** C5: assembling the loop program.  The label line defines [loop] at
    address 0 and contributes no instruction; the reference in the second
    instruction, at address 4, is rewritten to the offset -4, so the codec
    receives [beq x1 x2 -4] whatever it is; with the codec written from
    the specification the run succeeds and the second word decodes to
    [beq] with the immediate -4. *)
Theorem C5_loop_label_resolved :
  let commands :=
    "loop:" ++ nl ++ "addi x1, x1, 1" ++ nl ++ "beq x1, x2, loop" ++ nl in
  EncodeLabels.parseRef commands
  = Ok {| EncodeLabels.insts := ["addi x1, x1, 1"; "beq x1, x2, loop"];
          EncodeLabels.refList := [("loop", 0)];
          EncodeLabels.lineMap := [(0, 2); (1, 3)] |}
  /\ EncodeLabels.deref "beq x1, x2, loop" [("loop", 0)] (Some 3) 4
     = Ok "beq x1 x2 -4"
  /\ (forall (Instruction : EncodeCodec) width mode sa si,
         calls (EncodeLabels.run Instruction commands (mkArgs width mode true sa si))
         = ["addi x1, x1, 1"; "beq x1 x2 -4"])
  /\ EncodeLabels.run Text.Instruction commands
       (mkArgs AUTO RawBytes false false false) []
     = (["addi x1, x1, 1"; "beq x1 x2 -4"],
        Ok [0; 16; 128; 147; 254; 32; 142; 227]%N)
  /\ Codec.decode 0xfe208ee3%Z AUTO
     = inl ("beq", [Reg 1; Reg 2; Imm (-4)]).
Proof.
  cbv zeta. split; [vm_compute; reflexivity|].
  split; [vm_compute; reflexivity|].
  split; [| split; vm_compute; reflexivity].
  intros Instruction width mode sa si.
  unfold calls, EncodeLabels.run, bind, lift.
  replace (EncodeLabels.parseRef _)
    with (Ok {| EncodeLabels.insts := ["addi x1, x1, 1"; "beq x1, x2, loop"];
                EncodeLabels.refList := [("loop", 0)];
                EncodeLabels.lineMap := [(0, 2); (1, 3)] |})
    by (vm_compute; reflexivity).
  cbv beta iota. cbn [EncodeLabels.insts EncodeLabels.refList EncodeLabels.lineMap].
  rewrite !EncodeLabels_loop_cons.
  replace (EncodeLabels.deref "addi x1, x1, 1" _ _ _)
    with (@Ok string "addi x1, x1, 1") by (vm_compute; reflexivity).
  cbn [isa ignoreIllegal].
  destruct (Instruction "addi x1, x1, 1" width);
    rewrite !EncodeLabels_loop_cons;
    replace (EncodeLabels.deref "beq x1, x2, loop" _ _ _)
      with (@Ok string "beq x1 x2 -4") by (vm_compute; reflexivity);
    cbn [isa ignoreIllegal];
    destruct (Instruction "beq x1 x2 -4" width); simpl;
    destruct mode; reflexivity.
Qed.

(** ** The line-classification pass *)

Lemma includes_trimStart p :
  (forall c, p c = true -> is_space c = false) ->
  forall s, includes p (trimStart s) = includes p s.
Proof.
  intros Hp. induction s as [|c r IH]; simpl; [reflexivity|].
  destruct (is_space c) eqn:Hc; [| reflexivity].
  rewrite IH. destruct (p c) eqn:Hpc; [| reflexivity].
  apply Hp in Hpc. congruence.
Qed.

Lemma includes_trimEnd p :
  (forall c, p c = true -> is_space c = false) ->
  forall s, includes p (trimEnd s) = includes p s.
Proof.
  intros Hp. induction s as [|c r IH]; simpl; [reflexivity|].
  destruct (is_space c && is_empty (trimEnd r)) eqn:Hc; simpl.
  - apply andb_prop in Hc. destruct Hc as [Hs He].
    destruct (trimEnd r); [| discriminate]. simpl in IH. rewrite <- IH.
    destruct (p c) eqn:Hpc; [| reflexivity].
    apply Hp in Hpc. congruence.
  - rewrite IH. reflexivity.
Qed.

Lemma includes_colon_trim : forall s,
  includes is_colon (trim s) = includes is_colon s.
Proof.
  assert (Hp : forall c, is_colon c = true -> is_space c = false).
  { intros c H. unfold is_colon in H. apply Ascii.eqb_eq in H. subst c.
    reflexivity. }
  intros s. unfold trim.
  rewrite includes_trimEnd, includes_trimStart by exact Hp. reflexivity.
Qed.

(** A string that holds the separator splits into at least two pieces. *)
Lemma split_each_two sep : forall s,
  includes sep s = true -> exists a b t, split_each sep s = a :: b :: t.
Proof.
  induction s as [|c r IH]; simpl; intros H; [discriminate|].
  destruct (sep c) eqn:Hc.
  - destruct (split_each_cons sep r) as [h [t Hr]]. rewrite Hr. eauto.
  - simpl in H. destruct (IH H) as [a [b [t Hr]]]. rewrite Hr. simpl. eauto.
Qed.

Lemma own_set_same : forall refs name value,
  EncodeLabels.own (EncodeLabels.set refs name value) name = Some value.
Proof.
  induction refs as [|[k v] rest IH]; intros name value; simpl.
  - rewrite String.eqb_refl. reflexivity.
  - destruct (String.eqb k name) eqn:E; simpl; rewrite E; auto.
Qed.

Lemma own_set_keeps : forall refs name value other,
  EncodeLabels.own refs other <> None ->
  EncodeLabels.own (EncodeLabels.set refs name value) other <> None.
Proof.
  induction refs as [|[k v] rest IH]; intros name value other H; simpl in *.
  - congruence.
  - destruct (String.eqb k name) eqn:E; simpl;
      destruct (String.eqb k other) eqn:E'; try congruence; auto.
Qed.

Lemma known_set_same refs name value :
  known (EncodeLabels.set refs name value) name.
Proof.
  unfold known, EncodeLabels.get. rewrite own_set_same. discriminate.
Qed.

Lemma known_set_keeps refs name value other :
  known refs other -> known (EncodeLabels.set refs name value) other.
Proof.
  unfold known, EncodeLabels.get. intros H.
  destruct (EncodeLabels.own refs other) eqn:E.
  - pose proof (own_set_keeps refs name value other) as K.
    rewrite E in K. specialize (K ltac:(discriminate)).
    destruct (EncodeLabels.own (EncodeLabels.set refs name value) other);
      [discriminate | congruence].
  - destruct (EncodeLabels.own (EncodeLabels.set refs name value) other);
      [discriminate | exact H].
Qed.

(** What one step of the pass does to the label table. *)
Lemma classify_ok i code p p' :
  EncodeLabels.classify i code p = Ok p' ->
  (forall name, known (EncodeLabels.refList p) name ->
                known (EncodeLabels.refList p') name)
  /\ (forall name, label_of code = Some name ->
                   known (EncodeLabels.refList p') name).
Proof.
  unfold EncodeLabels.classify, label_of. intros H.
  destruct (includes is_colon code) eqn:Hc; cbn [negb] in H.
  - set (name := hd "" (split_each is_colon (trim code))) in *.
    destruct (EncodeLabels.get (EncodeLabels.refList p) name);
      try discriminate H.
    destruct (starts_with is_digit name); [discriminate H|].
    assert (Hset : EncodeLabels.refList p'
                   = EncodeLabels.set (EncodeLabels.refList p) name
                       (List.length (EncodeLabels.insts p) * 4)).
    { destruct (negb (endsWith is_colon (trim code))).
      - destruct (nth_error (split_each is_colon (trim code)) 1);
          [| discriminate H].
        inversion H; reflexivity.
      - inversion H; reflexivity. }
    rewrite Hset. split.
    + intros n Hn. apply known_set_keeps, Hn.
    + intros n Hn. inversion Hn; subst n. apply known_set_same.
  - inversion H; subst p'; simpl. split; [auto | discriminate].
Qed.

(** The errors one step can throw. *)
Lemma classify_err i code p e :
  EncodeLabels.classify i code p = Err e ->
  exists name,
    label_of code = Some name
    /\ (e = DuplicateLabel (i + 1) name
        \/ (e = InvalidLabelName (i + 1) name
            /\ starts_with is_digit name = true)).
Proof.
  unfold EncodeLabels.classify, label_of. intros H.
  destruct (includes is_colon code) eqn:Hc; cbn [negb] in H;
    [| discriminate H].
  set (name := hd "" (split_each is_colon (trim code))) in *.
  exists name. split; [reflexivity|].
  destruct (EncodeLabels.get (EncodeLabels.refList p) name);
    try (inversion H; auto; fail).
  destruct (starts_with is_digit name) eqn:Hd.
  - inversion H; auto.
  - destruct (negb (endsWith is_colon (trim code))); [| discriminate H].
    rewrite <- includes_colon_trim in Hc.
    destruct (split_each_two is_colon (trim code) Hc) as [a [b [t Hs]]].
    rewrite Hs in H. simpl in H. discriminate H.
Qed.

Lemma classify_known i code p name :
  label_of code = Some name ->
  known (EncodeLabels.refList p) name ->
  EncodeLabels.classify i code p = Err (DuplicateLabel (i + 1) name).
Proof.
  unfold EncodeLabels.classify, label_of, known. intros H Hk.
  destruct (includes is_colon code); cbn [negb]; [| discriminate H].
  inversion H; subst name.
  destruct (EncodeLabels.get _ _); congruence.
Qed.

Lemma no_digit_before_tail code codes j :
  no_digit_before (code :: codes) (S j) -> no_digit_before codes j.
Proof.
  intros H k c n Hk Hn Hl. apply (H (S k) c n); [lia | exact Hn | exact Hl].
Qed.

Lemma classify_err_kind i code p e :
  EncodeLabels.classify i code p = Err e ->
  label_error e
  /\ (forall codes j, no_digit_before (code :: codes) (S j) ->
                      is_DuplicateLabel e).
Proof.
  intros H. destruct (classify_err _ _ _ _ H) as [name [Hl [-> | [-> Hd]]]].
  - split; [left; exact I | intros; exact I].
  - split; [right; exact I|].
    intros codes j Hno. specialize (Hno 0 code name ltac:(lia) eq_refl Hl).
    congruence.
Qed.

(** A line that defines a name the table already knows stops the pass. *)
Lemma parse_loop_known : forall codes i p j code name,
  nth_error codes j = Some code ->
  label_of code = Some name ->
  known (EncodeLabels.refList p) name ->
  exists e,
    EncodeLabels.parse_loop i codes p = Err e
    /\ label_error e
    /\ (no_digit_before codes j -> is_DuplicateLabel e).
Proof.
  induction codes as [|c0 rest IH]; intros i p j code name Hn Hl Hk.
  - destruct j; discriminate.
  - destruct j as [|j]; simpl in Hn.
    + inversion Hn; subst c0. simpl.
      rewrite (classify_known i code p name Hl Hk).
      eexists. split; [reflexivity|]. split; [left|]; simpl; auto.
    + simpl. destruct (EncodeLabels.classify i c0 p) as [p' | e] eqn:Hc.
      * destruct (classify_ok _ _ _ _ Hc) as [Hkeep _].
        destruct (IH (S i) p' j code name Hn Hl (Hkeep _ Hk))
          as [e [He [Hle Hd]]].
        exists e. split; [exact He|]. split; [exact Hle|].
        intros Hno. apply Hd. eapply no_digit_before_tail, Hno.
      * destruct (classify_err_kind _ _ _ _ Hc) as [Hle Hd].
        exists e. split; [reflexivity|]. split; [exact Hle|].
        intros Hno. apply (Hd rest j Hno).
Qed.

(** ** Bit fields *)

Section BitFields.

Local Open Scope Z_scope.

Lemma testbit_bits w lo len i :
  0 <= i -> 0 <= lo -> 0 <= len ->
  Z.testbit (bits w lo len) i = (i <? len) && Z.testbit w (i + lo).
Proof.
  intros Hi Hlo Hlen. unfold bits.
  rewrite Z.land_spec, Z.shiftr_spec, Z.testbit_ones_nonneg by lia.
  apply andb_comm.
Qed.

Lemma testbit_put v p i :
  0 <= i -> 0 <= of_value p -> 0 <= of_word p -> 0 <= span p ->
  Z.testbit (put v p) i
  = (of_word p <=? i) && (i <? of_word p + span p)
    && Z.testbit v (i - of_word p + of_value p).
Proof.
  intros Hi Hf Hp Hl. unfold put. rewrite Z.shiftl_spec by lia.
  destruct (Z.leb_spec (of_word p) i) as [Hle | Hlt]; simpl.
  - rewrite testbit_bits by lia. f_equal.
    destruct (Z.ltb_spec (i - of_word p) (span p)),
             (Z.ltb_spec i (of_word p + span p)); try reflexivity; lia.
  - apply Z.testbit_neg_r. lia.
Qed.

Lemma testbit_take w p i :
  0 <= i -> 0 <= of_value p -> 0 <= of_word p -> 0 <= span p ->
  Z.testbit (take w p) i
  = (of_value p <=? i) && (i <? of_value p + span p)
    && Z.testbit w (i - of_value p + of_word p).
Proof.
  intros Hi Hf Hp Hl. unfold take. rewrite Z.shiftl_spec by lia.
  destruct (Z.leb_spec (of_value p) i) as [Hle | Hlt]; simpl.
  - rewrite testbit_bits by lia. f_equal.
    destruct (Z.ltb_spec (i - of_value p) (span p)),
             (Z.ltb_spec i (of_value p + span p)); try reflexivity; lia.
  - apply Z.testbit_neg_r. lia.
Qed.

Lemma testbit_run n lo i :
  0 <= i -> 0 <= lo -> 0 <= n ->
  Z.testbit (Z.shiftl (Z.ones n) lo) i = (lo <=? i) && (i <? lo + n).
Proof.
  intros Hi Hlo Hn. rewrite Z.shiftl_spec by lia.
  rewrite Z.testbit_ones by lia.
  destruct (Z.leb_spec 0 (i - lo)), (Z.leb_spec lo i),
           (Z.ltb_spec (i - lo) n), (Z.ltb_spec i (lo + n));
    try reflexivity; lia.
Qed.

Lemma testbit_lor_all l i :
  Z.testbit (lor_all l) i = existsb (fun z => Z.testbit z i) l.
Proof.
  induction l as [|z l IH]; simpl.
  - apply Z.bits_0.
  - rewrite Z.lor_spec, IH. reflexivity.
Qed.

(** A number whose bits from 32 up are clear is a 32-bit word. *)
Lemma word_of_bits a :
  (forall j, 32 <= j -> Z.testbit a j = false) -> 0 <= a < 2 ^ 32.
Proof.
  intros H.
  assert (E : a mod 2 ^ 32 = a).
  { apply Z.bits_inj'. intros j Hj. rewrite Z.testbit_mod_pow2 by lia.
    destruct (Z.ltb_spec j 32); simpl; [reflexivity|].
    symmetry. apply H. lia. }
  rewrite <- E. apply Z.mod_pos_bound. lia.
Qed.

Lemma high_bits_clear a j :
  0 <= a < 2 ^ 32 -> 32 <= j -> Z.testbit a j = false.
Proof.
  intros Ha Hj. rewrite <- (Z.mod_small a (2 ^ 32)) by exact Ha.
  apply Z.mod_pow2_bits_high. lia.
Qed.

Lemma sign_extend_bits len v :
  0 < len -> fits_signed len v = true ->
  sign_extend len (v mod 2 ^ len) = v.
Proof.
  intros Hlen Hfit. unfold fits_signed in Hfit. unfold sign_extend.
  apply andb_prop in Hfit. destruct Hfit as [Hlo Hhi].
  apply Z.leb_le in Hlo. apply Z.ltb_lt in Hhi.
  assert (Hp : 2 ^ len = 2 * 2 ^ (len - 1)).
  { rewrite <- Z.pow_succ_r by lia. f_equal. lia. }
  assert (Hpos : 0 < 2 ^ (len - 1)) by (apply Z.pow_pos_nonneg; lia).
  destruct (Z.lt_ge_cases v 0) as [Hneg | Hnn].
  - assert (Hm : v mod 2 ^ len = v + 2 ^ len).
    { symmetry. apply Z.mod_unique with (q := -1); lia. }
    rewrite Hm. destruct (2 ^ (len - 1) <=? v + 2 ^ len) eqn:E.
    + lia.
    + apply Z.leb_gt in E. lia.
  - rewrite Z.mod_small by lia.
    destruct (2 ^ (len - 1) <=? v) eqn:E; [apply Z.leb_le in E; lia|].
    reflexivity.
Qed.

End BitFields.

(** ** Lists of pairs *)

Lemma each_pair_at_most_one {A : Type} (R : A -> A -> Prop) (c : A -> Prop) :
  (forall a b, R a b -> c a -> c b -> False) ->
  forall l, each_pair R l ->
  forall a b, In a l -> In b l -> c a -> c b -> a = b.
Proof.
  intros Hex. induction l as [|x l IH]; intros Hl a b Ha Hb Hca Hcb.
  - contradiction.
  - destruct Hl as [Hx Hl]. rewrite Forall_forall in Hx.
    destruct Ha as [Ea | Ha], Hb as [Eb | Hb].
    + congruence.
    + subst x. exfalso. apply (Hex a b (Hx b Hb) Hca Hcb).
    + subst x. exfalso. apply (Hex b a (Hx a Ha) Hcb Hca).
    + apply (IH Hl a b Ha Hb Hca Hcb).
Qed.

Lemma each_pair_map {A B : Type} (f : A -> B) (R : B -> B -> Prop) :
  forall l, each_pair R (map f l) ->
            each_pair (fun a b => R (f a) (f b)) l.
Proof.
  induction l as [|x l IH]; simpl; [tauto|].
  intros [Hx Hl]. split; [| apply IH, Hl].
  rewrite Forall_forall in *. intros y Hy. apply Hx, in_map, Hy.
Qed.

Lemma each_pairb_spec {A : Type} (r : A -> A -> bool) (R : A -> A -> Prop) :
  (forall a b, r a b = true -> R a b) ->
  forall l, each_pairb r l = true -> each_pair R l.
Proof.
  intros Hr. induction l as [|x l IH]; simpl; [tauto|].
  intros H. apply andb_prop in H. destruct H as [Hx Hl].
  split; [| apply IH, Hl].
  rewrite forallb_forall in Hx. apply Forall_forall.
  intros y Hy. apply Hr, Hx, Hy.
Qed.

Lemma find_unique {A} (p : A -> bool) l x :
  In x l -> p x = true ->
  (forall y, In y l -> p y = true -> y = x) ->
  find p l = Some x.
Proof.
  intros Hx Hp Hu. destruct (find p l) as [y|] eqn:E.
  - apply find_some in E. destruct E as [Hy Hpy]. f_equal. auto.
  - pose proof (find_none _ _ E x Hx). congruence.
Qed.

(** ** The layout of a word *)

Section CodecRoundTrip.

Local Open Scope Z_scope.

Lemma wires_pieces : forall ss vs,
  List.length ss = List.length vs ->
  map fst (wires ss vs) = flat_map pieces ss.
Proof.
  unfold wires.
  induction ss as [|s ss IH]; intros [|v vs] H; simpl in *;
    try discriminate; [reflexivity|].
  rewrite map_app, map_map, IH by lia. simpl. rewrite map_id. reflexivity.
Qed.

Lemma in_wires ss vs s v p :
  In (s, v) (combine ss vs) -> In p (pieces s) -> In (p, v) (wires ss vs).
Proof.
  intros Hs Hp. unfold wires. apply in_flat_map.
  exists (s, v). split; [exact Hs|]. simpl.
  apply in_map_iff. exists p. auto.
Qed.

Lemma wires_in ss vs p v :
  In (p, v) (wires ss vs) -> In p (flat_map pieces ss).
Proof.
  unfold wires. intros H. apply in_flat_map in H.
  destruct H as [[s v'] [Hs Hp]]. simpl in Hp.
  apply in_map_iff in Hp. destruct Hp as [q [Hq Hin]].
  inversion Hq; subst q v'.
  apply in_flat_map. exists s. split; [| exact Hin].
  apply (in_combine_l _ _ _ _ Hs).
Qed.

(** What the invariant says of a piece of a format. *)
Lemma format_piece f p :
  format_ok f -> In p (flat_map pieces (slots f)) ->
  0 <= of_value p /\ 0 <= of_word p /\ 0 < span p /\ of_word p + span p <= 32
  /\ Z.land (fixed f) (field p) = 0.
Proof.
  intros [_ [Hs [_ Hf]]] Hp.
  rewrite Forall_forall in Hf. pose proof (Hf p Hp) as Hland.
  apply in_flat_map in Hp. destruct Hp as [s [Hs' Hp]].
  rewrite Forall_forall in Hs. destruct (Hs s Hs') as [Hps _].
  rewrite Forall_forall in Hps.
  destruct (Hps p Hp) as [H1 [H2 [H3 [H4 _]]]]. auto.
Qed.

Lemma slot_piece s p :
  slot_ok s -> In p (pieces s) ->
  0 <= of_value p /\ 0 <= of_word p /\ 0 < span p
  /\ of_value p + span p <= width_of (kind s).
Proof.
  intros [Hps _] Hp. rewrite Forall_forall in Hps.
  destruct (Hps p Hp) as [H1 [H2 [H3 [_ H5]]]]. auto.
Qed.

(** A bit of a word that a piece covers is not fixed. *)
Lemma covered_not_fixed f p j :
  format_ok f -> In p (flat_map pieces (slots f)) ->
  of_word p <= j < of_word p + span p ->
  Z.testbit (fixed f) j = false.
Proof.
  intros Hf Hp Hj.
  destruct (format_piece f p Hf Hp) as [H1 [H2 [H3 [H4 Hland]]]].
  assert (E : Z.testbit (Z.land (fixed f) (field p)) j = false)
    by (rewrite Hland; apply Z.bits_0).
  rewrite Z.land_spec in E. unfold field in E.
  rewrite testbit_run in E by lia.
  destruct (Z.leb_spec (of_word p) j), (Z.ltb_spec j (of_word p + span p));
    try lia.
  simpl in E. rewrite andb_true_r in E. exact E.
Qed.

Lemma pattern_bit e j :
  entry_ok e -> Z.testbit (fixed (format e)) j = false ->
  Z.testbit (pattern e) j = false.
Proof.
  intros [_ [Hp _]] Hf. rewrite <- Hp, Z.land_spec, Hf.
  apply andb_false_r.
Qed.

Lemma testbit_placed s i :
  slot_ok s -> 0 <= i ->
  Z.testbit (placed s) i
  = existsb (fun p => (of_value p <=? i) && (i <? of_value p + span p)) (pieces s).
Proof.
  intros Hs Hi. unfold placed. rewrite testbit_lor_all.
  assert (Hall : forall q, In q (pieces s) -> 0 <= of_value q /\ 0 <= span q).
  { intros q Hq. destruct (slot_piece s q Hs Hq) as [G1 [_ [G3 _]]]. lia. }
  revert Hall. generalize (pieces s) as l.
  induction l as [|q l IH]; intros Hall; [reflexivity|]. simpl.
  destruct (Hall q ltac:(left; reflexivity)) as [G1 G3].
  rewrite testbit_run by lia. f_equal.
  apply IH. intros r Hr. apply Hall. right. exact Hr.
Qed.

Lemma wire_bounds e vs p v :
  entry_ok e -> In (p, v) (wires (slots (format e)) vs) ->
  0 <= of_value p /\ 0 <= of_word p /\ 0 < span p /\ of_word p + span p <= 32.
Proof.
  intros He H. apply wires_in in H.
  destruct (format_piece _ p (proj1 He) H) as [H1 [H2 [H3 [H4 _]]]]. auto.
Qed.

(** At most one wire covers a bit of the word. *)
Lemma wire_unique e vs j a b :
  entry_ok e ->
  List.length (slots (format e)) = List.length vs ->
  In a (wires (slots (format e)) vs) ->
  In b (wires (slots (format e)) vs) ->
  of_word (fst a) <= j < of_word (fst a) + span (fst a) ->
  of_word (fst b) <= j < of_word (fst b) + span (fst b) ->
  a = b.
Proof.
  intros He Hlen Ha Hb Hca Hcb.
  apply (each_pair_at_most_one
           (fun a b => apart (fst a) (fst b))
           (fun a => of_word (fst a) <= j < of_word (fst a) + span (fst a)))
    with (l := wires (slots (format e)) vs); try assumption.
  - unfold apart. intros x y Hxy Hx Hy. lia.
  - apply each_pair_map. rewrite wires_pieces by exact Hlen.
    apply (proj1 He).
Qed.

(** A wire that sets bit [j] of the word covers it. *)
Lemma wire_covers e vs q u j :
  entry_ok e -> In (q, u) (wires (slots (format e)) vs) ->
  Z.testbit (put u q) j = true ->
  of_word q <= j < of_word q + span q
  /\ Z.testbit u (j - of_word q + of_value q) = true.
Proof.
  intros He Hw Hb.
  destruct (wire_bounds e vs q u He Hw) as [G1 [G2 [G3 G4]]].
  destruct (Z.lt_ge_cases j 0) as [Hneg | Hj];
    [rewrite Z.testbit_neg_r in Hb by exact Hneg; discriminate Hb|].
  rewrite testbit_put in Hb by lia.
  apply andb_prop in Hb. destruct Hb as [Hc Hb].
  apply andb_prop in Hc. destruct Hc as [Hc1 Hc2].
  apply Z.leb_le in Hc1. apply Z.ltb_lt in Hc2. auto.
Qed.

(** A bit of the word that a piece covers holds the bit of the value the
    piece puts there. *)
Lemma pack_bit e vs p v j :
  entry_ok e ->
  List.length (slots (format e)) = List.length vs ->
  In (p, v) (wires (slots (format e)) vs) ->
  of_word p <= j < of_word p + span p ->
  Z.testbit (pack e vs) j = Z.testbit v (j - of_word p + of_value p).
Proof.
  intros He Hlen Hin Hj.
  destruct (wire_bounds e vs p v He Hin) as [H1 [H2 [H3 H4]]].
  unfold pack. rewrite Z.lor_spec, testbit_lor_all.
  rewrite (pattern_bit e j He
             (covered_not_fixed _ p j (proj1 He) (wires_in _ _ _ _ Hin) Hj)).
  simpl. apply Bool.eq_true_iff_eq. rewrite existsb_exists. split.
  - intros [z [Hz Hb]]. apply in_map_iff in Hz.
    destruct Hz as [[q u] [Hq Hw]]. simpl in Hq. subst z.
    destruct (wire_covers e vs q u j He Hw Hb) as [Hc Hu].
    assert (E : (q, u) = (p, v))
      by (apply (wire_unique e vs j); simpl; auto).
    inversion E; subst q u. exact Hu.
  - intros Hb. exists (put v p). split.
    + apply in_map_iff. exists (p, v). auto.
    + rewrite testbit_put by lia. rewrite Hb.
      destruct (Z.leb_spec (of_word p) j),
               (Z.ltb_spec j (of_word p + span p));
        first [reflexivity | lia].
Qed.

(** A fixed bit of the word holds the bit of the pattern. *)
Lemma pack_fixed_bit e vs j :
  entry_ok e ->
  Z.testbit (fixed (format e)) j = true ->
  Z.testbit (pack e vs) j = Z.testbit (pattern e) j.
Proof.
  intros He Hf. unfold pack. rewrite Z.lor_spec, testbit_lor_all.
  match goal with
  | |- (_ || ?x)%bool = _ => assert (E : x = false)
  end.
  { apply not_true_iff_false. intros H. apply existsb_exists in H.
    destruct H as [z [Hz Hb]]. apply in_map_iff in Hz.
    destruct Hz as [[q u] [Hq Hw]]. simpl in Hq. subst z.
    destruct (wire_covers e vs q u j He Hw Hb) as [Hc _].
    pose proof (covered_not_fixed _ q j (proj1 He) (wires_in _ _ _ _ Hw) Hc).
    congruence. }
  rewrite E. apply orb_false_r.
Qed.

Lemma pack_high_bit e vs j :
  entry_ok e -> 32 <= j -> Z.testbit (pack e vs) j = false.
Proof.
  intros He Hj. unfold pack. rewrite Z.lor_spec, testbit_lor_all.
  apply orb_false_intro.
  - apply (pattern_bit e j He).
    apply high_bits_clear; [apply (proj1 He) | exact Hj].
  - apply not_true_iff_false. intros H. apply existsb_exists in H.
    destruct H as [z [Hz Hb]]. apply in_map_iff in Hz.
    destruct Hz as [[q u] [Hq Hw]]. simpl in Hq. subst z.
    destruct (wire_covers e vs q u j He Hw Hb) as [Hc _].
    destruct (wire_bounds e vs q u He Hw) as [G1 [G2 [G3 G4]]]. lia.
Qed.

Lemma pack_word e vs : entry_ok e -> 0 <= pack e vs < 2 ^ 32.
Proof. intros He. apply word_of_bits. intros j. apply pack_high_bit, He. Qed.

Lemma pack_matches e vs : entry_ok e -> matches (pack e vs) e = true.
Proof.
  intros He. unfold matches. apply Z.eqb_eq. apply Z.bits_inj'. intros j Hj.
  rewrite Z.land_spec.
  destruct (Z.testbit (fixed (format e)) j) eqn:Hf.
  - rewrite (pack_fixed_bit e vs j He Hf). apply andb_true_r.
  - rewrite (pattern_bit e j He Hf). apply andb_false_r.
Qed.

(** The pieces of an operand, taken from the word and put together, are
    the bits of its value that have a place. *)
Lemma unpack_bit e vs s v i :
  entry_ok e ->
  List.length (slots (format e)) = List.length vs ->
  In (s, v) (combine (slots (format e)) vs) -> 0 <= i ->
  Z.testbit (unpack s (pack e vs)) i
  = Z.testbit (placed s) i && Z.testbit v i.
Proof.
  intros He Hlen Hin Hi.
  assert (Hs : slot_ok s).
  { destruct He as [[_ [Hss _]] _]. rewrite Forall_forall in Hss.
    apply Hss. apply (in_combine_l _ _ _ _ Hin). }
  rewrite (testbit_placed s i Hs Hi).
  unfold unpack. rewrite testbit_lor_all.
  assert (Hw : forall p, In p (pieces s) ->
                         In (p, v) (wires (slots (format e)) vs))
    by (intros p Hp; apply (in_wires _ _ s v p Hin Hp)).
  revert Hw. generalize (pieces s) as l.
  induction l as [|p l IH]; intros Hw; [reflexivity|]. simpl.
  rewrite IH by (intros q Hq; apply Hw; right; exact Hq).
  destruct (wire_bounds e vs p v He (Hw p ltac:(left; reflexivity)))
    as [H1 [H2 [H3 H4]]].
  rewrite testbit_take by lia.
  destruct (Z.leb_spec (of_value p) i) as [Hle | Hlt]; simpl.
  - destruct (Z.ltb_spec i (of_value p + span p)) as [Hlt | Hge]; simpl.
    + rewrite (pack_bit e vs p v (i - of_value p + of_word p) He Hlen
                 (Hw p ltac:(left; reflexivity)) ltac:(lia)).
      replace (i - of_value p + of_word p - of_word p + of_value p)
        with i by lia.
      destruct (Z.testbit v i); simpl; [reflexivity|].
      rewrite andb_false_r. reflexivity.
    + reflexivity.
  - reflexivity.
Qed.


Lemma testbit_lost s i :
  slot_ok s -> 0 <= i ->
  Z.testbit (lost s) i
  = (i <? width_of (kind s)) && negb (Z.testbit (placed s) i).
Proof.
  intros Hs Hi. unfold lost. rewrite Z.ldiff_spec.
  rewrite Z.testbit_ones_nonneg by (destruct Hs as [_ [Hw _]]; lia).
  reflexivity.
Qed.

(** A place is a place below the width of the value. *)
Lemma placed_below s i :
  slot_ok s -> 0 <= i -> Z.testbit (placed s) i = true ->
  i < width_of (kind s).
Proof.
  intros Hs Hi H. rewrite testbit_placed in H by assumption.
  apply existsb_exists in H. destruct H as [p [Hp Hb]].
  destruct (slot_piece s p Hs Hp) as [_ [_ [_ H4]]].
  apply andb_prop in Hb. destruct Hb as [_ Hb]. apply Z.ltb_lt in Hb. lia.
Qed.

(** The content of a slot of the packed word is the value of the operand
    modulo its width, when no bit of the value is lost. *)
Lemma unpack_pack e vs s v :
  entry_ok e ->
  List.length (slots (format e)) = List.length vs ->
  In (s, v) (combine (slots (format e)) vs) ->
  Z.land v (lost s) = 0 ->
  unpack s (pack e vs) = v mod 2 ^ width_of (kind s).
Proof.
  intros He Hlen Hin Hal.
  assert (Hs : slot_ok s).
  { destruct He as [[_ [Hss _]] _]. rewrite Forall_forall in Hss.
    apply Hss. apply (in_combine_l _ _ _ _ Hin). }
  apply Z.bits_inj'. intros i Hi.
  rewrite (unpack_bit e vs s v i He Hlen Hin Hi).
  rewrite Z.testbit_mod_pow2 by (destruct Hs as [_ [Hw _]]; lia).
  destruct (Z.testbit (placed s) i) eqn:Hp; simpl.
  - pose proof (placed_below s i Hs Hi Hp) as Hlt.
    apply Z.ltb_lt in Hlt. rewrite Hlt. reflexivity.
  - destruct (Z.ltb_spec i (width_of (kind s))) as [Hlt | Hge]; simpl;
      [| reflexivity].
    assert (E : Z.testbit (Z.land v (lost s)) i = false)
      by (rewrite Hal; apply Z.bits_0).
    rewrite Z.land_spec, (testbit_lost s i Hs Hi), Hp in E.
    apply Z.ltb_lt in Hlt. rewrite Hlt in E. simpl in E.
    rewrite andb_true_r in E. symmetry. exact E.
Qed.

(** The operand that [decode] reads in a slot of the packed word is the
    one that was packed. *)
Lemma operand_round_trip x e vs s v o :
  entry_ok e -> x <= 128 ->
  List.length (slots (format e)) = List.length vs ->
  In (s, v) (combine (slots (format e)) vs) ->
  value_of x (kind s) o = inl v ->
  keeps_bits s o ->
  operand_of (pack e vs) s = o
  /\ match kind s with Shamt => unpack s (pack e vs) < x | _ => True end.
Proof.
  intros He Hx Hlen Hin Hv Hk.
  assert (Hs : slot_ok s).
  { destruct He as [[_ [Hss _]] _]. rewrite Forall_forall in Hss.
    apply Hss. apply (in_combine_l _ _ _ _ Hin). }
  pose proof (unpack_pack e vs s v He Hlen Hin) as Hu.
  unfold operand_of. unfold value_of in Hv.
  destruct Hs as [_ [Hw Hlost]].
  destruct (kind s) as [| | n | n |] eqn:Ek; destruct o as [r | r | r];
    try discriminate Hv; simpl in Hk, Hw.
  - destruct (is_reg r) eqn:Hr; [| discriminate Hv]. inversion Hv; subst v.
    unfold is_reg in Hr. apply andb_prop in Hr. destruct Hr as [H0 H1].
    apply Z.leb_le in H0. apply Z.ltb_lt in H1.
    rewrite Hu by (rewrite Hlost; apply Z.land_0_r).
    simpl. rewrite Z.mod_small by lia. auto.
  - destruct (is_reg r) eqn:Hr; [| discriminate Hv]. inversion Hv; subst v.
    unfold is_reg in Hr. apply andb_prop in Hr. destruct Hr as [H0 H1].
    apply Z.leb_le in H0. apply Z.ltb_lt in H1.
    rewrite Hu by (rewrite Hlost; apply Z.land_0_r).
    simpl. rewrite Z.mod_small by lia. auto.
  - destruct (fits_signed n r) eqn:Hr; [| discriminate Hv].
    inversion Hv; subst v. rewrite (Hu Hk). simpl.
    rewrite (sign_extend_bits n r Hw Hr). auto.
  - destruct (fits_unsigned n r) eqn:Hr; [| discriminate Hv].
    inversion Hv; subst v. rewrite (Hu Hk). simpl.
    unfold fits_unsigned in Hr. apply andb_prop in Hr. destruct Hr as [H0 H1].
    apply Z.leb_le in H0. apply Z.ltb_lt in H1.
    rewrite Z.mod_small by lia. auto.
  - destruct ((0 <=? r) && (r <? x)) eqn:Hr; [| discriminate Hv].
    inversion Hv; subst v. rewrite (Hu Hk). simpl.
    apply andb_prop in Hr. destruct Hr as [H0 H1].
    apply Z.leb_le in H0. apply Z.ltb_lt in H1.
    rewrite Z.mod_small by lia. auto.
Qed.

Lemma values_length x : forall ss ops vs,
  values x ss ops = inl vs -> List.length ss = List.length vs.
Proof.
  induction ss as [|s ss IH]; intros [|o ops] vs H; simpl in H;
    try discriminate H.
  - inversion H. reflexivity.
  - destruct (value_of x (kind s) o) as [v|]; [| discriminate H].
    destruct (values x ss ops) as [vs'|] eqn:E; [| discriminate H].
    inversion H; subst vs. simpl. f_equal. apply (IH ops vs' E).
Qed.

(** What holds of each operand with its slot and value holds of the
    lists. *)
Lemma values_pointwise x (C Q : Slot -> Operand -> Prop) :
  forall ss ops vs,
    values x ss ops = inl vs ->
    Forall2 C ss ops ->
    (forall s v o, In (s, v) (combine ss vs) ->
                   value_of x (kind s) o = inl v -> C s o -> Q s o) ->
    Forall2 Q ss ops.
Proof.
  induction ss as [|s ss IH]; intros [|o ops] vs H HC HQ; simpl in H;
    try discriminate H.
  - constructor.
  - destruct (value_of x (kind s) o) as [v|] eqn:Ev; [| discriminate H].
    destruct (values x ss ops) as [vs'|] eqn:E; [| discriminate H].
    inversion H; subst vs. inversion HC; subst.
    constructor.
    + apply (HQ s v o); [left; reflexivity | exact Ev | assumption].
    + apply (IH ops vs' E); [assumption|].
      intros s' v' o' Hin. apply HQ. right. exact Hin.
Qed.

(** Operands in range are accepted. *)
Lemma in_range_values x : forall ss ops,
  Forall2 (fun s o => operand_in x (kind s) o) ss ops ->
  exists vs, values x ss ops = inl vs.
Proof.
  induction ss as [|s ss IH]; intros ops H; inversion H; subst; simpl.
  - eauto.
  - destruct (IH _ H4) as [vs Hvs]. rewrite Hvs.
    assert (Hv : exists v, value_of x (kind s) y = inl v).
    { unfold operand_in, register, signed_range, unsigned_range in H2.
      unfold value_of, is_reg, fits_signed, fits_unsigned.
      destruct (kind s), y; try contradiction;
        match goal with
        | |- context [if ?c then _ else _] =>
            assert (Hc : c = true)
              by (apply andb_true_intro;
                  split; [apply Z.leb_le | apply Z.ltb_lt]; lia);
            rewrite Hc
        end; eauto. }
    destruct Hv as [v Hv]. rewrite Hv. eauto.
Qed.

(** A word made by [encode_entry] is a 32-bit word that matches its entry
    at the width it was made for, and it holds the operands it was made
    from when no immediate loses a bit. *)
Lemma encode_entry_round_trip x e ops w :
  entry_ok e -> x <= 128 -> min_width e <= x ->
  encode_entry x e ops = inl w ->
  0 <= w < 2 ^ 32
  /\ matches w e = true
  /\ (aligned e ops ->
      matches_at x w e = true
      /\ map (operand_of w) (slots (format e)) = ops).
Proof.
  intros He Hx Hmin Henc. unfold encode_entry in Henc.
  destruct (values x (slots (format e)) ops) as [vs|] eqn:Hvs;
    [| discriminate Henc].
  inversion Henc; subst w.
  pose proof (values_length x _ _ _ Hvs) as Hlen.
  split; [apply (pack_word e vs He)|].
  split; [apply (pack_matches e vs He)|].
  intros Hal.
  pose proof (values_pointwise x keeps_bits
                (fun s o =>
                   operand_of (pack e vs) s = o
                   /\ match kind s with
                      | Shamt => unpack s (pack e vs) < x
                      | _ => True
                      end)
                _ _ _ Hvs Hal
                (fun s v o Hin Hv Hk =>
                   operand_round_trip x e vs s v o He Hx Hlen Hin Hv Hk))
    as Hall.
  split.
  - unfold matches_at. rewrite (pack_matches e vs He).
    apply Z.leb_le in Hmin. rewrite Hmin. rewrite andb_true_r. simpl.
    apply forallb_forall. intros s Hs.
    clear - Hall Hs. induction Hall as [|s0 o ss os [_ H0] _ IH];
      [contradiction|].
    destruct Hs as [<- | Hs]; [| apply IH, Hs].
    destruct (kind s0); try reflexivity. apply Z.ltb_lt, H0.
  - clear - Hall. induction Hall as [|s0 o ss os [H0 _] _ IH];
      [reflexivity|].
    simpl. rewrite H0, IH. reflexivity.
Qed.

(** ** The lookups *)

Lemma table_entry_ok table e :
  field_model table -> In e table -> entry_ok e.
Proof.
  intros [Hok _] H. rewrite Forall_forall in Hok. auto.
Qed.

Lemma lookup_by_mnemonic_found table e isa extensions :
  field_model table ->
  In e table -> compatible e isa extensions ->
  lookup_by_mnemonic table (mnemonic e) isa extensions = Some e.
Proof.
  intros Hmodel He [Hw Hx]. unfold lookup_by_mnemonic.
  destruct (table_entry_ok table e Hmodel He) as [_ [_ [Hl _]]].
  apply find_unique; [exact He | |].
  - rewrite Hl, String.eqb_refl, Hw, Hx. reflexivity.
  - intros y Hy Hp.
    apply andb_prop in Hp. destruct Hp as [Hp _].
    apply andb_prop in Hp. destruct Hp as [Hp _].
    apply String.eqb_eq in Hp. rewrite Hl in Hp.
    apply (proj1 (proj2 Hmodel) y e Hy He Hp).
Qed.

Lemma matches_at_matches x w e : matches_at x w e = true -> matches w e = true.
Proof.
  unfold matches_at. intros H.
  apply andb_prop in H. destruct H as [H _].
  apply andb_prop in H. destruct H as [H _]. exact H.
Qed.

Lemma lookup_by_bits_found table w x e :
  field_model table ->
  In e table -> matches_at x w e = true ->
  lookup_by_bits table w x = Some e.
Proof.
  intros Hmodel He Hm. unfold lookup_by_bits.
  apply find_unique; [exact He | exact Hm |].
  intros y Hy Hp.
  apply (proj2 (proj2 Hmodel) w y e Hy He);
    [apply (matches_at_matches x), Hp | apply (matches_at_matches x), Hm].
Qed.

(** A lookup at any width finds no other entry than the one the word
    matches. *)
Lemma lookup_by_bits_same table w x y e :
  field_model table ->
  In e table -> matches w e = true ->
  lookup_by_bits table w x = Some y -> y = e.
Proof.
  intros Hmodel He Hm H. unfold lookup_by_bits in H. apply find_some in H.
  destruct H as [Hy Hp].
  apply (proj2 (proj2 Hmodel) w y e Hy He);
    [apply (matches_at_matches x), Hp | exact Hm].
Qed.

(** Under [AUTO] the narrower widths are tried first; they find the same
    entry or none. *)
Lemma lookup_auto_found table w e isa :
  field_model table ->
  In e table -> matches_at (xlen isa) w e = true ->
  lookup_auto table w isa = Some e.
Proof.
  intros Hmodel He Hm. pose proof (matches_at_matches _ _ _ Hm) as Hw.
  unfold lookup_auto.
  destruct isa; try (apply lookup_by_bits_found; assumption).
  destruct (lookup_by_bits table w 32) as [y|] eqn:E32.
  - f_equal. apply (lookup_by_bits_same table w 32 y e Hmodel He Hw E32).
  - destruct (lookup_by_bits table w 64) as [y|] eqn:E64.
    + f_equal. apply (lookup_by_bits_same table w 64 y e Hmodel He Hw E64).
    + apply lookup_by_bits_found; assumption.
Qed.

Lemma xlen_bound isa : xlen isa <= 128.
Proof. destruct isa; simpl; lia. Qed.

(** Every word [encode_with] gives is a 32-bit word. *)
Lemma encode_with_word_range table name ops isa extensions w :
  field_model table ->
  encode_with table name ops isa extensions = inl w -> 0 <= w < 2 ^ 32.
Proof.
  unfold encode_with. intros Hmodel H.
  destruct (lookup_by_mnemonic table name isa extensions) as [e|] eqn:E;
    [| discriminate H].
  unfold lookup_by_mnemonic in E. apply find_some in E.
  destruct E as [He Hp].
  apply andb_prop in Hp. destruct Hp as [Hp _].
  apply andb_prop in Hp. destruct Hp as [_ Hw].
  apply Z.leb_le in Hw.
  apply (encode_entry_round_trip (xlen isa) e ops w
           (table_entry_ok table e Hmodel He) (xlen_bound isa) Hw H).
Qed.

(** ** The catalog satisfies the invariant of the field model *)

Lemma apartb_spec p q : apartb p q = true -> apart p q.
Proof.
  unfold apartb, apart. intros H. apply orb_prop in H.
  destruct H as [H | H]; apply Z.leb_le in H; auto.
Qed.

Lemma slot_okb_spec s : slot_okb s = true -> slot_ok s.
Proof.
  unfold slot_okb, slot_ok. intros H.
  apply andb_prop in H. destruct H as [H H3].
  apply andb_prop in H. destruct H as [H1 H2].
  split; [| split].
  - apply Forall_forall. intros p Hp. rewrite forallb_forall in H1.
    specialize (H1 p Hp). unfold piece_okb in H1. unfold piece_ok.
    repeat (apply andb_prop in H1; destruct H1 as [H1 ?]).
    repeat match goal with
           | H : (_ <=? _) = true |- _ => apply Z.leb_le in H
           | H : (_ <? _) = true |- _ => apply Z.ltb_lt in H
           end.
    auto.
  - apply Z.ltb_lt, H2.
  - destruct (kind s); try exact I; apply Z.eqb_eq, H3.
Qed.

Lemma format_okb_spec f : format_okb f = true -> format_ok f.
Proof.
  unfold format_okb, format_ok. intros H.
  apply andb_prop in H. destruct H as [H H4].
  apply andb_prop in H. destruct H as [H H3].
  apply andb_prop in H. destruct H as [H1 H2].
  apply andb_prop in H1. destruct H1 as [H0 H1].
  apply Z.leb_le in H0. apply Z.ltb_lt in H1.
  split; [lia|]. split; [| split].
  - apply Forall_forall. intros s Hs. rewrite forallb_forall in H2.
    apply slot_okb_spec, H2, Hs.
  - apply (each_pairb_spec apartb apart apartb_spec _ H3).
  - apply Forall_forall. intros p Hp. rewrite forallb_forall in H4.
    apply Z.eqb_eq, H4, Hp.
Qed.

Lemma entry_okb_spec e : entry_okb e = true -> entry_ok e.
Proof.
  unfold entry_okb, entry_ok. intros H.
  apply andb_prop in H. destruct H as [H H4].
  apply andb_prop in H. destruct H as [H H3].
  apply andb_prop in H. destruct H as [H1 H2].
  split; [apply format_okb_spec, H1|].
  split; [apply Z.eqb_eq, H2|].
  split; [apply String.eqb_eq, H3|].
  apply orb_prop in H4. destruct H4 as [H4 | H4];
    [apply orb_prop in H4; destruct H4 as [H4 | H4]|];
    apply Z.eqb_eq in H4; auto.
Qed.

(** Two entries that are told apart match no common word. *)
Lemma told_apart_spec w a b :
  told_apart a b = true -> matches w a = true -> matches w b = true -> False.
Proof.
  unfold told_apart, matches. intros H Ha Hb.
  apply negb_true_iff in H. apply Z.eqb_neq in H.
  apply Z.eqb_eq in Ha. apply Z.eqb_eq in Hb. apply H.
  rewrite <- Ha, <- Hb. apply Z.bits_inj'. intros i Hi.
  rewrite !Z.land_spec, Z.lxor_spec, !Z.land_spec, Z.bits_0.
  destruct (Z.testbit w i), (Z.testbit (fixed (format a)) i),
           (Z.testbit (fixed (format b)) i); reflexivity.
Qed.

(** A table that passes the test satisfies the invariant. *)
Lemma field_modelb_spec table :
  field_modelb table = true -> field_model table.
Proof.
  unfold field_modelb, field_model. intros H.
  apply andb_prop in H. destruct H as [H H3].
  apply andb_prop in H. destruct H as [H1 H2].
  split; [| split].
  - apply Forall_forall. intros e He. rewrite forallb_forall in H1.
    apply entry_okb_spec, H1, He.
  - intros a b Ha Hb Hm.
    apply (each_pair_at_most_one
             (fun a b => mnemonic a <> mnemonic b)
             (fun e => mnemonic e = mnemonic a)) with (l := table);
      try assumption; try reflexivity.
    + intros x y Hxy Hx Hy. congruence.
    + apply (each_pairb_spec
               (fun a b => negb (String.eqb (mnemonic a) (mnemonic b))));
        [| exact H2].
      intros x y Hxy. apply negb_true_iff in Hxy.
      apply String.eqb_neq in Hxy. exact Hxy.
    + symmetry. exact Hm.
  - intros w a b Ha Hb Hma Hmb.
    apply (each_pair_at_most_one
             (fun a b => told_apart a b = true)
             (fun e => matches w e = true)) with (l := table);
      try assumption.
    + intros x y Hxy Hx Hy. apply (told_apart_spec w x y Hxy Hx Hy).
    + apply (each_pairb_spec told_apart); [tauto | exact H3].
Qed.

Lemma opcode_table_field_model : field_model opcode_table.
Proof. apply field_modelb_spec. vm_compute. reflexivity. Qed.

(** In the catalog only the offsets of the branches and of [jal] have a
    bit without a place, their bit 0. *)
Lemma opcode_table_lost e s :
  In e opcode_table -> In s (slots (format e)) ->
  lost s = 0
  \/ (lost s = 1
      /\ In (mnemonic e) ["jal"; "beq"; "bne"; "blt"; "bge"; "bltu"; "bgeu"]).
Proof.
  assert (H : forallb (fun e =>
                forallb (fun s =>
                  (lost s =? 0)
                  || ((lost s =? 1)
                      && existsb (String.eqb (mnemonic e))
                           ["jal"; "beq"; "bne"; "blt"; "bge"; "bltu";
                            "bgeu"]))
                  (slots (format e))) opcode_table = true)
    by (vm_compute; reflexivity).
  intros He Hs. rewrite forallb_forall in H. specialize (H e He).
  rewrite forallb_forall in H. specialize (H s Hs).
  apply orb_prop in H. destruct H as [H | H];
    [left; apply Z.eqb_eq, H | right].
  apply andb_prop in H. destruct H as [H1 H2].
  split; [apply Z.eqb_eq, H1|].
  apply existsb_exists in H2. destruct H2 as [x [Hx Hm]].
  apply String.eqb_eq in Hm. subst x. exact Hx.
Qed.

(** An offset keeps its bits when it is even. *)
Lemma keeps_bits_even s v :
  lost s = 1 -> (keeps_bits s (Imm v) <-> Z.even v = true).
Proof.
  intros H. unfold keeps_bits. rewrite H.
  change 1 with (Z.ones 1). rewrite Z.land_ones by lia.
  rewrite Z.pow_1_r, Zeven_mod. split; intros E.
  - rewrite E. reflexivity.
  - apply Z.eqb_eq, E.
Qed.

Lemma encode_word_range name ops isa extensions w :
  encode name ops isa extensions = inl w -> 0 <= w < 2 ^ 32.
Proof.
  intros H.
  apply (encode_with_word_range opcode_table name ops isa extensions w
           opcode_table_field_model H).
Qed.

(** Both names of a register are read back as its index. *)
Lemma register_names_parse r :
  0 <= r < 32 ->
  parse_register (to_numeric_name r) = Some r
  /\ parse_register (to_abi_name r) = Some r.
Proof.
  intros Hr.
  assert (Hall :
    forallb (fun idx =>
               match parse_register (to_numeric_name idx),
                     parse_register (to_abi_name idx) with
               | Some a, Some b => ((a =? idx) && (b =? idx))%bool
               | _, _ => false
               end) register_indices = true)
    by (vm_compute; reflexivity).
  rewrite forallb_forall in Hall. specialize (Hall r).
  assert (Hin : In r register_indices).
  { unfold register_indices. rewrite <- (Z2Nat.id r) by lia.
    apply in_map, in_seq. lia. }
  specialize (Hall Hin).
  destruct (parse_register (to_numeric_name r)) as [a|]; [| discriminate].
  destruct (parse_register (to_abi_name r)) as [b|]; [| discriminate].
  apply andb_prop in Hall. destruct Hall as [Ha Hb].
  apply Z.eqb_eq in Ha. apply Z.eqb_eq in Hb. subst. auto.
Qed.

Lemma float_register_names_parse r :
  0 <= r < 32 ->
  parse_float_register (to_float_name r) = Some r
  /\ parse_float_register (to_float_abi_name r) = Some r.
Proof.
  intros Hr.
  assert (Hall :
    forallb (fun idx =>
               match parse_float_register (to_float_name idx),
                     parse_float_register (to_float_abi_name idx) with
               | Some a, Some b => ((a =? idx) && (b =? idx))%bool
               | _, _ => false
               end) register_indices = true)
    by (vm_compute; reflexivity).
  rewrite forallb_forall in Hall. specialize (Hall r).
  assert (Hin : In r register_indices).
  { unfold register_indices. rewrite <- (Z2Nat.id r) by lia.
    apply in_map, in_seq. lia. }
  specialize (Hall Hin).
  destruct (parse_float_register (to_float_name r)) as [a|];
    [| discriminate].
  destruct (parse_float_register (to_float_abi_name r)) as [b|];
    [| discriminate].
  apply andb_prop in Hall. destruct Hall as [Ha Hb].
  apply Z.eqb_eq in Ha. apply Z.eqb_eq in Hb. subst. auto.
Qed.

(** The registers among operands in range. *)
Lemma in_range_registers x : forall ss ops,
  Forall2 (fun s o => operand_in x (kind s) o) ss ops ->
  forall r, (In (Reg r) ops -> 0 <= r < 32)
            /\ (In (FReg r) ops -> 0 <= r < 32).
Proof.
  induction 1 as [|s o ss ops Ho _ IH]; intros r; simpl; [tauto|].
  destruct (IH r) as [IH1 IH2].
  split; (intros [E | Hin]; [subst o | auto]);
    unfold operand_in, register in Ho; destruct (kind s); tauto.
Qed.

(** C1, as the codec can have it.  Whatever table the field model holds,
    provided it satisfies the invariant the data model asks of it (well
    laid out formats, lookups by mnemonic and by bits unambiguous): for
    every entry of the table, every width and extension set the entry is
    compatible with, and every operand set with one operand of the right
    kind and in range for each slot, whose immediates have no bit set
    that the format gives no place, encoding succeeds with a 32-bit word
    and decoding that word gives the entry and the operands back; every
    register operand is the index that both its numeric and its ABI name
    stand for.  In the formats of the catalog the bits without a place
    are bit 0 of the offsets of the branches and of [jal]
    ([opcode_table_lost]): there the condition says that these offsets
    are even. *)
Theorem C1_round_trip :
  forall (table : list TableEntry) (e : TableEntry) (ops : list Operand)
         (isa : ISA) (extensions : list Extension),
    field_model table ->
    In e table ->
    compatible e isa extensions ->
    in_range e isa ops ->
    aligned e ops ->
    round_trips table e ops isa extensions
    /\ forall r,
         (In (Reg r) ops ->
          parse_register (to_numeric_name r) = Some r
          /\ parse_register (to_abi_name r) = Some r)
         /\ (In (FReg r) ops ->
             parse_float_register (to_float_name r) = Some r
             /\ parse_float_register (to_float_abi_name r) = Some r).
Proof.
  intros table e ops isa extensions Hmodel He Hc Hin Hal.
  pose proof (table_entry_ok table e Hmodel He) as Hok.
  destruct (in_range_values _ _ _ Hin) as [vs Hvs].
  assert (Hw : encode_entry (xlen isa) e ops = inl (pack e vs))
    by (unfold encode_entry; rewrite Hvs; reflexivity).
  assert (Hmin : min_width e <= xlen isa)
    by (apply Z.leb_le, (proj1 Hc)).
  destruct (encode_entry_round_trip (xlen isa) e ops (pack e vs) Hok
              (xlen_bound isa) Hmin Hw) as [Hr [_ Hrt]].
  destruct (Hrt Hal) as [Hm Ho].
  split.
  - exists (pack e vs). split; [| split; [exact Hr|]].
    + unfold encode_with.
      rewrite (lookup_by_mnemonic_found table e isa extensions Hmodel He Hc).
      exact Hw.
    + unfold decode_with.
      rewrite (lookup_auto_found table _ e isa Hmodel He Hm), Ho.
      reflexivity.
  - intros r. destruct (in_range_registers _ _ _ Hin r) as [H1 H2].
    split; intros H.
    + apply register_names_parse, H1, H.
    + apply float_register_names_parse, H2, H.
Qed.

Lemma C1_round_trip_witness :
  round_trips opcode_table (E "sw" S_type 35 2 0 ExtI 32)
    [Reg 10; Imm (-8); Reg 2] RV32I all_extensions.
Proof.
  apply (C1_round_trip opcode_table (E "sw" S_type 35 2 0 ExtI 32)
           [Reg 10; Imm (-8); Reg 2] RV32I all_extensions).
  - exact opcode_table_field_model.
  - apply (nth_error_In _ 21). reflexivity.
  - split; reflexivity.
  - repeat constructor; unfold signed_range; simpl; lia.
  - repeat constructor.
Defined.

(** C1 as stated fails for an odd branch offset: 3 is in range, encoding
    succeeds and the word holds 2. *)
Lemma C1_odd_offset_not_restored :
  In (E "beq" B_type 99 0 0 ExtI 32) opcode_table
  /\ compatible (E "beq" B_type 99 0 0 ExtI 32) AUTO all_extensions
  /\ in_range (E "beq" B_type 99 0 0 ExtI 32) AUTO [Reg 1; Reg 2; Imm 3]
  /\ encode_with opcode_table "beq" [Reg 1; Reg 2; Imm 3] AUTO all_extensions
     = inl 0x00208163
  /\ decode_with opcode_table 0x00208163 AUTO
     = inl (E "beq" B_type 99 0 0 ExtI 32, [Reg 1; Reg 2; Imm 2])
  /\ ~ round_trips opcode_table (E "beq" B_type 99 0 0 ExtI 32)
         [Reg 1; Reg 2; Imm 3] AUTO all_extensions.
Proof.
  split; [apply (nth_error_In _ 4); reflexivity|].
  split; [split; reflexivity|].
  split; [repeat constructor; unfold signed_range; simpl; lia|].
  split; [vm_compute; reflexivity|].
  split; [vm_compute; reflexivity|].
  intros [w [Henc [_ Hdec]]].
  vm_compute in Henc. inversion Henc; subst w.
  vm_compute in Hdec. discriminate Hdec.
Qed.

End CodecRoundTrip.

(** ** The codec gives eight hex digits *)

Lemma all_hex_app : forall a b,
  all_hex a = true -> all_hex b = true -> all_hex (a ++ b) = true.
Proof.
  induction a as [|c a IH]; simpl; intros b Ha Hb; [exact Hb|].
  destruct (digit_value 16 c); [auto | discriminate].
Qed.

Lemma all_hex_zeros : forall k, all_hex (repeat_char "0" k) = true.
Proof. induction k as [|k IH]; simpl; auto. Qed.

Lemma all_hex_to_hex : forall fuel n acc,
  all_hex acc = true -> all_hex (to_hex fuel n acc) = true.
Proof.
  induction fuel as [|fuel IH]; intros n acc Hacc; simpl; [exact Hacc|].
  assert (Hd : (n mod 16 < 16)%N) by (apply N.mod_lt; lia).
  assert (Hacc' : all_hex (String (hex_digit (n mod 16)) acc) = true).
  { simpl. rewrite (digit_value_hex_digit _ Hd). exact Hacc. }
  destruct (n / 16 =? 0)%N; [exact Hacc' | apply IH, Hacc'].
Qed.

Lemma hex_of_word_eight : forall w : Z,
  (0 <= w < 2 ^ 32)%Z -> eight_hex_digits (hex_of_word w).
Proof.
  intros w Hw. unfold eight_hex_digits, hex_of_word. split.
  - apply length_padStart. apply toString16_length; [lia|].
    change (16 ^ N.of_nat 8)%N with (Z.to_N (2 ^ 32)).
    apply Z2N.inj_lt; lia.
  - unfold padStart. apply all_hex_app; [apply all_hex_zeros|].
    apply all_hex_to_hex. reflexivity.
Qed.

(** The codec written from the specification satisfies [hex_words]. *)
Lemma Instruction_hex_words : hex_words Text.Instruction.
Proof.
  intros text isa e H. unfold Text.Instruction in H.
  destruct (filter _ _) as [|name operand_tokens]; [discriminate H|].
  destruct (parse_operands operand_tokens) as [ops|]; [| discriminate H].
  destruct (encode name ops isa all_extensions) as [w|] eqn:E;
    [| discriminate H].
  inversion H; subst e. simpl.
  apply hex_of_word_eight, (encode_word_range _ _ _ _ _ E).
Qed.

Lemma C8_raw_bytes_ignore_flags_witness :
  List.length [0; 16; 128; 147; 255; 255; 255; 255]%N
  = List.length (source_lines ("addi x1, x1, 1" ++ nl ++ "bogus")) * 4
  /\ forall k text,
       nth_error (source_lines ("addi x1, x1, 1" ++ nl ++ "bogus")) k
       = Some text ->
       firstn 4 (skipn (k * 4) [0; 16; 128; 147; 255; 255; 255; 255]%N)
       = slot_bytes Text.Instruction AUTO text.
Proof.
  apply (proj2 (proj1 (proj2
           (C8_raw_bytes_ignore_flags Text.Instruction
              ("addi x1, x1, 1" ++ nl ++ "bogus") AUTO true false false true true))
           [0; 16; 128; 147; 255; 255; 255; 255]%N eq_refl)).
  exact Instruction_hex_words.
Defined.

(** ** One line an instruction *)

Lemma includes_app p : forall a b,
  includes p (a ++ b) = includes p a || includes p b.
Proof.
  induction a as [|c a IH]; intros b; simpl; [reflexivity|].
  rewrite IH. apply orb_assoc.
Qed.

Lemma clean_app_l a b :
  is_empty a = false -> has_newline a = false -> has_newline b = false ->
  clean (a ++ b).
Proof.
  unfold clean, has_newline. intros Ha Hn Hb. split.
  - destruct a; [discriminate | reflexivity].
  - rewrite includes_app, Hn, Hb. reflexivity.
Qed.

Lemma split_each_no_sep sep : forall s l,
  In l (split_each sep s) -> includes sep l = false.
Proof.
  induction s as [|c r IH]; simpl; intros l Hin.
  - destruct Hin as [<- | []]. reflexivity.
  - destruct (sep c) eqn:Hc.
    + destruct Hin as [<- | Hin]; [reflexivity | auto].
    + destruct (split_each_cons sep r) as [h [t Hr]].
      rewrite Hr in *. simpl in Hin.
      destruct Hin as [<- | Hin].
      * simpl. rewrite Hc. apply IH. left. reflexivity.
      * apply IH. right. exact Hin.
Qed.

Lemma source_lines_no_newline commands l :
  In l (source_lines commands) -> has_newline l = false.
Proof.
  rewrite source_lines_nonempty. unfold nonempty_lines, text_lines.
  intros H. apply filter_In in H. destruct H as [H _].
  apply (split_each_no_sep _ _ _ H).
Qed.

Lemma includes_trim_false p : forall s,
  includes p s = false -> includes p (trim s) = false.
Proof.
  assert (Hs : forall s, includes p s = false ->
                         includes p (trimStart s) = false).
  { induction s as [|c r IH]; simpl; intros H; [reflexivity|].
    apply orb_false_elim in H. destruct H as [Hc Hr].
    destruct (is_space c); [auto | simpl; rewrite Hc, Hr; reflexivity]. }
  assert (He : forall s, includes p s = false ->
                         includes p (trimEnd s) = false).
  { induction s as [|c r IH]; simpl; intros H; [reflexivity|].
    apply orb_false_elim in H. destruct H as [Hc Hr].
    destruct (is_space c && is_empty (trimEnd r)); [reflexivity|].
    simpl. rewrite Hc, (IH Hr). reflexivity. }
  intros s H. unfold trim. auto.
Qed.

Lemma all_hex_no_newline : forall s, all_hex s = true -> has_newline s = false.
Proof.
  unfold has_newline. induction s as [|c r IH]; simpl; intros H;
    [reflexivity|].
  destruct (digit_value 16 c) eqn:Hd; [| discriminate].
  rewrite (IH H), orb_false_r.
  unfold is_newline. destruct (Ascii.eqb c LF) eqn:E; [| reflexivity].
  apply Ascii.eqb_eq in E. subst c. discriminate Hd.
Qed.

Lemma address_text_no_newline al i :
  has_newline (address_text al i) = false.
Proof.
  unfold address_text, padStart, has_newline. simpl.
  rewrite includes_app.
  fold (has_newline (repeat_char "0" (N.to_nat al
          - String.length (toString16 (N.of_nat (i * 4)))))).
  fold (has_newline (toString16 (N.of_nat (i * 4)))).
  rewrite !all_hex_no_newline; [reflexivity | |].
  - apply all_hex_to_hex. reflexivity.
  - apply all_hex_zeros.
Qed.

(** The lines [Encode.run] pushes are clean, unless a bare line is the
    missing binary text of a substitute. *)
Lemma Encode_output_line_clean Instruction args al i text v l :
  clean_codec Instruction ->
  fill_not_bare args ->
  has_newline text = false ->
  slot_of Instruction args fill_without_bin text v ->
  Encode.output_line args al i text v = Some l ->
  exists s, l = Some s /\ clean s.
Proof.
  intros Hcodec Hbare Htext Hslot Hout.
  assert (Htrim : has_newline (" [ " ++ trim text ++ " ]") = false).
  { unfold has_newline. simpl. rewrite includes_app.
    rewrite (includes_trim_false _ _ Htext). reflexivity. }
  assert (Hinterp : clean (inst_hex v)
                    /\ clean (interpolate (inst_bin v))
                    /\ (ignoreIllegal args = false ->
                        inst_bin v = Some (interpolate (inst_bin v)))).
  { unfold slot_of in Hslot.
    destruct (Instruction text (isa args)) as [e|] eqn:E.
    - subst v. destruct (Hcodec _ _ _ E) as [Hh Hb]. simpl. auto.
    - destruct Hslot as [Hi ->]. simpl.
      split; [split; reflexivity|]. split; [split; reflexivity|].
      congruence. }
  destruct Hinterp as [[Hhe Hhn] [[Hbe Hbn] Hsome]].
  pose proof (address_text_no_newline al i) as Haddr.
  assert (Happ : forall a b, has_newline a = false -> has_newline b = false ->
                             has_newline (a ++ b) = false).
  { intros a b Ha Hb. unfold has_newline in *.
    rewrite includes_app, Ha, Hb. reflexivity. }
  assert (Hcolon : forall b, has_newline b = false ->
                             clean (address_text al i ++ ": " ++ b)).
  { intros b Hb. apply clean_app_l; [reflexivity | exact Haddr |].
    apply (Happ ": " b eq_refl Hb). }
  unfold Encode.output_line in Hout.
  destruct (outputMode args) eqn:Hm; [discriminate Hout | |];
    destruct (showAddr args) eqn:Ha, (showInput args) eqn:Hi;
    simpl in Hout; inversion Hout; subst l; clear Hout;
    try (eexists; split; [reflexivity|]; apply Hcolon; auto; fail);
    try (eexists; split; [reflexivity|];
         apply clean_app_l; auto; fail);
    try (eexists; split; [reflexivity|]; split; assumption).
  destruct Hbare as [Hb | [Hb | [Hb | Hb]]]; try congruence.
  rewrite (Hsome Hb). eexists. split; [reflexivity|]. split; assumption.
Qed.

Lemma Encode_output_from_clean Instruction args al :
  clean_codec Instruction ->
  fill_not_bare args ->
  outputMode args <> RawBytes ->
  forall rest i vs,
    Forall (fun t => has_newline t = false) rest ->
    slots_from (fun _ => slot_of Instruction args fill_without_bin) i rest vs ->
    exists ls,
      output_from (Encode.output_line args al) i rest vs = map Some ls
      /\ Forall clean ls
      /\ List.length ls = List.length rest.
Proof.
  intros Hcodec Hbare Hmode.
  induction rest as [|t r IH]; intros i [|v vs] Hnl Hs; simpl in Hs;
    try contradiction.
  - exists []. simpl. auto.
  - destruct Hs as [Hv Hr]. inversion Hnl as [|? ? Ht Hrest]; subst.
    destruct (IH (S i) vs Hrest Hr) as [ls [Hls [Hclean Hlen]]].
    simpl. rewrite Hls.
    destruct (Encode.output_line args al i t v) as [l|] eqn:Hout.
    + destruct (Encode_output_line_clean _ _ _ _ _ _ _ Hcodec Hbare Ht Hv Hout)
        as [s [-> Hs]].
      exists (s :: ls). simpl. repeat split; auto.
    + exfalso. unfold Encode.output_line in Hout.
      destruct (outputMode args); [congruence | discriminate | discriminate].
Qed.

(** X3: where the substitute without binary text cannot end up as a
    bare line, the text [Encode.run] returns has exactly one clean line
    an instruction and no line feed at its end. *)
Lemma Encode_text_lines Instruction commands args bytes :
  clean_codec Instruction ->
  fill_not_bare args ->
  outputMode args <> RawBytes ->
  outcome (Encode.run Instruction commands args) = Ok bytes ->
  exists text ls,
    bytes = Utils.strToByteArray text
    /\ is_text_of_lines text ls
    /\ List.length ls = List.length (source_lines commands).
Proof.
  intros Hcodec Hbare Hmode H. apply Encode_run_ok in H.
  destruct H as [vs [Hs Hb]].
  assert (Hnl : Forall (fun t => has_newline t = false)
                  (source_lines commands)).
  { apply Forall_forall. intros t Ht.
    apply (source_lines_no_newline commands t Ht). }
  destruct (Encode_output_from_clean Instruction args
              (ceil_log16 (N.of_nat (List.length (source_lines commands) * 4)))
              Hcodec Hbare Hmode _ 0 vs Hnl Hs)
    as [ls [Hls [Hclean Hlen]]].
  exists (join nl (map Some ls)), ls.
  split; [| split; [split; [reflexivity | exact Hclean] | exact Hlen]].
  subst bytes. rewrite Hls.
  destruct (outputMode args); [congruence | |]; reflexivity.
Qed.

Lemma to_bin_clean : forall len w, has_newline (to_bin len w) = false.
Proof.
  unfold has_newline. induction len as [|len IH]; intros w; simpl;
    [reflexivity|].
  rewrite IH. destruct (Z.testbit w (Z.of_nat len)); reflexivity.
Qed.

(** The codec written from the specification satisfies [clean_codec]. *)
Lemma Instruction_clean_codec : clean_codec Text.Instruction.
Proof.
  intros text isa e H.
  destruct (Instruction_hex_words text isa e H) as [Hlen Hhex].
  split.
  - split; [destruct (hex e); [discriminate Hlen | reflexivity]|].
    apply all_hex_no_newline, Hhex.
  - unfold Text.Instruction in H.
    destruct (filter _ _) as [|name operand_tokens]; [discriminate H|].
    destruct (parse_operands operand_tokens) as [ops|]; [| discriminate H].
    destruct (encode name ops isa all_extensions) as [w|];
      [| discriminate H].
    inversion H; subst e. simpl. unfold bin_of_word.
    split; [reflexivity | apply to_bin_clean].
Qed.

(** ** The two substitutes for a refused line *)

Lemma fill_patterns :
  Hex.fromHex (inst_hex fill_without_bin) = [255; 255; 255; 255]%N
  /\ inst_bin fill_without_bin = None
  /\ Hex.fromHex (inst_hex fill_with_bin) = [255; 255; 255; 255]%N
  /\ inst_bin fill_with_bin = Some (repeat_char "1" 32).
Proof. repeat split. Qed.

(** ** Programs without labels *)

(** On lines without a colon the classification pass of [EncodeLabels]
    keeps every line, trimmed, as an instruction: instruction [k] is the
    k-th non-empty line, as in [Encode.run]. *)
Lemma parse_loop_without_labels : forall codes i p,
  Forall (fun code => includes is_colon code = false) codes ->
  exists lm,
    EncodeLabels.parse_loop i codes p
    = Ok {| EncodeLabels.insts := (EncodeLabels.insts p ++ map trim codes)%list;
            EncodeLabels.refList := EncodeLabels.refList p;
            EncodeLabels.lineMap := lm |}.
Proof.
  induction codes as [|code rest IH]; intros i p H.
  - exists (EncodeLabels.lineMap p). simpl. rewrite app_nil_r.
    destruct p; reflexivity.
  - inversion H as [|? ? Hc Hrest]; subst. simpl.
    unfold EncodeLabels.classify at 1. rewrite Hc. cbn [negb].
    match goal with
    | |- context [EncodeLabels.parse_loop (S i) rest ?p'] =>
        destruct (IH (S i) p' Hrest) as [lm Hlm]
    end.
    exists lm. rewrite Hlm. simpl. rewrite <- app_assoc. reflexivity.
Qed.

Lemma parseRef_without_labels commands :
  Forall (fun code => includes is_colon code = false) (source_lines commands) ->
  exists lm,
    EncodeLabels.parseRef commands
    = Ok {| EncodeLabels.insts := map trim (nonempty_lines commands);
            EncodeLabels.refList := [];
            EncodeLabels.lineMap := lm |}.
Proof.
  intros H. unfold EncodeLabels.parseRef.
  destruct (parse_loop_without_labels _ 0 EncodeLabels.nothing_parsed H)
    as [lm Hlm].
  exists lm. rewrite Hlm, source_lines_nonempty. reflexivity.
Qed.

(** * Further properties of the RISC-V operations *)

(** ** The loop of [Decode.run] *)

Section DecodeLoop.

Variable Instruction : DecodeCodec.

Lemma Decode_loop_step args al bytes count i out log :
  Decode.loop Instruction args al bytes (S count) i out log
  = let instHex := Words.word bytes i in
    match Instruction instHex (Words.options args) with
    | Normal d =>
        Decode.loop Instruction args al bytes count (S i)
          (out ++ [Decode.output_line args al i instHex (asm d)])%list
          (log ++ [instHex])%list
    | Throw message =>
        if Decode.ignoreIllegal args then
          Decode.loop Instruction args al bytes count (S i)
            (out ++ [Decode.output_line args al i instHex Decode.illegal_text])%list
            (log ++ [instHex])%list
        else ((log ++ [instHex])%list,
              Err (ErrorAtAddress
                     (padStart (toString16 (N.of_nat (i * 4))) (N.to_nat al))
                     message))
    end.
Proof.
  simpl. unfold bind, Decode.decode_slot, bind, construct, Words.word,
    Words.options.
  destruct (Instruction _ _); [reflexivity|].
  destruct (Decode.ignoreIllegal args); reflexivity.
Qed.

Lemma Decode_loop_ignoring args al bytes : forall count i out log,
  Decode.ignoreIllegal args = true ->
  Decode.loop Instruction args al bytes count i out log
  = ((log ++ map (Words.word bytes) (seq i count))%list,
     Ok (out ++ map (fun j =>
                       Decode.output_line args al j (Words.word bytes j)
                         (Words.shown Instruction args (Words.word bytes j)))
                  (seq i count))%list).
Proof.
  induction count as [|count IH]; intros i out log Hi.
  - simpl. rewrite !app_nil_r. reflexivity.
  - rewrite Decode_loop_step. cbv zeta. rewrite Hi.
    simpl seq. simpl map. unfold Words.shown at 1.
    destruct (Instruction (Words.word bytes i) (Words.options args));
      rewrite IH by exact Hi; rewrite <- !app_assoc; reflexivity.
Qed.

Lemma Decode_loop_error args al bytes : forall count i out log log' e,
  Decode.loop Instruction args al bytes count i out log = (log', Err e) ->
  exists k message,
    k < count
    /\ Instruction (Words.word bytes (i + k)) (Words.options args)
       = Throw message
    /\ (forall j, j < k ->
          exists d, Instruction (Words.word bytes (i + j)) (Words.options args)
                    = Normal d)
    /\ Decode.ignoreIllegal args = false
    /\ e = ErrorAtAddress
             (padStart (toString16 (N.of_nat ((i + k) * 4))) (N.to_nat al))
             message
    /\ log' = (log ++ map (Words.word bytes) (seq i (S k)))%list.
Proof.
  induction count as [|count IH]; intros i out log log' e H.
  - discriminate.
  - rewrite Decode_loop_step in H. cbv zeta in H.
    destruct (Instruction (Words.word bytes i) (Words.options args))
      as [d | message] eqn:Hc.
    + apply IH in H. destruct H as [k [m [Hk [Ht [Hb [Hi [He Hl]]]]]]].
      exists (S k), m.
      replace (i + S k) with (S i + k) by lia.
      split; [lia|]. split; [exact Ht|]. split.
      { intros [|j] Hj.
        - rewrite Nat.add_0_r. eauto.
        - replace (i + S j) with (S i + j) by lia. apply Hb. lia. }
      split; [exact Hi|]. split; [exact He|].
      rewrite Hl, <- app_assoc. reflexivity.
    + destruct (Decode.ignoreIllegal args) eqn:Hi.
      * rewrite Decode_loop_ignoring in H by exact Hi. discriminate.
      * inversion H; subst. exists 0, message. rewrite Nat.add_0_r.
        split; [lia|]. split; [exact Hc|]. split; [intros j Hj; lia|].
        split; [reflexivity|]. split; reflexivity.
Qed.

End DecodeLoop.



Theorem Decode_stops_at_first_refusal :
  forall (Instruction : DecodeCodec) (bytes : list N) (args : Decode.Args)
         (e : OperationError),
    outcome (Decode.run Instruction bytes args) = Err e ->
    let n := List.length bytes / 4 in
    let w := N.to_nat (ceil_log16 (N.of_nat (n * 4))) in
    (List.length bytes mod 4 <> 0
     /\ e = MisalignedInput
     /\ calls (Decode.run Instruction bytes args) = [])
    \/ exists k message digits,
         List.length bytes mod 4 = 0
         /\ k < n
         /\ Instruction (Words.word bytes k) (Words.options args)
            = Throw message
         /\ (forall j, j < k ->
               exists d,
                 Instruction (Words.word bytes j) (Words.options args)
                 = Normal d)
         /\ Decode.ignoreIllegal args = false
         /\ e = ErrorAtAddress digits message
         /\ address_column w (N.of_nat (k * 4)) ("0x" ++ digits)
         /\ calls (Decode.run Instruction bytes args)
            = map (Words.word bytes) (seq 0 (S k)).
Proof.
  intros Instruction bytes args e H n w.
  unfold outcome, calls, Decode.run in *.
  destruct (Nat.eqb (List.length bytes mod 4) 0) eqn:E; cbn [negb] in *.
  - right. apply Nat.eqb_eq in E. unfold bind in *. fold n in H |- *.
    destruct (Decode.loop Instruction args _ bytes n 0 [] [])
      as [log' [out | err]] eqn:Hloop; [discriminate H|].
    simpl in H. inversion H; subst err.
    apply Decode_loop_error in Hloop.
    destruct Hloop as [k [m [Hk [Ht [Hb [Hi [He Hl]]]]]]].
    simpl in Ht, He, Hl.
    exists k, m, (padStart (toString16 (N.of_nat (k * 4))) w).
    split; [exact E|]. split; [exact Hk|]. split; [exact Ht|].
    split; [exact Hb|]. split; [exact Hi|]. split; [exact He|].
    split; [| exact Hl].
    apply (address_text_column n k Hk).
  - left. apply Nat.eqb_neq in E. inversion H. auto.
Qed.

Lemma Decode_stops_at_first_refusal_witness :
  exists k message digits,
    List.length [0; 0; 0; 19; 255; 255; 255; 255; 0; 0; 0; 19]%N mod 4 = 0
    /\ k < 3
    /\ Disassemble (Words.word [0; 0; 0; 19; 255; 255; 255; 255; 0; 0; 0; 19]%N k)
         (Words.options (Decode.mkArgs AUTO false true false false false))
       = Throw message
    /\ (forall j, j < k ->
          exists d,
            Disassemble
              (Words.word [0; 0; 0; 19; 255; 255; 255; 255; 0; 0; 0; 19]%N j)
              (Words.options (Decode.mkArgs AUTO false true false false false))
            = Normal d)
    /\ Decode.ignoreIllegal (Decode.mkArgs AUTO false true false false false)
       = false
    /\ ErrorAtAddress "4" "Illegal instruction: no table entry matches the word"
       = ErrorAtAddress digits message
    /\ address_column 1 (N.of_nat (k * 4)) ("0x" ++ digits)
    /\ calls (Decode.run Disassemble
                [0; 0; 0; 19; 255; 255; 255; 255; 0; 0; 0; 19]%N
                (Decode.mkArgs AUTO false true false false false))
       = map (Words.word [0; 0; 0; 19; 255; 255; 255; 255; 0; 0; 0; 19]%N)
           (seq 0 (S k)).
Proof.
  destruct (Decode_stops_at_first_refusal Disassemble
              [0; 0; 0; 19; 255; 255; 255; 255; 0; 0; 0; 19]%N
              (Decode.mkArgs AUTO false true false false false)
              (ErrorAtAddress "4" "Illegal instruction: no table entry matches the word")
              eq_refl) as [[H _] | H].
  - exfalso. apply H. reflexivity.
  - exact H.
Defined.

(** ** The classification pass, line by line *)

Lemma own_set_other : forall refs name value other,
  other <> name ->
  EncodeLabels.own (EncodeLabels.set refs name value) other
  = EncodeLabels.own refs other.
Proof.
  induction refs as [|[k v] rest IH]; intros name value other Hne; simpl.
  - destruct (String.eqb name other) eqn:E; [| reflexivity].
    apply String.eqb_eq in E. congruence.
  - destruct (String.eqb k name) eqn:E; simpl.
    + apply String.eqb_eq in E. subst k.
      destruct (String.eqb name other) eqn:E'; [| reflexivity].
      apply String.eqb_eq in E'. congruence.
    + destruct (String.eqb k other); [reflexivity | apply IH, Hne].
Qed.

Lemma line_of_set_line_same : forall m k l,
  EncodeLabels.line_of (EncodeLabels.set_line m k l) k = Some l.
Proof.
  induction m as [|[k0 v] rest IH]; intros k l; simpl.
  - rewrite Nat.eqb_refl. reflexivity.
  - destruct (Nat.eqb k0 k) eqn:E; simpl; rewrite E; auto.
Qed.

Lemma line_of_set_line_other : forall m k l k',
  k' <> k ->
  EncodeLabels.line_of (EncodeLabels.set_line m k l) k'
  = EncodeLabels.line_of m k'.
Proof.
  induction m as [|[k0 v] rest IH]; intros k l k' Hne; simpl.
  - destruct (Nat.eqb k k') eqn:E; [| reflexivity].
    apply Nat.eqb_eq in E. congruence.
  - destruct (Nat.eqb k0 k) eqn:E; simpl.
    + apply Nat.eqb_eq in E. subst k0.
      destruct (Nat.eqb k k') eqn:E'; [| reflexivity].
      apply Nat.eqb_eq in E'. congruence.
    + destruct (Nat.eqb k0 k'); [reflexivity | apply IH, Hne].
Qed.

Lemma get_undefined_own refs name :
  EncodeLabels.get refs name = EncodeLabels.Undefined ->
  EncodeLabels.own refs name = None.
Proof.
  unfold EncodeLabels.get.
  destruct (EncodeLabels.own refs name); [discriminate | reflexivity].
Qed.

(** What a step that succeeds adds. *)
Lemma classify_effect i code p p' :
  EncodeLabels.classify i code p = Ok p' ->
  EncodeLabels.insts p'
  = (EncodeLabels.insts p
     ++ match Labels.instruction_of code with Some t => [t] | None => [] end)%list
  /\ EncodeLabels.lineMap p'
     = match Labels.instruction_of code with
       | Some _ =>
           EncodeLabels.set_line (EncodeLabels.lineMap p)
             (List.length (EncodeLabels.insts p)) (i + 1)
       | None => EncodeLabels.lineMap p
       end
  /\ EncodeLabels.refList p'
     = match label_of code with
       | Some name =>
           EncodeLabels.set (EncodeLabels.refList p) name
             (List.length (EncodeLabels.insts p) * 4)
       | None => EncodeLabels.refList p
       end
  /\ (forall name, label_of code = Some name ->
        EncodeLabels.own (EncodeLabels.refList p) name = None).
Proof.
  unfold EncodeLabels.classify, label_of, Labels.instruction_of. intros H.
  destruct (includes is_colon code) eqn:Hc; cbn [negb] in H.
  - set (name := hd "" (split_each is_colon (trim code))) in *.
    destruct (EncodeLabels.get (EncodeLabels.refList p) name) eqn:Hg;
      try discriminate H.
    destruct (starts_with is_digit name); [discriminate H|].
    apply get_undefined_own in Hg.
    destruct (endsWith is_colon (trim code)); cbn [negb] in H.
    + inversion H; subst p'; simpl. rewrite app_nil_r.
      repeat split; try reflexivity. intros n Hn. congruence.
    + rewrite nth_error_map.
      destruct (nth_error (split_each is_colon (trim code)) 1) as [piece|];
        [| discriminate H].
      inversion H; subst p'; simpl.
      repeat split; try reflexivity. intros n Hn. congruence.
  - inversion H; subst p'; simpl.
    repeat split; try reflexivity. intros n Hn. discriminate Hn.
Qed.

Lemma instructions_app a b :
  Labels.instructions (a ++ b)
  = (Labels.instructions a ++ Labels.instructions b)%list.
Proof. unfold Labels.instructions. apply flat_map_app. Qed.

Lemma instructions_before_app done rest j :
  j <= List.length done ->
  Labels.instructions_before (done ++ rest) j
  = Labels.instructions_before done j.
Proof.
  intros Hj. unfold Labels.instructions_before.
  rewrite firstn_app. replace (j - List.length done) with 0 by lia.
  simpl. rewrite app_nil_r. reflexivity.
Qed.

Lemma instructions_before_all done rest :
  Labels.instructions_before (done ++ rest) (List.length done)
  = List.length (Labels.instructions done).
Proof.
  rewrite instructions_before_app by lia.
  unfold Labels.instructions_before. rewrite firstn_all. reflexivity.
Qed.

Lemma nth_error_app_Some {A} (l l' : list A) j x :
  nth_error l j = Some x -> nth_error (l ++ l') j = Some x.
Proof.
  intros H. rewrite nth_error_app1; [exact H|].
  apply nth_error_Some. congruence.
Qed.

Lemma classify_tracks done code p p' :
  Labels.tracks done p ->
  EncodeLabels.classify (List.length done) code p = Ok p' ->
  Labels.tracks (done ++ [code]) p'.
Proof.
  intros [Hi [Hl [Hn [Hr Hd]]]] Hc.
  destruct (classify_effect _ _ _ _ Hc) as [Ei [El [Er Hfresh]]].
  assert (Hlen : List.length (EncodeLabels.insts p)
                 = List.length (Labels.instructions done))
    by (rewrite Hi; reflexivity).
  unfold Labels.tracks. split; [| split; [| split; [| split]]].
  - rewrite Ei, Hi, instructions_app. simpl. rewrite app_nil_r. reflexivity.
  - intros k Hk. rewrite Ei, length_app in Hk.
    destruct (Nat.lt_ge_cases k (List.length (EncodeLabels.insts p)))
      as [Hlt | Hge].
    + destruct (Hl k Hlt) as [j [c [Hj [Hc' [Ho Hb]]]]].
      exists j, c.
      assert (Hjl : j < List.length done)
        by (apply nth_error_Some; congruence).
      split; [| split; [| split]].
      * rewrite El. destruct (Labels.instruction_of code); [| exact Hj].
        rewrite line_of_set_line_other by lia. exact Hj.
      * apply nth_error_app_Some, Hc'.
      * rewrite Ei, nth_error_app1 by exact Hlt. exact Ho.
      * rewrite instructions_before_app by lia. exact Hb.
    + destruct (Labels.instruction_of code) as [t|] eqn:Ht;
        simpl in Hk; [| lia].
      assert (k = List.length (EncodeLabels.insts p)) by lia. subst k.
      exists (List.length done), code.
      split; [| split; [| split]].
      * rewrite El. apply line_of_set_line_same.
      * rewrite nth_error_app2, Nat.sub_diag by lia. reflexivity.
      * rewrite Ei, nth_error_app2, Nat.sub_diag by lia. exact Ht.
      * rewrite instructions_before_all. symmetry. exact Hlen.
  - intros k Hk. rewrite Ei, length_app in Hk. rewrite El.
    destruct (Labels.instruction_of code); simpl in Hk.
    + rewrite line_of_set_line_other by lia. apply Hn. lia.
    + apply Hn. lia.
  - intros i c name Hc' Hname.
    destruct (Nat.lt_ge_cases i (List.length done)) as [Hlt | Hge].
    + rewrite nth_error_app1 in Hc' by exact Hlt.
      rewrite instructions_before_app by lia.
      pose proof (Hr i c name Hc' Hname) as Hown.
      rewrite Er. destruct (label_of code) as [name'|] eqn:Hl';
        [| exact Hown].
      rewrite own_set_other; [exact Hown|].
      intros ->. rewrite (Hfresh name' eq_refl) in Hown. discriminate.
    + rewrite nth_error_app2 in Hc' by exact Hge.
      destruct (i - List.length done) as [|d] eqn:Hd'; simpl in Hc';
        [| destruct d; discriminate].
      inversion Hc'; subst c.
      assert (i = List.length done) by lia. subst i.
      rewrite Er, Hname, own_set_same, instructions_before_all, Hlen.
      reflexivity.
  - intros name address Hown. rewrite Er in Hown.
    destruct (label_of code) as [name'|] eqn:Hl'.
    + destruct (string_dec name name') as [-> | Hne].
      * exists (List.length done), code.
        rewrite nth_error_app2, Nat.sub_diag by lia. auto.
      * rewrite own_set_other in Hown by exact Hne.
        destruct (Hd _ _ Hown) as [i [c [Hc' Hn']]].
        exists i, c. split; [apply nth_error_app_Some, Hc' | exact Hn'].
    + destruct (Hd _ _ Hown) as [i [c [Hc' Hn']]].
      exists i, c. split; [apply nth_error_app_Some, Hc' | exact Hn'].
Qed.

Lemma parse_loop_tracks : forall rest done p p',
  Labels.tracks done p ->
  EncodeLabels.parse_loop (List.length done) rest p = Ok p' ->
  Labels.tracks (done ++ rest) p'.
Proof.
  induction rest as [|code rest IH]; intros done p p' Ht H.
  - simpl in H. inversion H; subst p'. rewrite app_nil_r. exact Ht.
  - simpl in H.
    destruct (EncodeLabels.classify (List.length done) code p)
      as [p1|] eqn:Hc; [| discriminate H].
    pose proof (classify_tracks _ _ _ _ Ht Hc) as Ht1.
    replace (done ++ code :: rest)%list with ((done ++ [code]) ++ rest)%list
      by (rewrite <- app_assoc; reflexivity).
    apply (IH _ p1 p' Ht1).
    rewrite length_app, Nat.add_1_r. exact H.
Qed.

Lemma tracks_nothing : Labels.tracks [] EncodeLabels.nothing_parsed.
Proof.
  unfold Labels.tracks. simpl. split; [reflexivity|].
  split; [intros k Hk; lia|]. split; [reflexivity|].
  split; [intros [|i] c n H; discriminate H|]. intros n a H. discriminate H.
Qed.

Lemma parseRef_tracks commands p :
  EncodeLabels.parseRef commands = Ok p ->
  Labels.tracks (source_lines commands) p.
Proof.
  intros H. apply (parse_loop_tracks _ [] _ _ tracks_nothing H).
Qed.

(** ** The order of the label table *)

Lemma set_fresh : forall refs name value,
  EncodeLabels.own refs name = None ->
  EncodeLabels.set refs name value = (refs ++ [(name, value)])%list.
Proof.
  induction refs as [|[k v] rest IH]; intros name value H; simpl in *.
  - reflexivity.
  - destruct (String.eqb k name); [discriminate H|].
    rewrite IH by exact H. reflexivity.
Qed.

Lemma parse_loop_names : forall codes i p p',
  EncodeLabels.parse_loop i codes p = Ok p' ->
  map fst (EncodeLabels.refList p')
  = (map fst (EncodeLabels.refList p) ++ Labels.names codes)%list.
Proof.
  induction codes as [|code rest IH]; intros i p p' H; simpl in H.
  - inversion H; subst p'. simpl. rewrite app_nil_r. reflexivity.
  - destruct (EncodeLabels.classify i code p) as [p1|] eqn:Hc;
      [| discriminate H].
    rewrite (IH _ _ _ H).
    destruct (classify_effect _ _ _ _ Hc) as [_ [_ [Er Hfresh]]].
    rewrite Er. unfold Labels.names. simpl.
    destruct (label_of code) as [name|]; [| reflexivity].
    rewrite set_fresh by (apply Hfresh; reflexivity).
    rewrite map_app, <- app_assoc. reflexivity.
Qed.

(** X4: the instructions [parseRef] returns are the instructions of the
    non-empty lines, in order, and the line map gives for instruction
    [k] the position, counted from 1, of the line that holds it among
    the non-empty lines; lines that hold a label only are counted. *)
Theorem parseRef_instructions_and_lines :
  forall (commands : string) (p : EncodeLabels.Parsed),
    EncodeLabels.parseRef commands = Ok p ->
    EncodeLabels.insts p = Labels.instructions (source_lines commands)
    /\ forall k inst,
         nth_error (EncodeLabels.insts p) k = Some inst ->
         exists j code,
           EncodeLabels.line_of (EncodeLabels.lineMap p) k = Some (j + 1)
           /\ nth_error (source_lines commands) j = Some code
           /\ Labels.instruction_of code = Some inst
           /\ Labels.instructions_before (source_lines commands) j = k.
Proof.
  intros commands p H.
  destruct (parseRef_tracks _ _ H) as [Hi [Hl _]].
  split; [exact Hi|].
  intros k inst Hk.
  assert (Hlt : k < List.length (EncodeLabels.insts p))
    by (apply nth_error_Some; congruence).
  destruct (Hl k Hlt) as [j [code [Hj [Hc [Ho Hb]]]]].
  exists j, code. rewrite Ho. auto.
Qed.

Lemma parseRef_instructions_and_lines_witness :
  let commands :=
    "start:" ++ nl ++ nl ++ "addi x1, x1, 1" ++ nl
    ++ "back: beq x1, x2, start" in
  exists p,
    EncodeLabels.parseRef commands = Ok p
    /\ EncodeLabels.insts p = ["addi x1, x1, 1"; "beq x1, x2, start"]
    /\ EncodeLabels.line_of (EncodeLabels.lineMap p) 1 = Some 3
    /\ EncodeLabels.insts p = Labels.instructions (source_lines commands)
    /\ forall k inst,
         nth_error (EncodeLabels.insts p) k = Some inst ->
         exists j code,
           EncodeLabels.line_of (EncodeLabels.lineMap p) k = Some (j + 1)
           /\ nth_error (source_lines commands) j = Some code
           /\ Labels.instruction_of code = Some inst
           /\ Labels.instructions_before (source_lines commands) j = k.
Proof.
  intros commands.
  exists {| EncodeLabels.insts := ["addi x1, x1, 1"; "beq x1, x2, start"];
            EncodeLabels.refList := [("start", 0); ("back", 4)];
            EncodeLabels.lineMap := [(0, 2); (1, 3)] |}.
  split; [reflexivity|]. split; [reflexivity|]. split; [reflexivity|].
  apply (parseRef_instructions_and_lines commands). reflexivity.
Defined.

(** X5: the label table of [parseRef] lists the labels in the order of
    the lines that define them; the address of a label is 4 times the
    number of instructions before its line, and the table holds no other
    name. *)
Theorem parseRef_label_addresses :
  forall (commands : string) (p : EncodeLabels.Parsed),
    EncodeLabels.parseRef commands = Ok p ->
    map fst (EncodeLabels.refList p) = Labels.names (source_lines commands)
    /\ (forall i name,
          defines commands i name ->
          EncodeLabels.own (EncodeLabels.refList p) name
          = Some (Labels.instructions_before (source_lines commands) i * 4))
    /\ (forall name address,
          EncodeLabels.own (EncodeLabels.refList p) name = Some address ->
          exists i, defines commands i name).
Proof.
  intros commands p H.
  destruct (parseRef_tracks _ _ H) as [_ [_ [_ [Hr Hd]]]].
  split; [apply (parse_loop_names _ _ _ _ H) | split].
  - intros i name [code [Hc Hn]]. apply (Hr i code name Hc Hn).
  - intros name address Hown.
    destruct (Hd _ _ Hown) as [i [code [Hc Hn]]].
    exists i, code. auto.
Qed.

Lemma parseRef_label_addresses_witness :
  let commands :=
    "start:" ++ nl ++ nl ++ "addi x1, x1, 1" ++ nl
    ++ "back: beq x1, x2, start" ++ nl ++ "end:" in
  exists p,
    EncodeLabels.parseRef commands = Ok p
    /\ EncodeLabels.refList p = [("start", 0); ("back", 4); ("end", 8)]
    /\ map fst (EncodeLabels.refList p) = Labels.names (source_lines commands)
    /\ (forall i name,
          defines commands i name ->
          EncodeLabels.own (EncodeLabels.refList p) name
          = Some (Labels.instructions_before (source_lines commands) i * 4))
    /\ (forall name address,
          EncodeLabels.own (EncodeLabels.refList p) name = Some address ->
          exists i, defines commands i name).
Proof.
  intros commands.
  exists {| EncodeLabels.insts := ["addi x1, x1, 1"; "beq x1, x2, start"];
            EncodeLabels.refList := [("start", 0); ("back", 4); ("end", 8)];
            EncodeLabels.lineMap := [(0, 2); (1, 3)] |}.
  split; [reflexivity|]. split; [reflexivity|].
  apply (parseRef_label_addresses commands). reflexivity.
Defined.

(** ** Two definitions of one name *)

Lemma own_keys : forall refs name,
  EncodeLabels.own refs name <> None <-> In name (map fst refs).
Proof.
  induction refs as [|[k v] rest IH]; intros name; simpl.
  - split; [congruence | tauto].
  - destruct (String.eqb_spec k name) as [-> | Hne].
    + split; [auto | discriminate].
    + rewrite IH. split; [auto | intros [H | H]; [contradiction | exact H]].
Qed.

Lemma inherited_spec name :
  existsb (String.eqb name) EncodeLabels.Object_prototype_keys = true
  <-> Labels.inherited name.
Proof.
  unfold Labels.inherited. rewrite existsb_exists. split.
  - intros [x [Hx He]]. apply String.eqb_eq in He. subst x. exact Hx.
  - intros H. exists name. split; [exact H | apply String.eqb_refl].
Qed.

Lemma inherited_no_digit name :
  Labels.inherited name -> starts_with is_digit name = false.
Proof.
  unfold Labels.inherited, EncodeLabels.Object_prototype_keys. simpl.
  intros H.
  repeat (destruct H as [<- | H]; [reflexivity|]). contradiction.
Qed.

(** What the table answers for a name after the lines [done]. *)
Lemma known_names refs done name :
  map fst refs = Labels.names done ->
  (known refs name <-> In name (Labels.names done) \/ Labels.inherited name).
Proof.
  intros Hk. unfold known, EncodeLabels.get. rewrite <- Hk, <- own_keys.
  rewrite <- inherited_spec.
  destruct (EncodeLabels.own refs name) as [v|].
  - split; [left; discriminate | discriminate].
  - destruct (existsb (String.eqb name) EncodeLabels.Object_prototype_keys).
    + split; [auto | discriminate].
    + split; [congruence | intros [H | H]; congruence].
Qed.

Lemma names_app a b :
  Labels.names (a ++ b) = (Labels.names a ++ Labels.names b)%list.
Proof. unfold Labels.names. apply flat_map_app. Qed.

Lemma known_or_not refs name : known refs name \/ ~ known refs name.
Proof.
  unfold known. destruct (EncodeLabels.get refs name);
    [left; discriminate | left; discriminate | right; congruence].
Qed.

(** One step of the pass on a line that defines a name. *)
Lemma classify_label i code p name :
  label_of code = Some name ->
  (known (EncodeLabels.refList p) name ->
   EncodeLabels.classify i code p = Err (DuplicateLabel (i + 1) name))
  /\ (~ known (EncodeLabels.refList p) name ->
      starts_with is_digit name = true ->
      EncodeLabels.classify i code p = Err (InvalidLabelName (i + 1) name))
  /\ (~ known (EncodeLabels.refList p) name ->
      starts_with is_digit name = false ->
      exists p', EncodeLabels.classify i code p = Ok p').
Proof.
  intros Hl. split; [apply classify_known, Hl|].
  unfold EncodeLabels.classify, known. unfold label_of in Hl.
  destruct (includes is_colon code) eqn:Hc; [| discriminate Hl].
  inversion Hl; subst name. cbn [negb].
  set (name := hd "" (split_each is_colon (trim code))) in *.
  split; intros Hk Hd; rewrite Hd;
    (destruct (EncodeLabels.get (EncodeLabels.refList p) name);
     [exfalso; apply Hk; discriminate
     | exfalso; apply Hk; discriminate |]).
  - reflexivity.
  - destruct (negb (endsWith is_colon (trim code))); [| eauto].
    rewrite <- includes_colon_trim in Hc.
    destruct (split_each_two is_colon (trim code) Hc) as [a [b [t Hs]]].
    rewrite Hs. simpl. eauto.
Qed.

(** The pass stops at the first line it refuses, with the error of that
    line, and only there. *)
Lemma parse_loop_refusal : forall rest done p,
  map fst (EncodeLabels.refList p) = Labels.names done ->
  (forall name, In name (Labels.names done) ->
                starts_with is_digit name = false) ->
  match EncodeLabels.parse_loop (List.length done) rest p with
  | Ok _ =>
      forall k code name,
        nth_error rest k = Some code -> label_of code = Some name ->
        ~ Labels.refused (done ++ firstn k rest) name
  | Err e =>
      exists k code name,
        nth_error rest k = Some code /\ label_of code = Some name
        /\ Labels.refused (done ++ firstn k rest) name
        /\ (forall k' code' name',
              k' < k -> nth_error rest k' = Some code' ->
              label_of code' = Some name' ->
              ~ Labels.refused (done ++ firstn k' rest) name')
        /\ e = Labels.error_of (List.length done + k) name
  end.
Proof.
  induction rest as [|code rest IH]; intros done p Hk Hnd.
  - simpl. intros [|k] c n H; discriminate H.
  - cbn [EncodeLabels.parse_loop].
    assert (Hrefused : forall name,
              Labels.refused done name
              <-> starts_with is_digit name = true
                  \/ known (EncodeLabels.refList p) name).
    { intros name. unfold Labels.refused.
      rewrite (known_names _ done name Hk). tauto. }
    assert (Hnext : forall p1,
              EncodeLabels.classify (List.length done) code p = Ok p1 ->
              (forall name, label_of code = Some name ->
                            ~ Labels.refused done name) ->
              match EncodeLabels.parse_loop (S (List.length done)) rest p1 with
              | Ok _ =>
                  forall k c n,
                    nth_error (code :: rest) k = Some c ->
                    label_of c = Some n ->
                    ~ Labels.refused (done ++ firstn k (code :: rest)) n
              | Err e =>
                  exists k c n,
                    nth_error (code :: rest) k = Some c /\ label_of c = Some n
                    /\ Labels.refused (done ++ firstn k (code :: rest)) n
                    /\ (forall k' c' n',
                          k' < k -> nth_error (code :: rest) k' = Some c' ->
                          label_of c' = Some n' ->
                          ~ Labels.refused
                              (done ++ firstn k' (code :: rest)) n')
                    /\ e = Labels.error_of (List.length done + k) n
              end).
    { intros p1 Hc Hfine.
      destruct (classify_effect _ _ _ _ Hc) as [_ [_ [Er Hfresh]]].
      assert (Hk1 : map fst (EncodeLabels.refList p1)
                    = Labels.names (done ++ [code])).
      { rewrite Er, names_app. unfold Labels.names at 2. simpl.
        destruct (label_of code) as [name|].
        - rewrite set_fresh by (apply Hfresh; reflexivity).
          rewrite map_app, Hk, app_nil_r. reflexivity.
        - rewrite Hk, app_nil_r. reflexivity. }
      assert (Hnd1 : forall name, In name (Labels.names (done ++ [code])) ->
                                  starts_with is_digit name = false).
      { intros name. rewrite names_app. unfold Labels.names at 2. simpl.
        rewrite in_app_iff. intros [H | H]; [apply Hnd, H|].
        destruct (label_of code) as [n|] eqn:Hl; simpl in H;
          [| contradiction].
        destruct H as [<- | H]; [| contradiction].
        destruct (starts_with is_digit n) eqn:Hd; [| reflexivity].
        exfalso. apply (Hfine n eq_refl). left. exact Hd. }
      specialize (IH (done ++ [code])%list p1 Hk1 Hnd1).
      rewrite length_app in IH. simpl in IH.
      replace (List.length done + 1) with (S (List.length done)) in IH by lia.
      destruct (EncodeLabels.parse_loop (S (List.length done)) rest p1)
        as [p2 | e].
      - intros [|k] c n Hn Hl; simpl in Hn.
        + inversion Hn; subst c. simpl. rewrite app_nil_r.
          apply (Hfine n Hl).
        + simpl. replace (done ++ code :: firstn k rest)%list
            with ((done ++ [code]) ++ firstn k rest)%list
            by (rewrite <- app_assoc; reflexivity).
          apply (IH k c n Hn Hl).
      - destruct IH as [k [c [n [Hn [Hl [Hr [Hfirst He]]]]]]].
        exists (S k), c, n. simpl.
        replace (done ++ code :: firstn k rest)%list
          with ((done ++ [code]) ++ firstn k rest)%list
          by (rewrite <- app_assoc; reflexivity).
        split; [exact Hn|]. split; [exact Hl|]. split; [exact Hr|].
        split; [| rewrite He; f_equal; lia].
        intros [|k'] c' n' Hlt Hn' Hl'; simpl in Hn'.
        + inversion Hn'; subst c'. simpl. rewrite app_nil_r.
          apply (Hfine n' Hl').
        + simpl. replace (done ++ code :: firstn k' rest)%list
            with ((done ++ [code]) ++ firstn k' rest)%list
            by (rewrite <- app_assoc; reflexivity).
          apply (Hfirst k' c' n' ltac:(lia) Hn' Hl'). }
    destruct (label_of code) as [name|] eqn:Hl.
    + destruct (classify_label (List.length done) code p name Hl)
        as [Hdup [Hinv Hok]].
      assert (Hstop : forall e,
                EncodeLabels.classify (List.length done) code p = Err e ->
                Labels.refused done name ->
                e = Labels.error_of (List.length done) name ->
                exists k c n,
                  nth_error (code :: rest) k = Some c /\ label_of c = Some n
                  /\ Labels.refused (done ++ firstn k (code :: rest)) n
                  /\ (forall k' c' n',
                        k' < k -> nth_error (code :: rest) k' = Some c' ->
                        label_of c' = Some n' ->
                        ~ Labels.refused
                            (done ++ firstn k' (code :: rest)) n')
                  /\ e = Labels.error_of (List.length done + k) n).
      { intros e _ Hr He. exists 0, code, name. simpl. rewrite app_nil_r.
        split; [reflexivity|]. split; [exact Hl|]. split; [exact Hr|].
        split; [intros k' c' n' Hlt; lia|].
        rewrite Nat.add_0_r. exact He. }
      destruct (known_or_not (EncodeLabels.refList p) name) as [Hkn | Hkn].
      * rewrite (Hdup Hkn).
        apply (Hstop _ (Hdup Hkn)); [apply Hrefused; right; exact Hkn|].
        unfold Labels.error_of.
        assert (Hd : starts_with is_digit name = false).
        { apply (known_names _ done name Hk) in Hkn.
          destruct Hkn as [H | H];
            [apply Hnd, H | apply inherited_no_digit, H]. }
        rewrite Hd. reflexivity.
      * destruct (starts_with is_digit name) eqn:Hd.
        -- rewrite (Hinv Hkn eq_refl).
           apply (Hstop _ (Hinv Hkn eq_refl));
             [apply Hrefused; left; exact Hd|].
           unfold Labels.error_of. rewrite Hd. reflexivity.
        -- destruct (Hok Hkn eq_refl) as [p1 Hc]. rewrite Hc.
           apply (Hnext p1 Hc). intros n Hn. inversion Hn; subst n.
           rewrite Hrefused. intros [H | H]; [congruence | contradiction].
    + destruct (EncodeLabels.classify (List.length done) code p)
        as [p1 | e] eqn:Hc.
      * apply (Hnext p1 eq_refl). intros n Hn. discriminate Hn.
      * destruct (classify_err _ _ _ _ Hc) as [n [Hn _]]. congruence.
Qed.

(** C6, as the code has it: when two lines define the same label name,
    [EncodeLabels.run] throws during the line-classification pass, before
    any line is handed to the codec.  It throws at the first line it
    refuses, which is the second of the two lines or an earlier one: a
    line whose label starts with a digit, is defined by an earlier line,
    or is a property of [Object.prototype].  The error carries the number
    of that line, counted from 1 among the non-empty lines, and its
    label; it is the invalid-name error when the label starts with a
    digit and the duplicate-label error otherwise.  When no label defined
    before the second of the two lines starts with a digit, it is the
    duplicate-label error. *)
Theorem C6_duplicate_label_stops_pass :
  forall (Instruction : EncodeCodec) (commands : string) (args : Args)
         (i j : nat) (name : string),
    i < j ->
    defines commands i name ->
    defines commands j name ->
    exists k refName,
      k <= j
      /\ Labels.first_refused (source_lines commands) k refName
      /\ EncodeLabels.run Instruction commands args []
         = ([], Err (Labels.error_of k refName))
      /\ label_error (Labels.error_of k refName)
      /\ (no_digit_before (source_lines commands) j ->
          Labels.error_of k refName = DuplicateLabel (k + 1) refName).
Proof.
  intros Instruction commands args i j name Hij [ci [Hi Hli]] [cj [Hj Hlj]].
  pose proof (parse_loop_refusal (source_lines commands) []
                EncodeLabels.nothing_parsed eq_refl
                ltac:(intros n H; contradiction H)) as H.
  cbn [List.length app] in H.
  assert (Hjr : Labels.refused (firstn j (source_lines commands)) name).
  { right. left. unfold Labels.names. apply in_flat_map.
    exists ci. split; [| rewrite Hli; left; reflexivity].
    apply nth_error_In with (n := i).
    rewrite nth_error_firstn.
    destruct (Nat.ltb_spec i j) as [_ | Hge]; [exact Hi | lia]. }
  unfold EncodeLabels.run, EncodeLabels.parseRef, bind, lift.
  destruct (EncodeLabels.parse_loop 0 (source_lines commands)
              EncodeLabels.nothing_parsed) as [p | e].
  - exfalso. apply (H j cj name Hj Hlj Hjr).
  - destruct H as [k [c [n [Hn [Hl [Hr [Hfirst He]]]]]]].
    simpl in He. subst e.
    assert (Hkj : k <= j).
    { destruct (Nat.le_gt_cases k j) as [Hle | Hgt]; [exact Hle|].
      exfalso. apply (Hfirst j cj name Hgt Hj Hlj Hjr). }
    exists k, n. split; [exact Hkj|].
    split; [split; [exists c; auto | split; [exact Hr | exact Hfirst]]|].
    split; [reflexivity|].
    unfold Labels.error_of.
    destruct (starts_with is_digit n) eqn:Hd.
    + split; [right; exact I|]. intros Hno. exfalso.
      destruct (Nat.eq_dec k j) as [-> | Hne].
      * assert (n = name) by congruence. subst n.
        assert (starts_with is_digit name = false)
          by (apply (Hno i ci name Hij Hi Hli)).
        congruence.
      * assert (starts_with is_digit n = false)
          by (apply (Hno k c n ltac:(lia) Hn Hl)).
        congruence.
    + split; [left; exact I | reflexivity].
Qed.

Lemma C6_duplicate_label_stops_pass_witness :
  exists k refName,
    k <= 4
    /\ Labels.first_refused
         (source_lines ("A:" ++ nl ++ "A:" ++ nl ++ "9:" ++ nl ++ "L:" ++ nl ++ "L:"))
         k refName
    /\ EncodeLabels.run Text.Instruction
         ("A:" ++ nl ++ "A:" ++ nl ++ "9:" ++ nl ++ "L:" ++ nl ++ "L:")
         (mkArgs AUTO RawBytes false false false) []
       = ([], Err (Labels.error_of k refName))
    /\ label_error (Labels.error_of k refName)
    /\ (no_digit_before
          (source_lines
             ("A:" ++ nl ++ "A:" ++ nl ++ "9:" ++ nl ++ "L:" ++ nl ++ "L:")) 4 ->
        Labels.error_of k refName = DuplicateLabel (k + 1) refName).
Proof.
  apply (C6_duplicate_label_stops_pass Text.Instruction
           ("A:" ++ nl ++ "A:" ++ nl ++ "9:" ++ nl ++ "L:" ++ nl ++ "L:")
           (mkArgs AUTO RawBytes false false false) 3 4 "L").
  - lia.
  - exists "L:". split; reflexivity.
  - exists "L:". split; reflexivity.
Defined.

(** C6 as stated fails.  In the first text two lines define [9], in the
    second two lines define [L] after a line that defines [9]: the error
    thrown is the invalid-name error of the first line, not the
    duplicate-label error. *)
Lemma C6_invalid_name_comes_first :
  (defines ("9:" ++ nl ++ "9:") 0 "9"
   /\ defines ("9:" ++ nl ++ "9:") 1 "9"
   /\ EncodeLabels.run Text.Instruction ("9:" ++ nl ++ "9:")
        (mkArgs AUTO RawBytes false false false) []
      = ([], Err (InvalidLabelName 1 "9")))
  /\ defines ("9:" ++ nl ++ "L:" ++ nl ++ "L:") 1 "L"
  /\ defines ("9:" ++ nl ++ "L:" ++ nl ++ "L:") 2 "L"
  /\ EncodeLabels.run Text.Instruction ("9:" ++ nl ++ "L:" ++ nl ++ "L:")
       (mkArgs AUTO RawBytes false false false) []
     = ([], Err (InvalidLabelName 1 "9")).
Proof.
  split; [split; [| split] | split; [| split]].
  - exists "9:". split; reflexivity.
  - exists "9:". split; reflexivity.
  - reflexivity.
  - exists "L:". split; reflexivity.
  - exists "L:". split; reflexivity.
  - reflexivity.
Qed.

(** ** References *)

Lemma deref_cases inst refs lineNum instAddr :
  EncodeLabels.deref inst refs lineNum instAddr
  = if negb (Labels.takes_label inst) then Ok inst
    else if EncodeLabels.is_numeric (Labels.target_of inst) then Ok inst
    else
      match EncodeLabels.get refs (Labels.target_of inst) with
      | EncodeLabels.Undefined =>
          Err (UndefinedLabel lineNum (Labels.target_of inst))
      | EncodeLabels.Own address =>
          Ok (join " " (map Some (removelast (split_plus is_token_sep inst)))
              ++ " " ++ toString10 (Z.of_nat address - Z.of_nat instAddr))
      | EncodeLabels.Inherited =>
          Ok (join " " (map Some (removelast (split_plus is_token_sep inst)))
              ++ " NaN")
      end.
Proof.
  unfold EncodeLabels.deref, Labels.takes_label, Labels.target_of.
  destruct (negb _); [reflexivity|].
  destruct (EncodeLabels.is_numeric _); [reflexivity|].
  destruct (EncodeLabels.get _ _); reflexivity.
Qed.

(** X6: in an instruction whose mnemonic is a branch or [jal] and whose
    last token is the name of a label, [deref] puts the distance in
    bytes from the instruction to the label in the place of the name:
    4 times the number of instructions before the line of the label,
    less 4 times the index of the instruction.  The other tokens are
    kept, joined by single spaces. *)
Theorem deref_label_offset :
  forall (commands : string) (p : EncodeLabels.Parsed) (k i : nat)
         (inst : string),
    EncodeLabels.parseRef commands = Ok p ->
    nth_error (EncodeLabels.insts p) k = Some inst ->
    Labels.takes_label inst = true ->
    EncodeLabels.is_numeric (Labels.target_of inst) = false ->
    defines commands i (Labels.target_of inst) ->
    EncodeLabels.deref inst (EncodeLabels.refList p)
      (EncodeLabels.line_of (EncodeLabels.lineMap p) k) (k * 4)
    = Ok (join " " (map Some (removelast (split_plus is_token_sep inst)))
          ++ " "
          ++ toString10
               (4 * Z.of_nat
                      (Labels.instructions_before (source_lines commands) i)
                - 4 * Z.of_nat k)).
Proof.
  intros commands p k i inst Hp Hk Ht Hn Hd.
  destruct (parseRef_tracks _ _ Hp) as [_ [_ [_ [Haddr _]]]].
  destruct Hd as [code [Hc Hl]].
  rewrite deref_cases, Ht, Hn. cbn [negb].
  unfold EncodeLabels.get. rewrite (Haddr _ _ _ Hc Hl).
  replace (4 * Z.of_nat
                 (Labels.instructions_before (source_lines commands) i)
           - 4 * Z.of_nat k)%Z
    with (Z.of_nat (Labels.instructions_before (source_lines commands) i * 4)
          - Z.of_nat (k * 4))%Z by lia.
  reflexivity.
Qed.

Lemma deref_label_offset_witness :
  let commands :=
    "beq x1, x2, done" ++ nl ++ "loop: addi x1, x1, 1" ++ nl
    ++ "JAL x0, loop" ++ nl ++ "done:" in
  EncodeLabels.deref "beq x1, x2, done" [("loop", 4); ("done", 12)] (Some 1) 0
  = Ok "beq x1 x2 12"
  /\ EncodeLabels.deref "JAL x0, loop" [("loop", 4); ("done", 12)] (Some 3) 8
     = Ok "JAL x0 -4".
Proof.
  intros commands. split.
  - apply (deref_label_offset commands
             {| EncodeLabels.insts :=
                  ["beq x1, x2, done"; "addi x1, x1, 1"; "JAL x0, loop"];
                EncodeLabels.refList := [("loop", 4); ("done", 12)];
                EncodeLabels.lineMap := [(0, 1); (1, 2); (2, 3)] |} 0 3);
      try reflexivity.
    exists "done:". split; reflexivity.
  - apply (deref_label_offset commands
             {| EncodeLabels.insts :=
                  ["beq x1, x2, done"; "addi x1, x1, 1"; "JAL x0, loop"];
                EncodeLabels.refList := [("loop", 4); ("done", 12)];
                EncodeLabels.lineMap := [(0, 1); (1, 2); (2, 3)] |} 2 1);
      try reflexivity.
    exists "loop: addi x1, x1, 1". split; reflexivity.
Defined.

Lemma inherited_known name :
  Labels.inherited name -> known [] name.
Proof.
  unfold Labels.inherited, known, EncodeLabels.get.
  cbn [EncodeLabels.own]. intros H.
  assert (E : existsb (String.eqb name) EncodeLabels.Object_prototype_keys
              = true).
  { apply existsb_exists. exists name. split; [exact H|].
    apply String.eqb_refl. }
  rewrite E. discriminate.
Qed.

(** X7: a line that defines a label whose name is a property of
    [Object.prototype], such as [toString] or [constructor], stops
    [EncodeLabels.run] in the classification pass, before any instruction
    reaches the codec, although the name is defined once: the table
    answers for the name through its prototype.  The error is the
    duplicate-label error unless an earlier label starts with a digit. *)
Theorem inherited_name_is_refused :
  forall (Instruction : EncodeCodec) (commands : string) (args : Args)
         (j : nat) (name : string),
    defines commands j name ->
    Labels.inherited name ->
    exists e,
      EncodeLabels.run Instruction commands args [] = ([], Err e)
      /\ label_error e
      /\ (no_digit_before (source_lines commands) j -> is_DuplicateLabel e).
Proof.
  intros Instruction commands args j name [code [Hc Hl]] Hin.
  destruct (parse_loop_known (source_lines commands) 0
              EncodeLabels.nothing_parsed j code name Hc Hl
              (inherited_known name Hin)) as [e [He [Hle Hd]]].
  exists e. split; [| split; assumption].
  unfold EncodeLabels.run, EncodeLabels.parseRef, bind, lift.
  rewrite He. reflexivity.
Qed.

Lemma inherited_name_is_refused_witness :
  exists e,
    EncodeLabels.run Text.Instruction
      ("addi x1, x1, 1" ++ nl ++ "toString: jal x0, toString")
      (mkArgs AUTO RawBytes true false false) []
    = ([], Err e)
    /\ label_error e
    /\ (no_digit_before
          (source_lines ("addi x1, x1, 1" ++ nl ++ "toString: jal x0, toString"))
          1 ->
        is_DuplicateLabel e).
Proof.
  apply (inherited_name_is_refused Text.Instruction
           ("addi x1, x1, 1" ++ nl ++ "toString: jal x0, toString")
           (mkArgs AUTO RawBytes true false false) 1 "toString").
  - exists "toString: jal x0, toString". split; reflexivity.
  - unfold Labels.inherited. simpl. tauto.
Defined.

(** ** The inverse table *)

Lemma labels_at_add_label : forall inv dest ref d,
  EncodeLabels.labels_at (EncodeLabels.add_label inv dest ref) d
  = if Nat.eqb dest d then
      Some (match EncodeLabels.labels_at inv d with
            | Some names => names ++ [ref]
            | None => [ref]
            end)%list
    else EncodeLabels.labels_at inv d.
Proof.
  induction inv as [|[k v] rest IH]; intros dest ref d; simpl.
  - destruct (Nat.eqb dest d); reflexivity.
  - destruct (Nat.eqb k dest) eqn:E; simpl.
    + apply Nat.eqb_eq in E. subst k.
      destruct (Nat.eqb dest d); reflexivity.
    + rewrite IH. destruct (Nat.eqb k d) eqn:E'; [| reflexivity].
      apply Nat.eqb_eq in E'. subst k. rewrite Nat.eqb_sym, E. reflexivity.
Qed.

Lemma invRef_fold : forall refs inv d,
  EncodeLabels.labels_at
    (fold_left (fun inv entry =>
                  EncodeLabels.add_label inv (snd entry) (fst entry)) refs inv)
    d
  = match EncodeLabels.labels_at inv d, Labels.names_at refs d with
    | None, [] => None
    | None, names => Some names
    | Some old, names => Some (old ++ names)%list
    end.
Proof.
  induction refs as [|[name a] rest IH]; intros inv d; simpl.
  - destruct (EncodeLabels.labels_at inv d); [rewrite app_nil_r|];
      reflexivity.
  - rewrite IH, labels_at_add_label. unfold Labels.names_at. simpl.
    destruct (Nat.eqb a d); simpl.
    + destruct (EncodeLabels.labels_at inv d);
        [rewrite <- app_assoc|]; reflexivity.
    + reflexivity.
Qed.

(** X8: [invRef] gives, for an address, the names the label table holds
    for it, in the order of the table, and nothing for an address no
    label points at. *)
Theorem invRef_lookup :
  forall (refs : EncodeLabels.RefList) (dest : nat),
    EncodeLabels.labels_at (EncodeLabels.invRef refs) dest
    = match Labels.names_at refs dest with
      | [] => None
      | names => Some names
      end.
Proof.
  intros refs dest. unfold EncodeLabels.invRef. rewrite invRef_fold.
  reflexivity.
Qed.

(** ** The second pass of [EncodeLabels.run] *)

Section EncodeLabelsErrors.

Variable Instruction : EncodeCodec.

Lemma EncodeLabels_loop_error args p inv al : forall rest i b log log' e,
  EncodeLabels.loop Instruction args p inv al i rest b log = (log', Err e) ->
  exists k inst,
    nth_error rest k = Some inst
    /\ (EncodeLabels.deref inst (EncodeLabels.refList p)
          (EncodeLabels.line_of (EncodeLabels.lineMap p) (i + k))
          ((i + k) * 4) = Err e
        \/ exists text message,
             EncodeLabels.deref inst (EncodeLabels.refList p)
               (EncodeLabels.line_of (EncodeLabels.lineMap p) (i + k))
               ((i + k) * 4) = Ok text
             /\ Instruction text (isa args) = Throw message
             /\ ignoreIllegal args = false
             /\ e = ErrorAtLine
                      (EncodeLabels.line_of (EncodeLabels.lineMap p) (i + k))
                      message).
Proof.
  induction rest as [|inst rest IH]; intros i b log log' e H.
  - discriminate.
  - rewrite EncodeLabels_loop_cons in H.
    assert (Hnext : forall b1 l1,
              EncodeLabels.loop Instruction args p inv al (S i) rest b1 l1
              = (log', Err e) ->
              exists k inst0,
                nth_error (inst :: rest) k = Some inst0
                /\ (EncodeLabels.deref inst0 (EncodeLabels.refList p)
                      (EncodeLabels.line_of (EncodeLabels.lineMap p) (i + k))
                      ((i + k) * 4) = Err e
                    \/ exists text message,
                         EncodeLabels.deref inst0 (EncodeLabels.refList p)
                           (EncodeLabels.line_of (EncodeLabels.lineMap p)
                              (i + k))
                           ((i + k) * 4) = Ok text
                         /\ Instruction text (isa args) = Throw message
                         /\ ignoreIllegal args = false
                         /\ e = ErrorAtLine
                                  (EncodeLabels.line_of
                                     (EncodeLabels.lineMap p) (i + k))
                                  message)).
    { intros b1 l1 H1. apply IH in H1. destruct H1 as [k [t [Hk Hc]]].
      exists (S k), t. replace (i + S k) with (S i + k) by lia.
      split; assumption. }
    destruct (EncodeLabels.deref inst _ _ _) as [text | err] eqn:Hd.
    + destruct (Instruction text (isa args)) as [enc | message] eqn:Hc.
      * apply Hnext in H. exact H.
      * destruct (ignoreIllegal args) eqn:Hi.
        -- apply Hnext in H. exact H.
        -- inversion H; subst. exists 0, inst. rewrite Nat.add_0_r.
           split; [reflexivity|]. right. exists text, message. auto.
    + inversion H; subst. exists 0, inst. rewrite Nat.add_0_r.
      split; [reflexivity|]. left. exact Hd.
Qed.

(** With refused instructions ignored the loop stops only where a
    reference cannot be resolved. *)
Lemma EncodeLabels_loop_ignoring args p inv al : forall rest i b log,
  ignoreIllegal args = true ->
  (exists b' log',
     EncodeLabels.loop Instruction args p inv al i rest b log = (log', Ok b')
     /\ forall k inst,
          nth_error rest k = Some inst ->
          exists text,
            EncodeLabels.deref inst (EncodeLabels.refList p)
              (EncodeLabels.line_of (EncodeLabels.lineMap p) (i + k))
              ((i + k) * 4) = Ok text)
  \/ exists log' k inst e,
       EncodeLabels.loop Instruction args p inv al i rest b log
       = (log', Err e)
       /\ nth_error rest k = Some inst
       /\ EncodeLabels.deref inst (EncodeLabels.refList p)
            (EncodeLabels.line_of (EncodeLabels.lineMap p) (i + k))
            ((i + k) * 4) = Err e.
Proof.
  induction rest as [|inst rest IH]; intros i b log Hi.
  - left. exists b, log. split; [reflexivity|].
    intros [|k] t H; discriminate H.
  - rewrite EncodeLabels_loop_cons, Hi.
    destruct (EncodeLabels.deref inst _ _ _) as [text | err] eqn:Hd.
    + assert (Hnext : forall b1 l1,
                (exists b' log',
                   EncodeLabels.loop Instruction args p inv al (S i) rest b1 l1
                   = (log', Ok b')
                   /\ forall k inst0,
                        nth_error (inst :: rest) k = Some inst0 ->
                        exists text0,
                          EncodeLabels.deref inst0 (EncodeLabels.refList p)
                            (EncodeLabels.line_of (EncodeLabels.lineMap p)
                               (i + k))
                            ((i + k) * 4) = Ok text0)
                \/ exists log' k inst0 e,
                     EncodeLabels.loop Instruction args p inv al (S i) rest
                       b1 l1 = (log', Err e)
                     /\ nth_error (inst :: rest) k = Some inst0
                     /\ EncodeLabels.deref inst0 (EncodeLabels.refList p)
                          (EncodeLabels.line_of (EncodeLabels.lineMap p)
                             (i + k))
                          ((i + k) * 4) = Err e).
      { intros b1 l1.
        destruct (IH (S i) b1 l1 Hi)
          as [[b' [log' [Hl Hall]]] | [log' [k [t [e [Hl [Hk He]]]]]]].
        - left. exists b', log'. split; [exact Hl|].
          intros [|k] t Hk; simpl in Hk.
          + inversion Hk; subst t. rewrite Nat.add_0_r. eauto.
          + replace (i + S k) with (S i + k) by lia. apply Hall, Hk.
        - right. exists log', (S k), t, e.
          replace (i + S k) with (S i + k) by lia. auto. }
      destruct (Instruction text (isa args)); apply Hnext.
    + right. exists log, 0, inst, err. rewrite Nat.add_0_r. auto.
Qed.

End EncodeLabelsErrors.

Lemma deref_error inst refs lineNum instAddr e :
  EncodeLabels.deref inst refs lineNum instAddr = Err e ->
  e = UndefinedLabel lineNum (Labels.target_of inst)
  /\ Labels.takes_label inst = true
  /\ EncodeLabels.is_numeric (Labels.target_of inst) = false
  /\ EncodeLabels.get refs (Labels.target_of inst) = EncodeLabels.Undefined.
Proof.
  rewrite deref_cases.
  destruct (Labels.takes_label inst); cbn [negb]; [| discriminate].
  destruct (EncodeLabels.is_numeric _); [discriminate|].
  destruct (EncodeLabels.get _ _); try discriminate.
  intros H. inversion H. auto.
Qed.

(** X9: the errors of [EncodeLabels.run].  An error is either a label
    error of the classification pass, thrown before any instruction
    reaches the codec, or the error of an instruction: its reference is
    to a label that is not defined, or the codec refuses it while
    refused instructions are not ignored.  The line number of such an
    error is the position, counted from 1, of the line that holds the
    instruction among the non-empty lines, label-only lines counted. *)
Theorem EncodeLabels_errors :
  forall (Instruction : EncodeCodec) (commands : string) (args : Args)
         (e : OperationError),
    outcome (EncodeLabels.run Instruction commands args) = Err e ->
    (EncodeLabels.parseRef commands = Err e /\ label_error e
     /\ calls (EncodeLabels.run Instruction commands args) = [])
    \/ exists p k j code inst,
         EncodeLabels.parseRef commands = Ok p
         /\ nth_error (EncodeLabels.insts p) k = Some inst
         /\ nth_error (source_lines commands) j = Some code
         /\ Labels.instruction_of code = Some inst
         /\ Labels.instructions_before (source_lines commands) j = k
         /\ ((e = UndefinedLabel (Some (j + 1)) (Labels.target_of inst)
              /\ Labels.takes_label inst = true
              /\ EncodeLabels.get (EncodeLabels.refList p)
                   (Labels.target_of inst) = EncodeLabels.Undefined)
             \/ exists text message,
                  EncodeLabels.deref inst (EncodeLabels.refList p)
                    (Some (j + 1)) (k * 4) = Ok text
                  /\ Instruction text (isa args) = Throw message
                  /\ ignoreIllegal args = false
                  /\ e = ErrorAtLine (Some (j + 1)) message).
Proof.
  intros Instruction commands args e H.
  unfold outcome, calls, EncodeLabels.run, bind, lift in *.
  destruct (EncodeLabels.parseRef commands) as [p | err] eqn:Hp.
  - right. simpl in H.
    match type of H with
    | context [EncodeLabels.loop ?a ?b ?c ?d ?e ?f ?g ?h ?i] =>
        destruct (EncodeLabels.loop a b c d e f g h i)
          as [log' [b' | err]] eqn:Hloop
    end.
    { destruct (outputMode args); discriminate H. }
    simpl in H. inversion H; subst err.
    apply EncodeLabels_loop_error in Hloop.
    destruct Hloop as [k [inst [Hk Hcase]]]. simpl in Hcase.
    assert (Hlt : k < List.length (EncodeLabels.insts p))
      by (apply nth_error_Some; congruence).
    destruct (proj1 (proj2 (parseRef_tracks _ _ Hp)) k Hlt)
      as [j [code [Hj [Hc [Ho Hb]]]]].
    rewrite Hk in Ho. rewrite Hj in Hcase.
    exists p, k, j, code, inst. split; [reflexivity|].
    repeat (split; [assumption|]).
    destruct Hcase as [Hd | [text [message [Hd [Ht [Hi He]]]]]].
    + left. apply deref_error in Hd. tauto.
    + right. exists text, message. auto.
  - left. simpl in H. inversion H; subst err.
    split; [reflexivity|]. split; [| reflexivity].
    unfold EncodeLabels.parseRef in Hp.
    clear H. revert Hp.
    generalize (source_lines commands) 0 EncodeLabels.nothing_parsed.
    induction l as [|code rest IH]; intros i p Hp; [discriminate Hp|].
    simpl in Hp.
    destruct (EncodeLabels.classify i code p) as [p' | err] eqn:Hc.
    + apply (IH _ _ Hp).
    + inversion Hp; subst err.
      apply (proj1 (classify_err_kind _ _ _ _ Hc)).
Qed.

Lemma EncodeLabels_errors_witness :
  let commands :=
    "start:" ++ nl ++ nl ++ "addi x1, x1, 1" ++ nl ++ "beq x1, x2, stop" in
  exists p k j code inst,
    EncodeLabels.parseRef commands = Ok p
    /\ nth_error (EncodeLabels.insts p) k = Some inst
    /\ nth_error (source_lines commands) j = Some code
    /\ Labels.instruction_of code = Some inst
    /\ Labels.instructions_before (source_lines commands) j = k
    /\ ((UndefinedLabel (Some 3) "stop"
         = UndefinedLabel (Some (j + 1)) (Labels.target_of inst)
         /\ Labels.takes_label inst = true
         /\ EncodeLabels.get (EncodeLabels.refList p) (Labels.target_of inst)
            = EncodeLabels.Undefined)
        \/ exists text message,
             EncodeLabels.deref inst (EncodeLabels.refList p)
               (Some (j + 1)) (k * 4) = Ok text
             /\ Text.Instruction text AUTO = Throw message
             /\ true = false
             /\ UndefinedLabel (Some 3) "stop"
                = ErrorAtLine (Some (j + 1)) message).
Proof.
  intros commands.
  destruct (EncodeLabels_errors Text.Instruction commands
              (mkArgs AUTO RawBytes true false false)
              (UndefinedLabel (Some 3) "stop") eq_refl) as [[H _] | H].
  - discriminate H.
  - exact H.
Defined.

(** X10: a reference to a label that is not defined stops
    [EncodeLabels.run] with the undefined-label error also when refused
    instructions are ignored: [deref] is called outside the [try]. *)
Theorem undefined_label_is_not_ignored :
  forall (Instruction : EncodeCodec) (commands : string) (args : Args)
         (p : EncodeLabels.Parsed) (k : nat) (inst : string),
    ignoreIllegal args = true ->
    EncodeLabels.parseRef commands = Ok p ->
    nth_error (EncodeLabels.insts p) k = Some inst ->
    Labels.takes_label inst = true ->
    EncodeLabels.is_numeric (Labels.target_of inst) = false ->
    EncodeLabels.get (EncodeLabels.refList p) (Labels.target_of inst)
    = EncodeLabels.Undefined ->
    exists line target,
      outcome (EncodeLabels.run Instruction commands args)
      = Err (UndefinedLabel line target).
Proof.
  intros Instruction commands args p k inst Hi Hp Hk Ht Hn Hg.
  unfold outcome, EncodeLabels.run, bind, lift. rewrite Hp. simpl.
  match goal with
  | |- context [EncodeLabels.loop ?I ?a ?q ?inv ?al ?i0 ?r ?b0 ?l0] =>
      destruct (EncodeLabels_loop_ignoring I a q inv al r i0 b0 l0 Hi)
        as [[b' [log' [Hl Hall]]] | [log' [k' [inst' [e [Hl [Hk' He]]]]]]]
  end.
  - destruct (Hall k inst Hk) as [text Hd].
    rewrite deref_cases, Ht, Hn, Hg in Hd. discriminate Hd.
  - rewrite Hl. simpl. apply deref_error in He. destruct He as [-> _].
    eauto.
Qed.

Lemma undefined_label_is_not_ignored_witness :
  exists line target,
    outcome (EncodeLabels.run Text.Instruction
               ("addi x1, x1, 1" ++ nl ++ "beq x1, x2, stop")
               (mkArgs AUTO HexString true false false))
    = Err (UndefinedLabel line target).
Proof.
  apply (undefined_label_is_not_ignored Text.Instruction
           ("addi x1, x1, 1" ++ nl ++ "beq x1, x2, stop")
           (mkArgs AUTO HexString true false false)
           {| EncodeLabels.insts := ["addi x1, x1, 1"; "beq x1, x2, stop"];
              EncodeLabels.refList := [];
              EncodeLabels.lineMap := [(0, 1); (1, 2)] |}
           1 "beq x1, x2, stop"); reflexivity.
Defined.

(** ** [Encode.run]: the first refused line *)

Lemma Encode_loop_first_refusal (Instruction : EncodeCodec) args al :
  forall rest i b log log' e,
    Encode.loop Instruction args al i rest b log = (log', Err e) ->
    exists k text message,
      nth_error rest k = Some text
      /\ Instruction text (isa args) = Throw message
      /\ (forall j t, j < k -> nth_error rest j = Some t ->
            exists enc, Instruction t (isa args) = Normal enc)
      /\ ignoreIllegal args = false
      /\ e = ErrorAtLine (Some (i + k + 1)) message
      /\ log' = (log ++ firstn (S k) rest)%list.
Proof.
  induction rest as [|text rest IH]; intros i b log log' e H.
  - discriminate.
  - rewrite Encode_loop_cons in H.
    destruct (Instruction text (isa args)) as [enc | message] eqn:Hc.
    + apply IH in H. destruct H as [k [t [m [Hn [Ht [Hb [Hi [He Hl]]]]]]]].
      exists (S k), t, m. simpl.
      split; [exact Hn|]. split; [exact Ht|]. split.
      { intros [|j] t' Hj Ht'; simpl in Ht'.
        - inversion Ht'; subst t'. eauto.
        - apply (Hb j t'); [lia | exact Ht']. }
      split; [exact Hi|]. split.
      * rewrite He. do 2 f_equal. lia.
      * rewrite Hl, <- app_assoc. reflexivity.
    + destruct (ignoreIllegal args) eqn:Hi.
      * apply IH in H. destruct H as [k [t [m [_ [_ [_ [Hi' _]]]]]]].
        discriminate.
      * inversion H; subst. exists 0, text, message. simpl.
        split; [reflexivity|]. split; [exact Hc|].
        split; [intros j t Hj; lia|]. split; [reflexivity|].
        split; [do 2 f_equal; lia | reflexivity].
Qed.

(** X2: when [Encode.run] throws, refused instructions are not ignored
    and the error is that of the first non-empty line the codec refuses:
    the lines before it were accepted, the number is its position among
    the non-empty lines, and no later line reaches the codec. *)
Theorem Encode_stops_at_first_refusal :
  forall (Instruction : EncodeCodec) (commands : string) (args : Args)
         (e : OperationError),
    outcome (Encode.run Instruction commands args) = Err e ->
    exists k text message,
      nth_error (nonempty_lines commands) k = Some text
      /\ Instruction text (isa args) = Throw message
      /\ (forall j t, j < k -> nth_error (nonempty_lines commands) j = Some t ->
            exists enc, Instruction t (isa args) = Normal enc)
      /\ ignoreIllegal args = false
      /\ e = ErrorAtLine (Some (k + 1)) message
      /\ calls (Encode.run Instruction commands args)
         = firstn (S k) (nonempty_lines commands).
Proof.
  intros Instruction commands args e H.
  unfold outcome, calls, Encode.run, bind in *.
  rewrite source_lines_nonempty in *.
  match type of H with
  | context [Encode.loop ?I ?a ?al 0 ?r ?b []] =>
      destruct (Encode.loop I a al 0 r b []) as [log' [b' | err]] eqn:Hloop
  end.
  - destruct (outputMode args); discriminate.
  - simpl in H. inversion H; subst err.
    apply Encode_loop_first_refusal in Hloop.
    destruct Hloop as [k [t [m [Hn [Ht [Hb [Hi [He Hl]]]]]]]].
    exists k, t, m. simpl in *. auto 10.
Qed.

Lemma Encode_stops_at_first_refusal_witness :
  exists k text message,
    nth_error (nonempty_lines ("addi x1, x1, 1" ++ nl ++ "bogus" ++ nl ++ "nop"))
      k = Some text
    /\ Text.Instruction text AUTO = Throw message
    /\ (forall j t, j < k ->
          nth_error
            (nonempty_lines ("addi x1, x1, 1" ++ nl ++ "bogus" ++ nl ++ "nop"))
            j = Some t ->
          exists enc, Text.Instruction t AUTO = Normal enc)
    /\ false = false
    /\ ErrorAtLine (Some 2) "Illegal instruction: unknown mnemonic"
       = ErrorAtLine (Some (k + 1)) message
    /\ calls (Encode.run Text.Instruction
                ("addi x1, x1, 1" ++ nl ++ "bogus" ++ nl ++ "nop")
                (mkArgs AUTO HexString false true true))
       = firstn (S k)
           (nonempty_lines ("addi x1, x1, 1" ++ nl ++ "bogus" ++ nl ++ "nop")).
Proof.
  apply (Encode_stops_at_first_refusal Text.Instruction
           ("addi x1, x1, 1" ++ nl ++ "bogus" ++ nl ++ "nop")
           (mkArgs AUTO HexString false true true)
           (ErrorAtLine (Some 2) "Illegal instruction: unknown mnemonic")).
  reflexivity.
Defined.


(** ** Programs without labels in both revisions *)

Lemma instructions_plain : forall codes,
  Forall Labels.plain codes -> Labels.instructions codes = codes.
Proof.
  induction codes as [|code rest IH]; intros H; [reflexivity|].
  inversion H as [|? ? [Hc [Ht _]] Hrest]; subst.
  unfold Labels.instructions in *. simpl.
  unfold Labels.instruction_of at 1. rewrite Hc, Ht. simpl.
  rewrite (IH Hrest). reflexivity.
Qed.

Lemma instructions_before_plain codes j :
  Forall Labels.plain codes -> j <= List.length codes ->
  Labels.instructions_before codes j = j.
Proof.
  intros H Hj. unfold Labels.instructions_before.
  rewrite instructions_plain.
  - rewrite length_firstn. lia.
  - rewrite <- (firstn_skipn j codes) in H.
    apply Forall_app in H. exact (proj1 H).
Qed.

Lemma names_plain : forall codes,
  Forall Labels.plain codes -> Labels.names codes = [].
Proof.
  induction codes as [|code rest IH]; intros H; [reflexivity|].
  inversion H as [|? ? [Hc _] Hrest]; subst.
  unfold Labels.names in *. simpl. unfold label_of at 1. rewrite Hc.
  simpl. apply (IH Hrest).
Qed.

Lemma deref_plain inst refs lineNum instAddr :
  Labels.plain inst ->
  EncodeLabels.deref inst refs lineNum instAddr = Ok inst.
Proof.
  intros [_ [_ Hn]]. rewrite deref_cases.
  destruct (Labels.takes_label inst); [| reflexivity].
  rewrite (Hn eq_refl). reflexivity.
Qed.

Lemma output_line_without_labels args al i text v v' :
  inst_hex v = inst_hex v' ->
  (outputMode args = BinaryString -> inst_bin v = inst_bin v') ->
  EncodeLabels.output_line args [] al i text v
  = Encode.output_line args al i text v'.
Proof.
  intros Hh Hb. unfold EncodeLabels.output_line, Encode.output_line.
  unfold EncodeLabels.label_suffix. simpl EncodeLabels.labels_at.
  rewrite Hh. destruct (outputMode args); [reflexivity | |].
  - destruct (showAddr args), (showInput args); simpl;
      rewrite ?append_assoc; reflexivity.
  - rewrite (Hb eq_refl).
    destruct (showAddr args), (showInput args); simpl; reflexivity.
Qed.

Lemma loops_agree_without_labels (Instruction : EncodeCodec) args p al :
  EncodeLabels.refList p = [] ->
  (outputMode args <> BinaryString \/ ignoreIllegal args = false) ->
  forall rest i b log,
    Forall Labels.plain rest ->
    (forall k, k < List.length rest ->
               EncodeLabels.line_of (EncodeLabels.lineMap p) (i + k)
               = Some (i + k + 1)) ->
    EncodeLabels.loop Instruction args p [] al i rest b log
    = Encode.loop Instruction args al i rest b log.
Proof.
  intros Hr Hmode.
  induction rest as [|text rest IH]; intros i b log Hplain Hline;
    [reflexivity|].
  inversion Hplain as [|? ? Ht Hrest]; subst.
  rewrite EncodeLabels_loop_cons, Encode_loop_cons.
  rewrite (deref_plain text _ _ _ Ht).
  assert (Hnext : forall k, k < List.length rest ->
            EncodeLabels.line_of (EncodeLabels.lineMap p) (S i + k)
            = Some (S i + k + 1)).
  { intros k Hk. replace (S i + k) with (i + S k) by lia.
    apply Hline. simpl. lia. }
  destruct (Instruction text (isa args)) as [e | message].
  - rewrite (output_line_without_labels args al i text (of_encoded e)
               (of_encoded e)) by reflexivity.
    apply (IH _ _ _ Hrest Hnext).
  - destruct (ignoreIllegal args) eqn:Hi.
    + rewrite (output_line_without_labels args al i text fill_with_bin
                 fill_without_bin);
        [| reflexivity | intros Hm; destruct Hmode; congruence].
      apply (IH _ _ _ Hrest Hnext).
    + specialize (Hline 0 ltac:(simpl; lia)). rewrite Nat.add_0_r in Hline.
      rewrite Hline. reflexivity.
Qed.

(** X28: on a program without labels both revisions of [run] do the
    same.  When no non-empty line holds a colon or has white space at its
    ends, and every branch or [jal] ends in a number, the two make the
    same calls of the codec and give the same result or the same error,
    in the raw and hex modes or with refused instructions not ignored. *)
Theorem revisions_agree_without_labels :
  forall (Instruction : EncodeCodec) (commands : string) (args : Args)
         (log : list string),
    Forall Labels.plain (source_lines commands) ->
    (outputMode args <> BinaryString \/ ignoreIllegal args = false) ->
    EncodeLabels.run Instruction commands args log
    = Encode.run Instruction commands args log.
Proof.
  intros Instruction commands args log Hplain Hmode.
  assert (Hcolon : Forall (fun code => includes is_colon code = false)
                     (source_lines commands)).
  { eapply Forall_impl; [| exact Hplain]. intros l [Hc _]. exact Hc. }
  destruct (parseRef_without_labels commands Hcolon) as [lm Hlm].
  destruct (parseRef_tracks _ _ Hlm) as [Hi [Hl _]].
  cbn [EncodeLabels.insts EncodeLabels.refList EncodeLabels.lineMap] in Hi, Hl.
  rewrite (instructions_plain _ Hplain) in Hi.
  unfold EncodeLabels.run, Encode.run, bind, lift.
  rewrite Hlm.
  cbn [EncodeLabels.insts EncodeLabels.refList EncodeLabels.lineMap].
  unfold EncodeLabels.invRef. cbn [fold_left].
  rewrite Hi.
  match goal with
  | |- context [EncodeLabels.loop _ _ ?p] =>
      rewrite (loops_agree_without_labels Instruction args p _ eq_refl Hmode);
        [reflexivity | exact Hplain |]
  end.
  intros k Hk. cbn [EncodeLabels.lineMap Nat.add].
  rewrite <- Hi in Hk.
  destruct (Hl k Hk) as [j [code [Hj [Hc [_ Hb]]]]].
  rewrite instructions_before_plain in Hb;
    [subst j; exact Hj | exact Hplain |].
  apply Nat.lt_le_incl, nth_error_Some. congruence.
Qed.

Lemma revisions_agree_without_labels_witness :
  EncodeLabels.run Text.Instruction
    ("addi x1, x1, 1" ++ nl ++ nl ++ "beq x1, x2, -4" ++ nl ++ "bogus")
    (mkArgs AUTO HexString true true true) []
  = Encode.run Text.Instruction
      ("addi x1, x1, 1" ++ nl ++ nl ++ "beq x1, x2, -4" ++ nl ++ "bogus")
      (mkArgs AUTO HexString true true true) [].
Proof.
  apply (revisions_agree_without_labels Text.Instruction
           ("addi x1, x1, 1" ++ nl ++ nl ++ "beq x1, x2, -4" ++ nl ++ "bogus")
           (mkArgs AUTO HexString true true true) []).
  - repeat constructor; intros H; discriminate H.
  - left. discriminate.
Defined.

(** ** [Encode.run]: one line an instruction, on an example *)

Lemma Encode_text_lines_witness :
  exists text ls,
    Utils.strToByteArray
      ("0x0: 00108093 [ addi x1, x1, 1 ]" ++ nl ++ "0x4: ffffffff [ bogus ]")
    = Utils.strToByteArray text
    /\ is_text_of_lines text ls
    /\ List.length ls
       = List.length
           (source_lines ("addi x1, x1, 1" ++ nl ++ nl ++ "bogus" ++ nl)).
Proof.
  apply (Encode_text_lines Text.Instruction
           ("addi x1, x1, 1" ++ nl ++ nl ++ "bogus" ++ nl)
           (mkArgs AUTO HexString true true true)).
  - exact Instruction_clean_codec.
  - left. reflexivity.
  - discriminate.
  - reflexivity.
Defined.

(** * Properties of [RunBrainfuck] *)

Section BrainfuckProperties.

Import Esolang Brainfuck.
Local Open Scope list_scope.

Lemma Node_induction (P : Node -> Prop) :
  (forall o, P (Operation o)) ->
  (forall nodes, Forall P nodes -> P (Loop nodes)) ->
  forall n, P n.
Proof.
  intros HOp HLoop. fix IH 1. intros [o | nodes].
  - apply HOp.
  - apply HLoop. induction nodes as [|n rest IHrest].
    + constructor.
    + constructor; [apply IH | exact IHrest].
Qed.

Lemma invoke_Loop nodes m :
  invoke (Loop nodes) m = while nodes iterations m.
Proof.
  cbn [invoke]. generalize iterations. intros left. revert m.
  induction left as [|left IH]; intros m.
  - reflexivity.
  - cbn [while]. destruct (positive (cell m)); [| reflexivity].
    change (forEach nodes m)
      with ((fix forEach (ns : list Node) (m : Machine) {struct ns}
               : Completion Machine :=
               match ns with
               | [] => Returns m
               | node :: rest =>
                   match invoke node m with
                   | Returns m' => forEach rest m'
                   | Throws t => Throws t
                   end
               end) nodes m).
    destruct ((fix forEach (ns : list Node) (m : Machine) {struct ns}
                 : Completion Machine := _) nodes m); [apply IH | reflexivity].
Qed.

(** ** Parsing *)

Lemma ops_bracket c :
  (Ascii.eqb c "[" = true \/ Ascii.eqb c "]" = true) -> ops c = None.
Proof.
  intros [H | H]; apply Ascii.eqb_eq in H; subst c; reflexivity.
Qed.

Lemma close_not_open c :
  Ascii.eqb c "]" = true -> Ascii.eqb c "[" = false.
Proof. intros H. apply Ascii.eqb_eq in H. subst c. reflexivity. Qed.

(** What [parseLoop] does, in terms of the one-pass reading. *)
Lemma parseLoop_scan : forall fuel programChars nodes r,
  parseLoop fuel programChars nodes = Some r ->
  match r with
  | Returns (inner, rest) =>
      forall stack outer,
        scan programChars (outer :: stack) nodes
        = scan rest stack (outer ++ [inner])%list
  | Throws t =>
      forall stack outer, scan programChars (outer :: stack) nodes = Throws t
  end.
Proof.
  induction fuel as [|fuel IH]; intros chars nodes r H; [discriminate H|].
  destruct chars as [|c rest]; simpl in H.
  - inversion H; subst r. reflexivity.
  - destruct (Ascii.eqb c "]") eqn:Hclose.
    + inversion H; subst r. intros stack outer. simpl.
      rewrite (ops_bracket c (or_intror Hclose)),
        (close_not_open c Hclose), Hclose.
      reflexivity.
    + destruct (ops c) as [o|] eqn:Hop.
      * apply IH in H. destruct r as [[inner rest']|t];
          intros stack outer; simpl; rewrite Hop; apply H.
      * destruct (Ascii.eqb c "[") eqn:Hopen.
        -- destruct (parseLoop fuel rest []) as [[[inner rest']|t]|] eqn:Hin;
             [| | discriminate H].
           ++ apply IH in Hin. apply IH in H.
              destruct r as [[inner2 rest2]|t]; intros stack outer; simpl;
                rewrite Hop, Hopen, Hin; apply H.
           ++ apply IH in Hin. inversion H; subst r.
              intros stack outer. simpl. rewrite Hop, Hopen. apply Hin.
        -- apply IH in H. destruct r as [[inner rest']|t];
             intros stack outer; simpl; rewrite Hop, Hopen, Hclose; apply H.
Qed.

Lemma parseProgram_scan : forall fuel programChars nodes r,
  parseProgram fuel programChars nodes = Some r ->
  scan programChars [] nodes = r.
Proof.
  induction fuel as [|fuel IH]; intros chars nodes r H; [discriminate H|].
  destruct chars as [|c rest]; simpl in H.
  - inversion H; reflexivity.
  - simpl. destruct (ops c) as [o|] eqn:Hop; [apply IH, H|].
    destruct (Ascii.eqb c "[") eqn:Hopen.
    + destruct (parseLoop fuel rest []) as [[[inner rest']|t]|] eqn:Hin;
        [| | discriminate H].
      * apply parseLoop_scan in Hin. rewrite Hin. apply IH, H.
      * apply parseLoop_scan in Hin. rewrite Hin. inversion H; reflexivity.
    + destruct (Ascii.eqb c "]"); [inversion H; reflexivity | apply IH, H].
Qed.

(** Fuel beyond the number of characters is enough. *)
Lemma parseLoop_total : forall fuel programChars nodes,
  List.length programChars < fuel ->
  exists r,
    parseLoop fuel programChars nodes = Some r
    /\ match r with
       | Returns (_, rest) => List.length rest < List.length programChars
       | Throws _ => True
       end.
Proof.
  induction fuel as [|fuel IH]; intros chars nodes Hlen; [lia|].
  destruct chars as [|c rest]; simpl in *.
  - eexists. split; [reflexivity | exact I].
  - destruct (Ascii.eqb c "]").
    + eexists. split; [reflexivity|]. simpl. lia.
    + assert (Hrest : forall ns,
                exists r,
                  parseLoop fuel rest ns = Some r
                  /\ match r with
                     | Returns (_, rest') =>
                         List.length rest' < S (List.length rest)
                     | Throws _ => True
                     end).
      { intros ns. destruct (IH rest ns ltac:(lia)) as [r [Hr Hl]].
        exists r. split; [exact Hr|].
        destruct r as [[inner rest']|t]; [lia | exact I]. }
      destruct (ops c); [apply Hrest|].
      destruct (Ascii.eqb c "["); [| apply Hrest].
      destruct (IH rest [] ltac:(lia)) as [[[inner rest']|t] [Hr Hl]];
        rewrite Hr.
      * destruct (IH rest' (nodes ++ [inner])%list ltac:(lia)) as [r [Hr' Hl']].
        exists r. split; [exact Hr'|].
        destruct r as [[inner2 rest2]|t]; [lia | exact I].
      * eexists. split; [reflexivity | exact I].
Qed.

Lemma parseProgram_total : forall fuel programChars nodes,
  List.length programChars < fuel ->
  exists r, parseProgram fuel programChars nodes = Some r.
Proof.
  induction fuel as [|fuel IH]; intros chars nodes Hlen; [lia|].
  destruct chars as [|c rest]; simpl in *; [eauto|].
  destruct (ops c); [apply IH; lia|].
  destruct (Ascii.eqb c "[").
  - destruct (parseLoop_total fuel rest [] ltac:(lia))
      as [[[inner rest']|t] [Hr Hl]]; rewrite Hr; [apply IH; lia | eauto].
  - destruct (Ascii.eqb c "]"); [eauto | apply IH; lia].
Qed.

Lemma length_list_ascii_of_string : forall s,
  List.length (list_ascii_of_string s) = String.length s.
Proof. induction s as [|c r IH]; simpl; congruence. Qed.

(** [parse] returns, and what it returns is the one-pass reading. *)
Lemma parse_scan str :
  parse str = Some (scan (list_ascii_of_string str) [] []).
Proof.
  unfold parse.
  destruct (parseProgram_total (S (String.length str))
              (list_ascii_of_string str) [])
    as [r Hr]; [rewrite length_list_ascii_of_string; lia|].
  rewrite Hr. f_equal. symmetry. apply (parseProgram_scan _ _ _ _ Hr).
Qed.

Lemma scan_brackets : forall programChars stack nodes,
  match brackets programChars (List.length stack) with
  | None =>
      scan programChars stack nodes
      = Throws (NewOperationError "Missing opening bracket")
  | Some O => exists result, scan programChars stack nodes = Returns result
  | Some (S _) =>
      scan programChars stack nodes
      = Throws (CallOperationError "Missing closing bracket")
  end.
Proof.
  induction programChars as [|c rest IH]; intros stack nodes; simpl.
  - destruct stack; simpl; eauto.
  - destruct (ops c) as [o|] eqn:Hop.
    + assert (Ascii.eqb c "[" = false /\ Ascii.eqb c "]" = false)
        as [-> ->].
      { split.
        - destruct (Ascii.eqb c "[") eqn:E; [| reflexivity].
          rewrite (ops_bracket c (or_introl E)) in Hop. discriminate.
        - destruct (Ascii.eqb c "]") eqn:E; [| reflexivity].
          rewrite (ops_bracket c (or_intror E)) in Hop. discriminate. }
      apply IH.
    + destruct (Ascii.eqb c "[").
      * apply (IH (nodes :: stack) []).
      * destruct (Ascii.eqb c "]"); [| apply IH].
        destruct stack as [|outer stack]; simpl; [reflexivity | apply IH].
Qed.

(** X13: [parse] returns on every text, and it accepts exactly the texts
    whose brackets match: a closing bracket with no opening one before
    it gives the error [Missing opening bracket]; otherwise brackets
    left open at the end make the [throw] of [parseLoop] run, which
    calls [OperationError] without [new]. *)
Theorem Brainfuck_parse_brackets :
  forall str : string,
    match brackets (list_ascii_of_string str) 0 with
    | None =>
        parse str = Some (Throws (NewOperationError "Missing opening bracket"))
    | Some O => exists nodes, parse str = Some (Returns nodes)
    | Some (S _) =>
        parse str
        = Some (Throws (CallOperationError "Missing closing bracket"))
    end.
Proof.
  intros str. rewrite parse_scan.
  pose proof (scan_brackets (list_ascii_of_string str) [] []) as H.
  simpl in H.
  destruct (brackets (list_ascii_of_string str) 0) as [[|d]|].
  - destruct H as [nodes ->]. eauto.
  - rewrite H. reflexivity.
  - rewrite H. reflexivity.
Qed.

(** ** Texts and nodes *)

Lemma list_ascii_of_string_app : forall a b,
  list_ascii_of_string (a ++ b)%string
  = list_ascii_of_string a ++ list_ascii_of_string b.
Proof. induction a as [|c a IH]; intros b; simpl; [| rewrite IH]; reflexivity. Qed.

Lemma text_of_Loop nodes :
  text_of (Loop nodes) = ("[" ++ texts_of nodes ++ "]")%string.
Proof.
  cbn [text_of].
  replace ((fix texts (ns : list Node) : string :=
              match ns with
              | [] => ""
              | node :: rest => (text_of node ++ texts rest)%string
              end) nodes) with (texts_of nodes); [reflexivity|].
  induction nodes as [|n rest IH]; simpl; [| rewrite IH]; reflexivity.
Qed.

Lemma ops_char_of o : ops (char_of o) = Some o.
Proof. destruct o; reflexivity. Qed.

Lemma scan_text_of : forall n tail stack nodes,
  scan (list_ascii_of_string (text_of n) ++ tail) stack nodes
  = scan tail stack (nodes ++ [n]).
Proof.
  induction n as [o | body IH] using Node_induction;
    intros tail stack nodes.
  - simpl. rewrite ops_char_of. reflexivity.
  - rewrite text_of_Loop. simpl.
    rewrite list_ascii_of_string_app, <- app_assoc.
    assert (Hall : forall ns acc,
              Forall (fun n => forall tail stack nodes,
                        scan (list_ascii_of_string (text_of n) ++ tail)
                          stack nodes
                        = scan tail stack (nodes ++ [n])) ns ->
              forall tail' stack',
                scan (list_ascii_of_string (texts_of ns) ++ tail') stack' acc
                = scan tail' stack' (acc ++ ns)).
    { induction ns as [|n rest IHns]; intros acc Hns tail' stack'; simpl.
      - rewrite app_nil_r. reflexivity.
      - inversion Hns as [|? ? Hn Hrest]; subst.
        rewrite list_ascii_of_string_app, <- app_assoc, Hn.
        rewrite IHns by exact Hrest. rewrite <- app_assoc. reflexivity. }
    rewrite (Hall body [] IH). simpl. reflexivity.
Qed.

Lemma scan_texts_of : forall ns tail stack nodes,
  scan (list_ascii_of_string (texts_of ns) ++ tail) stack nodes
  = scan tail stack (nodes ++ ns).
Proof.
  induction ns as [|n rest IH]; intros tail stack nodes; simpl.
  - rewrite app_nil_r. reflexivity.
  - rewrite list_ascii_of_string_app, <- app_assoc, scan_text_of, IH.
    rewrite <- app_assoc. reflexivity.
Qed.

(** X14: parsing the program text of a list of nodes gives the nodes
    back: every tree of operations and loops is the parse of its
    text. *)
Theorem Brainfuck_parse_texts_of :
  forall nodes : list Node,
    parse (texts_of nodes) = Some (Returns nodes).
Proof.
  intros nodes. rewrite parse_scan.
  rewrite <- (app_nil_r (list_ascii_of_string (texts_of nodes))).
  rewrite scan_texts_of. reflexivity.
Qed.

(** ** Comments *)

Lemma list_ascii_of_string_keep p : forall s,
  list_ascii_of_string (keep p s) = filter p (list_ascii_of_string s).
Proof.
  induction s as [|c r IH]; simpl; [reflexivity|].
  destruct (p c); simpl; rewrite IH; reflexivity.
Qed.

Lemma scan_filter : forall programChars stack nodes,
  scan (filter is_command programChars) stack nodes
  = scan programChars stack nodes.
Proof.
  induction programChars as [|c rest IH]; intros stack nodes; simpl;
    [reflexivity|].
  unfold is_command at 1. destruct (ops c) as [o|] eqn:Hop; simpl.
  - rewrite Hop. apply IH.
  - destruct (Ascii.eqb c "[") eqn:Hopen; simpl.
    + rewrite Hop, Hopen. apply IH.
    + destruct (Ascii.eqb c "]") eqn:Hclose; simpl.
      * rewrite Hop, Hopen, Hclose. destruct stack; [reflexivity | apply IH].
      * apply IH.
Qed.

(** X15: characters other than the eight commands are comments: a text
    parses as the text that is left when they are removed. *)
Theorem Brainfuck_comments_ignored :
  forall str : string, parse (keep is_command str) = parse str.
Proof.
  intros str. rewrite !parse_scan, list_ascii_of_string_keep, scan_filter.
  reflexivity.
Qed.

(** ** Programs put one after the other *)

Lemma scan_app : forall a b stack nodes result,
  scan a stack nodes = Returns result ->
  scan (a ++ b) stack nodes = scan b [] result.
Proof.
  induction a as [|c rest IH]; intros b stack nodes result H; simpl in *.
  - destruct stack; [inversion H; reflexivity | discriminate H].
  - destruct (ops c); [apply IH, H|].
    destruct (Ascii.eqb c "["); [apply IH, H|].
    destruct (Ascii.eqb c "]"); [| apply IH, H].
    destruct stack; [discriminate H | apply IH, H].
Qed.

Lemma scan_under pre : forall programChars stack nodes,
  scan programChars (under pre stack)
    (match stack with [] => pre ++ nodes | _ :: _ => nodes end)
  = match scan programChars stack nodes with
    | Returns result => Returns (pre ++ result)
    | Throws t => Throws t
    end.
Proof.
  induction programChars as [|c rest IH]; intros stack nodes.
  - destruct stack as [|top [|next below]]; reflexivity.
  - cbn [scan]. destruct (ops c) as [o|].
    + rewrite <- IH. destruct stack; [rewrite <- app_assoc|]; reflexivity.
    + destruct (Ascii.eqb c "[").
      * rewrite <- (IH (nodes :: stack) []).
        destruct stack; reflexivity.
      * destruct (Ascii.eqb c "]").
        -- destruct stack as [|top [|next below]]; [reflexivity | |].
           ++ simpl. rewrite <- (IH [] (top ++ [Loop nodes])).
              rewrite <- app_assoc. reflexivity.
           ++ rewrite <- (IH (next :: below) (top ++ [Loop nodes])).
              reflexivity.
        -- rewrite <- IH. reflexivity.
Qed.

Lemma forEach_app : forall a b m,
  forEach (a ++ b) m
  = match forEach a m with
    | Returns m' => forEach b m'
    | Throws t => Throws t
    end.
Proof.
  induction a as [|n a IH]; intros b m; simpl; [reflexivity|].
  destruct (invoke n m); [apply IH | reflexivity].
Qed.

(** X16: when two texts parse, the text made of the one followed by the
    other parses to the nodes of the first followed by those of the
    second, and running these is running the first and then, if it
    returns, the second from the state the first has left. *)
Theorem Brainfuck_concatenation :
  forall (a b : string) (nodes_a nodes_b : list Node),
    parse a = Some (Returns nodes_a) ->
    parse b = Some (Returns nodes_b) ->
    parse (a ++ b)%string = Some (Returns (nodes_a ++ nodes_b))
    /\ forall m,
         forEach (nodes_a ++ nodes_b) m
         = match forEach nodes_a m with
           | Returns m' => forEach nodes_b m'
           | Throws t => Throws t
           end.
Proof.
  intros a b na nb Ha Hb. split; [| intros m; apply forEach_app].
  rewrite parse_scan in *. inversion Ha as [Ha']. inversion Hb as [Hb'].
  rewrite list_ascii_of_string_app, (scan_app _ _ _ _ _ Ha').
  pose proof (scan_under na (list_ascii_of_string b) [] []) as H.
  simpl in H. rewrite app_nil_r in H. rewrite H, Hb'. reflexivity.
Qed.

Lemma Brainfuck_concatenation_witness :
  parse ("+[-]" ++ ",.")%string
  = Some (Returns ([Operation Plus; Loop [Operation Minus]]
                   ++ [Operation Comma; Operation Dot]))
  /\ forall m,
       forEach ([Operation Plus; Loop [Operation Minus]]
                ++ [Operation Comma; Operation Dot]) m
       = match forEach [Operation Plus; Loop [Operation Minus]] m with
         | Returns m' => forEach [Operation Comma; Operation Dot] m'
         | Throws t => Throws t
         end.
Proof.
  apply (Brainfuck_concatenation "+[-]" ",."); reflexivity.
Defined.

(** ** Loops *)

Lemma while_counted (body : list Node) (I : Machine -> Prop) :
  (forall m v, I m -> cell m = Some v -> (0 < v)%Z ->
     exists m', forEach body m = Returns m' /\ I m'
                /\ cell m' = Some (v - 1)%Z) ->
  forall left m v,
    I m -> cell m = Some v -> (0 < v)%Z ->
    ((v <= Z.of_nat left)%Z ->
       exists m', while body left m = Returns m' /\ I m'
                  /\ cell m' = Some 0%Z)
    /\ ((Z.of_nat left < v)%Z ->
          while body left m
          = Throws (NewOperationError "Infinite loop detected")).
Proof.
  intros Hbody. induction left as [|left IH]; intros m v Hm Hc Hv.
  - split; [lia|]. intros _. simpl. rewrite Hc. simpl.
    destruct (Z.ltb_spec 0 v); [reflexivity | lia].
  - cbn [while]. rewrite Hc. simpl positive.
    destruct (Z.ltb_spec 0 v); [| lia].
    destruct (Hbody m v Hm Hc Hv) as [m1 [H1 [HI1 Hc1]]]. rewrite H1.
    destruct (Z.eq_dec v 1) as [-> | Hne].
    + split; [| lia]. intros _. exists m1.
      destruct left; simpl; rewrite Hc1; simpl; auto.
    + destruct (IH m1 (v - 1)%Z HI1 Hc1 ltac:(lia)) as [Hle Hgt].
      split; intros Hcmp; [apply Hle | apply Hgt]; lia.
Qed.

(** X17: the limit of a loop.  When every run of the body of a loop
    lowers the current cell by one, the loop started on a cell that
    holds [v > 0] ends with the cell at 0 if [v] is at most 10001, and
    throws [Infinite loop detected] if [v] is larger. *)
Theorem Brainfuck_counted_loop :
  forall (body : list Node) (I : Machine -> Prop),
    (forall m v, I m -> cell m = Some v -> (0 < v)%Z ->
       exists m', forEach body m = Returns m' /\ I m'
                  /\ cell m' = Some (v - 1)%Z) ->
    forall m v,
      I m -> cell m = Some v -> (0 < v)%Z ->
      ((v <= 10001)%Z ->
         exists m', invoke (Loop body) m = Returns m' /\ I m'
                    /\ cell m' = Some 0%Z)
      /\ ((10001 < v)%Z ->
            invoke (Loop body) m
            = Throws (NewOperationError "Infinite loop detected")).
Proof.
  intros body I Hbody m v Hm Hc Hv. rewrite invoke_Loop.
  replace 10001%Z with (Z.of_nat iterations)
    by (unfold iterations; rewrite N_nat_Z; reflexivity).
  apply (while_counted body I Hbody iterations m v Hm Hc Hv).
Qed.

Lemma cell_store m v : cell (store m v) = Some v.
Proof. unfold cell, store. simpl. rewrite Z.eqb_refl. reflexivity. Qed.

Lemma Brainfuck_counted_loop_witness :
  ((10002 <= 10001)%Z ->
     exists m',
       invoke (Loop [Operation Minus]) (store (start []) 10002) = Returns m'
       /\ True /\ cell m' = Some 0%Z)
  /\ ((10001 < 10002)%Z ->
        invoke (Loop [Operation Minus]) (store (start []) 10002)
        = Throws (NewOperationError "Infinite loop detected")).
Proof.
  apply (Brainfuck_counted_loop [Operation Minus] (fun _ => True)).
  - intros m v _ Hc Hv. eexists. split; [reflexivity|]. split; [exact I|].
    rewrite cell_store, Hc. simpl. unfold Number.decrement.
    destruct (Z.eqb_spec v (- Number.limit)); [| reflexivity].
    unfold Number.limit in *. lia.
  - exact I.
  - reflexivity.
  - lia.
Defined.

(** ** Operations a program does not use *)

(** An invariant of the operations a program uses is an invariant of
    the program. *)
Lemma forEach_invariant (p : Op -> bool) (I : Machine -> Prop) :
  (forall o m m', p o = true -> I m -> call o m = Returns m' -> I m') ->
  forall nodes m m',
    every_node p nodes = true -> I m -> forEach nodes m = Returns m' -> I m'.
Proof.
  intros Hcall.
  assert (Hnode : forall n m m',
            every p n = true -> I m -> invoke n m = Returns m' -> I m').
  { induction n as [o | body IH] using Node_induction; intros m m' Hp Hm H.
    - apply (Hcall o m m' Hp Hm H).
    - rewrite invoke_Loop in H. simpl in Hp.
      assert (Hbody : forall m m',
                I m -> forEach body m = Returns m' -> I m').
      { clear H Hm m m'. induction body as [|n rest IHrest];
          intros m m' Hm H; simpl in H.
        - inversion H; subst; exact Hm.
        - simpl in Hp. apply andb_prop in Hp. destruct Hp as [Hn Hrest].
          inversion IH as [|? ? IHn IHall]; subst.
          destruct (invoke n m) as [m1|] eqn:H1; [| discriminate H].
          apply (IHrest IHall Hrest m1 m'); [| exact H].
          apply (IHn m m1 Hn Hm H1). }
      revert m Hm H. generalize iterations.
      induction n as [|left IHleft]; intros m Hm H; simpl in H.
      + destruct (positive (cell m)); [discriminate H|].
        inversion H; subst; exact Hm.
      + destruct (positive (cell m)); [| inversion H; subst; exact Hm].
        destruct (forEach body m) as [m1|] eqn:H1; [| discriminate H].
        apply (IHleft m1); [apply (Hbody m m1 Hm H1) | exact H]. }
  induction nodes as [|n rest IH]; intros m m' Hp Hm H; simpl in H.
  - inversion H; subst; exact Hm.
  - unfold every_node in Hp. simpl in Hp. apply andb_prop in Hp.
    destruct Hp as [Hn Hrest].
    destruct (invoke n m) as [m1|] eqn:H1; [| discriminate H].
    apply (IH m1 m' Hrest); [| exact H].
    apply (Hnode n m m1 Hn Hm H1).
Qed.

(** The nodes of a text use the operations its characters name. *)
Lemma scan_every (p : Op -> bool) : forall programChars stack nodes result,
  (forall c o, In c programChars -> ops c = Some o -> p o = true) ->
  every_node p nodes = true ->
  forallb (every_node p) stack = true ->
  scan programChars stack nodes = Returns result ->
  every_node p result = true.
Proof.
  unfold every_node.
  induction programChars as [|c rest IH]; intros stack nodes result Hc Hn Hs H;
    simpl in H.
  - destruct stack; [inversion H; subst; exact Hn | discriminate H].
  - assert (Hrest : forall c' o, In c' rest -> ops c' = Some o -> p o = true)
      by (intros c' o Hin; apply Hc; right; exact Hin).
    destruct (ops c) as [o|] eqn:Hop.
    + apply (IH _ _ _ Hrest) in H; [exact H | | exact Hs].
      rewrite forallb_app, Hn. simpl.
      rewrite (Hc c o (or_introl eq_refl) Hop). reflexivity.
    + destruct (Ascii.eqb c "[").
      * apply (IH _ _ _ Hrest) in H; [exact H | reflexivity |].
        simpl. unfold every_node. rewrite Hn, Hs. reflexivity.
      * destruct (Ascii.eqb c "]"); [| apply (IH _ _ _ Hrest) in H; assumption].
        destruct stack as [|outer stack]; [discriminate H|].
        simpl in Hs. apply andb_prop in Hs. destruct Hs as [Ho Hs].
        apply (IH _ _ _ Hrest) in H; [exact H | | exact Hs].
        unfold every_node in Ho. rewrite forallb_app, Ho. simpl.
        rewrite Hn. reflexivity.
Qed.

Lemma includes_In p : forall s c,
  includes p s = false -> In c (list_ascii_of_string s) -> p c = false.
Proof.
  induction s as [|a r IH]; intros c H Hin; simpl in *; [contradiction|].
  apply orb_false_elim in H. destruct H as [Ha Hr].
  destruct Hin as [-> | Hin]; [exact Ha | apply IH; assumption].
Qed.

Lemma parse_every (p : Op -> bool) str nodes :
  (forall c o, includes (Ascii.eqb c) str = true -> ops c = Some o ->
               p o = true) ->
  parse str = Some (Returns nodes) ->
  every_node p nodes = true.
Proof.
  intros Hc H. rewrite parse_scan in H. inversion H as [H'].
  apply (scan_every p (list_ascii_of_string str) [] [] nodes);
    try reflexivity; [| exact H'].
  intros c o Hin Hop. apply (Hc c o); [| exact Hop].
  destruct (includes (Ascii.eqb c) str) eqn:E; [reflexivity|].
  pose proof (includes_In _ _ c E Hin) as Hcc.
  rewrite Ascii.eqb_refl in Hcc. discriminate.
Qed.

Lemma without_char (c0 : ascii) (o0 : Op) str nodes :
  (forall c, ops c = Some o0 -> c = c0) ->
  includes (Ascii.eqb c0) str = false ->
  parse str = Some (Returns nodes) ->
  every_node (is_not o0) nodes = true.
Proof.
  intros Hkey Hno H. apply (parse_every (is_not o0) str nodes); [| exact H].
  intros c o Hin Hop.
  destruct (is_not o0 o) eqn:E; [reflexivity|].
  assert (o = o0) by (destruct o0, o; simpl in E; congruence). subst o.
  apply Hkey in Hop. subst c. congruence.
Qed.

Lemma ops_Dot c : ops c = Some Dot -> c = "."%char.
Proof.
  unfold ops.
  repeat match goal with
         | |- context [Ascii.eqb c ?x] =>
             destruct (Ascii.eqb_spec c x); [subst c | ];
             try discriminate; try (intros _; reflexivity)
         end.
Qed.

Lemma ops_Comma c : ops c = Some Comma -> c = ","%char.
Proof.
  unfold ops.
  repeat match goal with
         | |- context [Ascii.eqb c ?x] =>
             destruct (Ascii.eqb_spec c x); [subst c | ];
             try discriminate; try (intros _; reflexivity)
         end.
Qed.

(** X19: a text without a full stop prints nothing: if [run] returns,
    it returns the empty string. *)
Theorem Brainfuck_no_output_without_dot :
  forall (str : string) (bfInput result : list N),
    includes (Ascii.eqb ".") str = false ->
    run str bfInput = Some (Returns result) ->
    result = [].
Proof.
  intros str bfInput result Hno H. unfold run in H.
  destruct (parse str) as [[nodes|t]|] eqn:Hp; try discriminate H.
  pose proof (without_char "." Dot str nodes ops_Dot Hno Hp) as Hevery.
  unfold program in H.
  destruct (forEach nodes (start bfInput)) as [m'|] eqn:Hrun;
    [| discriminate H].
  inversion H; subst result.
  apply (forEach_invariant (is_not Dot) (fun m => output m = [])
           ltac:(intros [] m m1 Hp' Hm Hcall; try discriminate Hp';
                 simpl in Hcall;
                 try (destruct (input m); [discriminate Hcall|]);
                 inversion Hcall; subst m1; exact Hm)
           nodes (start bfInput) m' Hevery eq_refl Hrun).
Qed.

Lemma Brainfuck_no_output_without_dot_witness :
  run "++[>+<-]," (code_units "a") = Some (Returns []) /\ @nil N = [].
Proof.
  split; [reflexivity|].
  apply (Brainfuck_no_output_without_dot "++[>+<-]," (code_units "a") []);
    reflexivity.
Defined.

(** A program that does not read leaves the input alone and does not
    depend on it. *)
Lemma forEach_with_input (inputString : list N) :
  forall nodes m,
    every_node (is_not Comma) nodes = true ->
    forEach nodes (with_input inputString m)
    = match forEach nodes m with
      | Returns m' => Returns (with_input inputString m')
      | Throws t => Throws t
      end.
Proof.
  assert (Hnode : forall n m,
            every (is_not Comma) n = true ->
            invoke n (with_input inputString m)
            = match invoke n m with
              | Returns m' => Returns (with_input inputString m')
              | Throws t => Throws t
              end).
  { induction n as [o | body IH] using Node_induction; intros m Hp.
    - destruct o; try discriminate Hp; reflexivity.
    - rewrite !invoke_Loop. simpl in Hp.
      assert (Hbody : forall m,
                forEach body (with_input inputString m)
                = match forEach body m with
                  | Returns m' => Returns (with_input inputString m')
                  | Throws t => Throws t
                  end).
      { clear m. induction body as [|n rest IHrest]; intros m; simpl;
          [reflexivity|].
        simpl in Hp. apply andb_prop in Hp. destruct Hp as [Hn Hrest].
        inversion IH as [|? ? IHn IHall]; subst.
        rewrite (IHn m Hn).
        destruct (invoke n m); [apply (IHrest IHall Hrest) | reflexivity]. }
      revert m. generalize iterations.
      induction n as [|left IHleft]; intros m; cbn [while];
        change (cell (with_input inputString m)) with (cell m);
        destruct (positive (cell m)); try reflexivity.
      rewrite Hbody. destruct (forEach body m); [apply IHleft | reflexivity]. }
  induction nodes as [|n rest IH]; intros m Hp; simpl; [reflexivity|].
  unfold every_node in Hp. simpl in Hp. apply andb_prop in Hp.
  destruct Hp as [Hn Hrest]. rewrite (Hnode n m Hn).
  destruct (invoke n m); [apply (IH _ Hrest) | reflexivity].
Qed.

(** X20: a text without a comma gives the same result, or the same
    error, on every input. *)
Theorem Brainfuck_input_unused_without_comma :
  forall (str : string) (input1 input2 : list N),
    includes (Ascii.eqb ",") str = false ->
    run str input1 = run str input2.
Proof.
  intros str input1 input2 Hno. unfold run.
  destruct (parse str) as [[nodes|t]|] eqn:Hp; try reflexivity.
  pose proof (without_char "," Comma str nodes ops_Comma Hno Hp) as Hevery.
  f_equal. unfold program.
  change (start input1) with (with_input input1 (start [])).
  change (start input2) with (with_input input2 (start [])).
  rewrite !forEach_with_input by exact Hevery.
  destruct (forEach nodes (start [])); reflexivity.
Qed.

Lemma Brainfuck_input_unused_without_comma_witness :
  run "++++++++[>++++++++<-]>+." (code_units "abc")
  = run "++++++++[>++++++++<-]>+." [].
Proof.
  apply (Brainfuck_input_unused_without_comma "++++++++[>++++++++<-]>+.").
  reflexivity.
Defined.

(** ** The range of the pointer and of the cells *)

Lemma every_true : forall nodes, every_node (fun _ => true) nodes = true.
Proof.
  assert (Hnode : forall n, every (fun _ => true) n = true).
  { induction n as [o | body IH] using Node_induction; [reflexivity|].
    simpl. induction IH as [|n rest Hn _ IHrest]; simpl;
      [reflexivity | rewrite Hn; exact IHrest]. }
  induction nodes as [|n rest IH]; unfold every_node in *; simpl;
    [reflexivity | rewrite Hnode; exact IH].
Qed.

Lemma call_within_limits o m m' :
  within_limits m -> call o m = Returns m' -> within_limits m'.
Proof.
  unfold within_limits, Number.limit.
  intros [Hp [Hd Hi]] H.
  assert (Hcell : (- 2 ^ 53 <= or_zero (cell m) <= 2 ^ 53)%Z).
  { unfold cell. destruct (data m (ptr m)) as [v|] eqn:E; simpl;
      [apply (Hd _ _ E) | lia]. }
  destruct o; simpl in H.
  - inversion H; subst m'; simpl. split; [exact Hp|]. split; [| exact Hi].
    intros p v. destruct (p =? ptr m)%Z; [| apply Hd].
    intros E; inversion E; subst v.
    unfold Number.increment, Number.limit.
    destruct (Z.eqb_spec (or_zero (cell m)) (2 ^ 53)); lia.
  - inversion H; subst m'; simpl. split; [exact Hp|]. split; [| exact Hi].
    intros p v. destruct (p =? ptr m)%Z; [| apply Hd].
    intros E; inversion E; subst v.
    unfold Number.decrement, Number.limit.
    destruct (Z.eqb_spec (or_zero (cell m)) (- 2 ^ 53)); lia.
  - inversion H; subst m'; simpl. split; [| split; assumption].
    destruct (Z.ltb_spec (ptr m - 1) 0); lia.
  - inversion H; subst m'; simpl. split; [| split; assumption].
    unfold Number.increment, Number.limit.
    destruct (Z.eqb_spec (ptr m) (2 ^ 53)); lia.
  - inversion H; subst m'; simpl. auto.
  - destruct (input m) as [|c rest] eqn:E; [discriminate H|].
    inversion H; subst m'; simpl. inversion Hi as [|? ? Hc Hrest]; subst.
    split; [exact Hp|]. split; [| exact Hrest].
    intros p v. destruct (p =? ptr m)%Z; [| apply Hd].
    intros E'; inversion E'; subst v. lia.
Qed.

(** X21: the pointer never goes below cell 0, and the pointer and the
    cells stay within [2 ^ 53] in magnitude, the range in which the
    numbers of the code are exact integers. *)
Theorem Brainfuck_within_limits :
  forall (nodes : list Node) (m m' : Machine),
    within_limits m ->
    forEach nodes m = Returns m' ->
    within_limits m'.
Proof.
  intros nodes m m' Hm H.
  apply (forEach_invariant (fun _ => true) within_limits
           ltac:(intros o m1 m2 _; apply call_within_limits)
           nodes m m' (every_true nodes) Hm H).
Qed.

Lemma Brainfuck_start_within_limits inputString :
  Forall (fun c => (c < 65536)%N) inputString ->
  within_limits (start inputString).
Proof.
  intros H. unfold within_limits, Number.limit. simpl.
  split; [lia|]. split; [intros p v E; discriminate E | exact H].
Qed.

Lemma Brainfuck_within_limits_witness :
  exists m',
    forEach [Operation Less; Operation Minus; Operation Comma]
      (start (code_units "a")) = Returns m'
    /\ within_limits m'.
Proof.
  eexists. split; [reflexivity|].
  apply (Brainfuck_within_limits
           [Operation Less; Operation Minus; Operation Comma]
           (start (code_units "a")));
    [| reflexivity].
  apply Brainfuck_start_within_limits. repeat constructor.
Defined.

(** ** Texts without brackets *)

Lemma scan_operations : forall str nodes,
  includes (Ascii.eqb "[") str = false ->
  includes (Ascii.eqb "]") str = false ->
  scan (list_ascii_of_string str) [] nodes
  = Returns (nodes ++ map Operation (operations (list_ascii_of_string str))).
Proof.
  induction str as [|c rest IH]; intros nodes Ho Hc;
    cbn [includes list_ascii_of_string scan] in *.
  - rewrite app_nil_r. reflexivity.
  - apply orb_false_elim in Ho. destruct Ho as [Ho Horest].
    apply orb_false_elim in Hc. destruct Hc as [Hc Hcrest].
    rewrite Ascii.eqb_sym in Ho. rewrite Ascii.eqb_sym in Hc.
    unfold operations. cbn [flat_map].
    fold (operations (list_ascii_of_string rest)).
    destruct (ops c) as [o|].
    + rewrite IH by assumption. simpl. rewrite <- app_assoc. reflexivity.
    + rewrite Ho, Hc. apply IH; assumption.
Qed.

Lemma forEach_operations : forall l m,
  (count Comma l <= List.length (input m) ->
     exists m',
       forEach (map Operation l) m = Returns m'
       /\ List.length (output m')
          = List.length (output m) + count Dot l
       /\ List.length (input m')
          = List.length (input m) - count Comma l)
  /\ (List.length (input m) < count Comma l ->
        forEach (map Operation l) m
        = Throws (NewOperationError "Input is not enough")).
Proof.
  unfold count.
  induction l as [|o l IH]; intros m.
  - simpl. split; [| lia]. intros _. exists m. split; [reflexivity|]. lia.
  - cbn [map forEach invoke].
    destruct o; cbn [call filter is_not negb List.length];
      try (match goal with
           | |- context [forEach _ ?m1] =>
               destruct (IH m1) as [Hle Hgt]; simpl in Hle, Hgt
           end;
           split; intros Hcmp;
           [destruct (Hle Hcmp) as [m' [Hr [Ho Hi]]]; exists m';
            split; [exact Hr|]; split; [| exact Hi]; rewrite Ho;
            try rewrite length_app; simpl; lia
           | apply Hgt; exact Hcmp]).
    destruct (input m) as [|c rest] eqn:E.
    + split; [simpl; lia | reflexivity].
    + match goal with
      | |- context [forEach _ ?m1] =>
          destruct (IH m1) as [Hle Hgt]; simpl in Hle, Hgt
      end.
      split; intros Hcmp; simpl in Hcmp.
      * destruct (Hle ltac:(lia)) as [m' [Hr [Ho Hi]]]. exists m'.
        split; [exact Hr|]. split; [exact Ho|]. rewrite Hi. simpl. lia.
      * apply Hgt. lia.
Qed.

(** X18: a text without brackets returns exactly when the input has a
    code unit for each of its commas, and then it prints one code unit
    for each of its full stops; with a shorter input it throws [Input is
    not enough]. *)
Theorem Brainfuck_without_brackets :
  forall (str : string) (bfInput : list N),
    includes (Ascii.eqb "[") str = false ->
    includes (Ascii.eqb "]") str = false ->
    let l := operations (list_ascii_of_string str) in
    (count Comma l <= List.length bfInput ->
       exists result,
         run str bfInput = Some (Returns result)
         /\ List.length result = count Dot l)
    /\ (List.length bfInput < count Comma l ->
          run str bfInput
          = Some (Throws (NewOperationError "Input is not enough"))).
Proof.
  intros str bfInput Ho Hc l. unfold run, program.
  rewrite parse_scan, (scan_operations str [] Ho Hc). simpl app. fold l.
  destruct (forEach_operations l (start bfInput)) as [Hle Hgt].
  split; intros Hcmp.
  - destruct (Hle Hcmp) as [m' [Hr [Hout _]]]. rewrite Hr.
    exists (output m'). split; [reflexivity | exact Hout].
  - rewrite (Hgt Hcmp). reflexivity.
Qed.

Lemma Brainfuck_without_brackets_witness :
  (count Comma (operations (list_ascii_of_string ",.,.")) <= 1 ->
     exists result,
       run ",.,." (code_units "a") = Some (Returns result)
       /\ List.length result
          = count Dot (operations (list_ascii_of_string ",.,.")))
  /\ (1 < count Comma (operations (list_ascii_of_string ",.,.")) ->
        run ",.,." (code_units "a")
        = Some (Throws (NewOperationError "Input is not enough"))).
Proof.
  apply (Brainfuck_without_brackets ",.,." (code_units "a")); reflexivity.
Defined.

End BrainfuckProperties.

(** * Properties of [RunEmoLanguage] *)

Section EmoProperties.

Import Esolang Emo.
Local Open Scope list_scope.

(** ** Texts without the end of a loop *)

Lemma step_throws c s t :
  step c s = Throws t -> t = NewOperationError "Input is not enough".
Proof.
  unfold step.
  repeat match goal with
         | |- context [if ?b then _ else _] => destruct b
         | |- context [match input s with _ => _ end] => destruct (input s)
         end; intros H; try discriminate H; inversion H; reflexivity.
Qed.

Lemma step_index c s s' :
  Ascii.eqb c ">" = false -> step c s = Returns s' -> index s' = index s.
Proof.
  intros Hc. unfold step, on_pointer_or_value. rewrite Hc.
  repeat match goal with
         | |- context [if ?b then _ else _] => destruct b
         | |- context [match input s with _ => _ end] => destruct (input s)
         end; intros H; try discriminate H; inversion H; reflexivity.
Qed.

Lemma step_reads c s :
  Ascii.eqb c "=" = false -> exists s', step c s = Returns s'.
Proof.
  intros Hc. unfold step. rewrite Hc.
  repeat match goal with
         | |- context [if ?b then _ else _] => destruct b
         end; eauto.
Qed.

Lemma each_char_throws : forall chars s t,
  each_char chars s = Throws t ->
  t = NewOperationError "Input is not enough".
Proof.
  induction chars as [|c rest IH]; intros s t H; simpl in H;
    [discriminate H|].
  destruct (step c s) as [s1|t1] eqn:E.
  - apply (IH _ _ H).
  - inversion H; subst t1. apply (step_throws _ _ _ E).
Qed.

Lemma each_char_index : forall chars s s',
  Forall (fun c => Ascii.eqb c ">" = false) chars ->
  each_char chars s = Returns s' -> index s' = index s.
Proof.
  induction chars as [|c rest IH]; intros s s' Hc H; simpl in H.
  - inversion H; reflexivity.
  - inversion Hc as [|? ? Hc1 Hrest]; subst.
    destruct (step c s) as [s1|t1] eqn:E; [| discriminate H].
    rewrite (IH _ _ Hrest H). apply (step_index _ _ _ Hc1 E).
Qed.

Lemma each_char_returns : forall chars s,
  Forall (fun c => Ascii.eqb c "=" = false) chars ->
  exists s', each_char chars s = Returns s'.
Proof.
  induction chars as [|c rest IH]; intros s Hc; simpl; [eauto|].
  inversion Hc as [|? ? Hc1 Hrest]; subst.
  destruct (step_reads c s Hc1) as [s1 ->]. apply (IH _ Hrest).
Qed.

Lemma includes_Forall p : forall s,
  includes p s = false ->
  Forall (fun c => p c = false) (list_ascii_of_string s).
Proof.
  induction s as [|c r IH]; simpl; intros H; constructor.
  - apply orb_false_elim in H. apply H.
  - apply IH. apply orb_false_elim in H. apply H.
Qed.

Lemma eqb_char_sym_Forall (x : ascii) l :
  Forall (fun c => Ascii.eqb x c = false) l ->
  Forall (fun c => Ascii.eqb c x = false) l.
Proof.
  intros H. eapply Forall_impl; [| exact H].
  intros c Hc. rewrite Ascii.eqb_sym. exact Hc.
Qed.

(** A character a text does not hold is in none of its stripped
    lines. *)
Lemma split_each_includes p sep : forall s l,
  includes p s = false -> In l (split_each sep s) -> includes p l = false.
Proof.
  induction s as [|c r IH]; simpl; intros l H Hin.
  - destruct Hin as [<- | []]. reflexivity.
  - apply orb_false_elim in H. destruct H as [Hc Hr].
    destruct (sep c).
    + destruct Hin as [<- | Hin]; [reflexivity | apply (IH _ Hr Hin)].
    + destruct (split_each_cons sep r) as [h [t Hs]].
      rewrite Hs in *. simpl in Hin. destruct Hin as [<- | Hin].
      * simpl. rewrite Hc. apply (IH h Hr). left. reflexivity.
      * apply (IH l Hr). right. exact Hin.
Qed.

Lemma strip_includes p l :
  includes p l = false -> includes p (strip l) = false.
Proof.
  intros H. unfold strip. apply includes_trim_false.
  destruct (split_each_cons is_tilde l) as [h [t Hs]].
  rewrite Hs. simpl.
  apply (split_each_includes p is_tilde l h H). rewrite Hs. left. reflexivity.
Qed.

Lemma for_lines_straight lines :
  (Z.of_nat (List.length lines) < Number.limit)%Z ->
  (forall l, In l lines -> includes (Ascii.eqb ">") (strip l) = false) ->
  forall n k s,
    index s = Num (Z.of_nat k) ->
    k + n = List.length lines ->
    exists r,
      (forall fuel, n < fuel -> for_lines fuel lines s = Some r)
      /\ (forall t, r = Throws t ->
                    t = NewOperationError "Input is not enough")
      /\ ((forall l, In l lines ->
                     includes (Ascii.eqb "=") (strip l) = false) ->
          exists s', r = Returns s').
Proof.
  intros Hlen Hno.
  induction n as [|n IH]; intros k s Hi Hk.
  - exists (Returns s). split; [| split].
    + intros [|fuel] Hf; [lia|]. simpl. rewrite Hi.
      destruct (Z.ltb_spec (Z.of_nat k) (Z.of_nat (List.length lines)));
        [lia | reflexivity].
    + intros t H. discriminate H.
    + intros _. eauto.
  - assert (Hlt : k < List.length lines) by lia.
    destruct (nth_error lines k) as [l|] eqn:Hl;
      [| apply nth_error_None in Hl; lia].
    assert (Hin : In l lines) by (apply (nth_error_In _ _ Hl)).
    assert (Hline : line_at lines (Z.of_nat k) = Some l).
    { unfold line_at. destruct (Z.ltb_spec (Z.of_nat k) 0); [lia|].
      rewrite Nat2Z.id. exact Hl. }
    destruct (each_char (list_ascii_of_string (strip l)) s)
      as [s1|t1] eqn:Hrun.
    + assert (Hi1 : index s1 = Num (Z.of_nat k)).
      { rewrite <- Hi. apply (each_char_index _ _ _ (eqb_char_sym_Forall _ _
                                  (includes_Forall _ _ (Hno l Hin))) Hrun). }
      assert (Hnext : index (set_index (plus_one (index s1)) s1)
                      = Num (Z.of_nat (S k))).
      { simpl. rewrite Hi1. simpl. unfold Number.increment.
        destruct (Z.eqb_spec (Z.of_nat k) Number.limit); [lia|].
        f_equal. lia. }
      destruct (IH (S k) _ Hnext ltac:(lia)) as [r [Hr [Ht Hret]]].
      exists r. split; [| split; assumption].
      intros [|fuel] Hf; [lia|]. simpl. rewrite Hi.
      destruct (Z.ltb_spec (Z.of_nat k) (Z.of_nat (List.length lines)));
        [| lia].
      rewrite Hline, Hrun. apply Hr. lia.
    + exists (Throws t1). split; [| split].
      * intros [|fuel] Hf; [lia|]. simpl. rewrite Hi.
        destruct (Z.ltb_spec (Z.of_nat k) (Z.of_nat (List.length lines)));
          [| lia].
        rewrite Hline, Hrun. reflexivity.
      * intros t H. inversion H; subst t1.
        apply (each_char_throws _ _ _ Hrun).
      * intros Hnoread.
        destruct (each_char_returns (list_ascii_of_string (strip l)) s
                    (eqb_char_sym_Forall _ _
                       (includes_Forall _ _ (Hnoread l Hin)))) as [s' Hs'].
        congruence.
Qed.

(** X24: a text without [>] ends: [emulate] returns unless a [=] finds
    the input used up, which throws [Input is not enough]; without [=]
    it returns.  The text has fewer than [2 ^ 53] lines. *)
Theorem Emo_without_loop_end :
  forall (code : string) (inputString : list N),
    includes (Ascii.eqb ">") code = false ->
    (Z.of_nat (List.length (split_each is_newline code)) < Number.limit)%Z ->
    exists r,
      (forall fuel,
         List.length (split_each is_newline code) < fuel ->
         emulate fuel code inputString = Some r)
      /\ (forall t, r = Throws t ->
                    t = NewOperationError "Input is not enough")
      /\ (includes (Ascii.eqb "=") code = false ->
          exists result, r = Returns result).
Proof.
  intros code inputString Hno Hlen.
  assert (Hlines : forall p, includes p code = false ->
            forall l, In l (split_each is_newline code) ->
                      includes p (strip l) = false).
  { intros p Hp l Hl. apply strip_includes.
    apply (split_each_includes p is_newline code l Hp Hl). }
  destruct (for_lines_straight (split_each is_newline code) Hlen
              (Hlines _ Hno) (List.length (split_each is_newline code)) 0
              (start inputString) eq_refl eq_refl)
    as [r [Hr [Ht Hret]]].
  exists (match r with
          | Returns s => Returns (output s)
          | Throws t => Throws t
          end).
  split; [| split].
  - intros fuel Hf. unfold emulate. rewrite (Hr fuel Hf).
    destruct r; reflexivity.
  - intros t H. destruct r as [s|t1]; [discriminate H|].
    inversion H; subst t1. apply (Ht t eq_refl).
  - intros Hnoread. destruct (Hret (Hlines _ Hnoread)) as [s' ->]. eauto.
Qed.

Lemma Emo_without_loop_end_witness :
  exists r,
    (forall fuel,
       List.length (split_each is_newline (":^^^)" ++ nl ++ "=@"))%string < fuel ->
       emulate fuel (":^^^)" ++ nl ++ "=@")%string (code_units "a") = Some r)
    /\ (forall t, r = Throws t ->
                  t = NewOperationError "Input is not enough")
    /\ (includes (Ascii.eqb "=") (":^^^)" ++ nl ++ "=@")%string = false ->
        exists result, r = Returns result).
Proof.
  apply (Emo_without_loop_end (":^^^)" ++ nl ++ "=@")%string (code_units "a"));
    reflexivity.
Defined.

(** ** Comments *)

Lemma split_each_none sep : forall s,
  includes sep s = false -> split_each sep s = [s].
Proof.
  induction s as [|c r IH]; simpl; intros H; [reflexivity|].
  apply orb_false_elim in H. destruct H as [Hc Hr].
  rewrite Hc, (IH Hr). reflexivity.
Qed.

Lemma split_each_app_sep sep : forall x c y,
  includes sep x = false -> sep c = true ->
  split_each sep (x ++ String c y)%string = x :: split_each sep y.
Proof.
  induction x as [|a x IH]; intros c y Hx Hc; simpl.
  - rewrite Hc. reflexivity.
  - simpl in Hx. apply orb_false_elim in Hx. destruct Hx as [Ha Hx].
    rewrite Ha, (IH c y Hx Hc). reflexivity.
Qed.

Lemma split_each_join : forall ls,
  ls <> [] ->
  Forall (fun l => includes is_newline l = false) ls ->
  split_each is_newline (join nl (map Some ls)) = ls.
Proof.
  induction ls as [|x rest IH]; intros Hne Hall; [congruence|].
  inversion Hall as [|? ? Hx Hrest]; subst.
  destruct rest as [|y rest].
  - simpl. apply split_each_none, Hx.
  - change (join nl (map Some (x :: y :: rest)))
      with (x ++ nl ++ join nl (map Some (y :: rest)))%string.
    unfold nl at 1.
    change (String LF "" ++ join nl (map Some (y :: rest)))%string
      with (String LF (join nl (map Some (y :: rest)))).
    rewrite split_each_app_sep by (exact Hx || reflexivity).
    rewrite IH by (congruence || exact Hrest). reflexivity.
Qed.

Lemma head_of_head sep l :
  hd "" (split_each sep (hd "" (split_each sep l)))
  = hd "" (split_each sep l).
Proof.
  destruct (split_each_cons sep l) as [h [t Hs]].
  rewrite Hs. simpl.
  rewrite (split_each_none sep h); [reflexivity|].
  apply (split_each_no_sep sep l). rewrite Hs. left. reflexivity.
Qed.

Lemma stripped_without_comments input :
  stripped (without_comments input) = stripped input.
Proof.
  unfold stripped, without_comments.
  rewrite <- (map_map (fun l => hd "" (split_each is_tilde l)) Some).
  rewrite split_each_join.
  - rewrite map_map. apply map_ext. intros l. unfold strip.
    rewrite head_of_head. reflexivity.
  - destruct (split_each_cons is_newline input) as [h [t ->]]. discriminate.
  - apply Forall_forall. intros h Hin. apply in_map_iff in Hin.
    destruct Hin as [l [<- Hl]].
    pose proof (split_each_no_sep is_newline input l Hl) as Hnl.
    destruct (split_each_cons is_tilde l) as [h [t Hs]]. rewrite Hs. simpl.
    apply (split_each_includes is_newline is_tilde l h Hnl).
    rewrite Hs. left. reflexivity.
Qed.

Lemma check_lines_stripped : forall ls ls' i n errors,
  map strip ls = map strip ls' ->
  check_lines ls i n errors = check_lines ls' i n errors.
Proof.
  induction ls as [|l ls IH]; intros [|l' ls'] i n errors H;
    try discriminate H; [reflexivity|].
  simpl in H. inversion H as [[Hl Hrest]]. simpl. rewrite Hl.
  destruct (is_empty (strip l')); apply IH; exact Hrest.
Qed.

Lemma for_lines_stripped ls ls' :
  map strip ls = map strip ls' ->
  forall fuel s, for_lines fuel ls s = for_lines fuel ls' s.
Proof.
  intros H.
  assert (Hlen : List.length ls = List.length ls').
  { rewrite <- (length_map strip ls), H. apply length_map. }
  assert (Hat : forall z,
            option_map strip (line_at ls z) = option_map strip (line_at ls' z)).
  { intros z. unfold line_at. destruct (z <? 0)%Z; [reflexivity|].
    rewrite <- !nth_error_map, H. reflexivity. }
  induction fuel as [|fuel IH]; intros s; [reflexivity|]. simpl.
  destruct (index s) as [| |z]; try reflexivity.
  rewrite Hlen. destruct (z <? Z.of_nat (List.length ls'))%Z; [| reflexivity].
  specialize (Hat z).
  destruct (line_at ls z) as [l|], (line_at ls' z) as [l'|];
    simpl in Hat; try discriminate Hat; [| reflexivity].
  inversion Hat as [Hl]. rewrite Hl.
  destruct (each_char _ s); [apply IH | reflexivity].
Qed.

(** X23: comments do not matter: [run] gives the same on a text and on
    the text with what follows the first [~] of every line removed. *)
Theorem Emo_comments_ignored :
  forall (fuel : nat) (input : string) (programInput : list N),
    run fuel (without_comments input) programInput
    = run fuel input programInput.
Proof.
  intros fuel input programInput.
  pose proof (stripped_without_comments input) as H. unfold stripped in H.
  unfold run, check, emulate.
  rewrite (check_lines_stripped _ _ 0 0%Z [] H).
  rewrite (for_lines_stripped _ _ H). reflexivity.
Qed.

(** ** What [check] accepts *)

Lemma includes_first p line a :
  first_char line = Some a -> p a = true -> includes p line = true.
Proof.
  destruct line as [|c r]; simpl; intros H Hp; [discriminate H|].
  inversion H; subst c. rewrite Hp. reflexivity.
Qed.

Lemma includes_last p : forall line b,
  last_char line = Some b -> p b = true -> includes p line = true.
Proof.
  induction line as [|c r IH]; intros b H Hp; [discriminate H|].
  simpl in H. destruct r as [|c' r'].
  - inversion H; subst c. simpl. rewrite Hp. reflexivity.
  - cbn [includes]. cbn [includes] in IH. rewrite (IH b H Hp).
    apply orb_true_r.
Qed.

Lemma last_char_Some : forall line,
  is_empty line = false -> exists b, last_char line = Some b.
Proof.
  induction line as [|c r IH]; intros H; [discriminate H|].
  destruct r as [|c' r']; [simpl; eauto|].
  destruct (IH eq_refl) as [b Hb]. exists b. exact Hb.
Qed.

Lemma begins_spec line :
  is_empty line = false ->
  (none_of [":"; ";"; "<"; "="]%char (first_char line) = false
   /\ holds_none_of [";"; ":"; "="]%char line = false)
  <-> begins_well line = true.
Proof.
  intros Hne. destruct (first_char line) as [a|] eqn:Hf;
    [| destruct line; discriminate].
  pose proof (includes_first (one_of [";"; ":"; "="]%char) line a Hf) as Hin.
  unfold begins_well, none_of, holds_none_of. rewrite Hf.
  change (fun c => existsb (Ascii.eqb c) [";"; ":"; "="]%char)
    with (one_of [";"; ":"; "="]%char).
  set (inside := includes (one_of [";"; ":"; "="]%char) line) in *.
  clearbody inside. unfold one_of in *. simpl existsb in *.
  destruct (Ascii.eqb a ":"), (Ascii.eqb a ";"), (Ascii.eqb a "<"),
    (Ascii.eqb a "="), inside; simpl in *; intuition congruence.
Qed.

Lemma ends_spec line :
  is_empty line = false ->
  (none_of [")"; "("; ">"; "|"; "@"; "}"; "{"]%char (last_char line) = false
   /\ holds_none_of [")"; "("; "|"; "@"]%char line
      && none_of ["}"; "{"]%char (last_char line) = false)
  <-> ends_well line = true.
Proof.
  intros Hne. destruct (last_char_Some line Hne) as [b Hl].
  pose proof (includes_last (one_of [")"; "("; "|"; "@"]%char) line b Hl)
    as Hin.
  unfold ends_well, none_of, holds_none_of. rewrite Hl.
  change (fun c => existsb (Ascii.eqb c) [")"; "("; "|"; "@"]%char)
    with (one_of [")"; "("; "|"; "@"]%char).
  set (inside := includes (one_of [")"; "("; "|"; "@"]%char) line) in *.
  clearbody inside. unfold one_of in *. simpl existsb in *.
  destruct (Ascii.eqb b ")"), (Ascii.eqb b "("), (Ascii.eqb b ">"),
    (Ascii.eqb b "|"), (Ascii.eqb b "@"), (Ascii.eqb b "}"),
    (Ascii.eqb b "{"), inside; simpl in *; intuition congruence.
Qed.

Lemma line_errors_nil i line :
  is_empty line = false ->
  (line_errors i line = [] <-> well_formed line = true).
Proof.
  intros Hne. unfold well_formed. rewrite andb_true_iff.
  rewrite <- (begins_spec line Hne), <- (ends_spec line Hne).
  unfold line_errors.
  destruct (none_of [":"; ";"; "<"; "="]%char (first_char line)),
    (none_of [")"; "("; ">"; "|"; "@"; "}"; "{"]%char (last_char line)),
    (holds_none_of [";"; ":"; "="]%char line),
    (holds_none_of [")"; "("; "|"; "@"]%char line
     && none_of ["}"; "{"]%char (last_char line));
    simpl; intuition congruence.
Qed.

Lemma check_lines_spec : forall ls i n errors,
  fst (check_lines ls i n errors)
  = (n + balance (filter (fun line => negb (is_empty line)) (map strip ls)))%Z
  /\ (snd (check_lines ls i n errors) = []
      <-> errors = []
          /\ forallb well_formed
               (filter (fun line => negb (is_empty line)) (map strip ls))
             = true).
Proof.
  induction ls as [|l ls IH]; intros i n errors; simpl.
  - split; [lia | tauto].
  - destruct (is_empty (strip l)) eqn:He; simpl; [apply IH|].
    destruct (IH (S i) (n + nesting (strip l))%Z
                (errors ++ line_errors i (strip l))) as [Hn He'].
    split; [rewrite Hn; lia|].
    rewrite He', andb_true_iff, <- (line_errors_nil i (strip l) He).
    split.
    + intros [Happ Hall]. apply app_eq_nil in Happ. tauto.
    + intros [-> [-> Hall]]. auto.
Qed.

(** X22: [check] accepts a text exactly when every line that is not
    empty once its comment is removed and it is trimmed begins with [:],
    [;] or [=], or with [<] while holding one of these three, and ends
    with one of [(], [)], [|], [@], [{] and [}], or with [>] while
    holding one of the first four, and as many of these lines hold [<]
    as hold [>]. *)
Theorem Emo_check_accepts :
  forall input : string,
    check input = Returns tt
    <-> forallb well_formed (code_lines input) = true
        /\ balance (code_lines input) = 0%Z.
Proof.
  intros input. unfold check, code_lines, stripped.
  destruct (check_lines_spec (split_each is_newline input) 0 0%Z [])
    as [Hn He].
  destruct (check_lines (split_each is_newline input) 0 0%Z [])
    as [n errors]. simpl in Hn, He.
  rewrite <- Hn. clear Hn.
  destruct (Z.eqb_spec n 0) as [-> | Hne]; simpl.
  - destruct errors as [|e errors].
    + split; [intros _; split; [apply He; reflexivity | reflexivity]
             | reflexivity].
    + split; [discriminate|]. intros [Hall _].
      assert (e :: errors = []) by (apply He; auto). discriminate.
  - split; [| intros [_ Hz]; contradiction].
    destruct (errors ++ _) eqn:E; [| discriminate].
    apply app_eq_nil in E. destruct E as [_ E]. discriminate E.
Qed.

Lemma check_lines_messages : forall ls i n errors,
  check_lines ls i n errors
  = ((n + balance (filter (fun line => negb (is_empty line)) (map strip ls)))%Z,
     (errors
      ++ numbered i (filter (fun line => negb (is_empty line)) (map strip ls)))%list).
Proof.
  induction ls as [|l ls IH]; intros i n errors; simpl.
  - rewrite Z.add_0_r, app_nil_r. reflexivity.
  - destruct (is_empty (strip l)) eqn:He; simpl; [apply IH|].
    rewrite IH, <- app_assoc. f_equal. lia.
Qed.

(** X27: the messages of [check] number the lines from 0 and leave out
    of the count the lines that are empty once stripped. *)
Theorem Emo_check_messages :
  forall input : string,
    check input
    = match messages input with
      | [] => Returns tt
      | _ :: _ =>
          Throws (NewOperationError (join nl (map Some (messages input))))
      end.
Proof.
  intros input. unfold check, messages, code_lines, stripped.
  rewrite check_lines_messages. cbn [app]. rewrite Z.add_0_l.
  destruct (balance _ =? 0)%Z; cbn [negb]; [rewrite app_nil_r|]; reflexivity.
Qed.

(** ** Texts that do not read *)

Lemma step_set_input inputString c s :
  Ascii.eqb c "=" = false ->
  step c (set_input inputString s)
  = match step c s with
    | Returns s' => Returns (set_input inputString s')
    | Throws t => Throws t
    end.
Proof.
  intros Hc. unfold step, on_pointer_or_value, current. rewrite Hc.
  cbn [set_input set_loopEnd memory currentMemoryPtr justLooped ptrOrValue
       loopEnd loopIndex index].
  repeat match goal with
         | |- context [if ?b then _ else _] => destruct b
         end; reflexivity.
Qed.

Lemma each_char_set_input inputString : forall chars s,
  Forall (fun c => Ascii.eqb c "=" = false) chars ->
  each_char chars (set_input inputString s)
  = match each_char chars s with
    | Returns s' => Returns (set_input inputString s')
    | Throws t => Throws t
    end.
Proof.
  induction chars as [|c rest IH]; intros s Hc; simpl; [reflexivity|].
  inversion Hc as [|? ? Hc1 Hrest]; subst.
  rewrite (step_set_input inputString c s Hc1).
  destruct (step c s); [apply (IH _ Hrest) | reflexivity].
Qed.

Lemma for_lines_set_input inputString lines :
  (forall l, In l lines -> includes (Ascii.eqb "=") (strip l) = false) ->
  forall fuel s,
    for_lines fuel lines (set_input inputString s)
    = match for_lines fuel lines s with
      | Some (Returns s') => Some (Returns (set_input inputString s'))
      | other => other
      end.
Proof.
  intros Hno. induction fuel as [|fuel IH]; intros s; [reflexivity|].
  simpl. destruct (index s) as [| |z]; try reflexivity.
  destruct (z <? Z.of_nat (List.length lines))%Z; [| reflexivity].
  unfold line_at. destruct (z <? 0)%Z; [reflexivity|].
  destruct (nth_error lines (Z.to_nat z)) as [l|] eqn:Hl; [| reflexivity].
  rewrite each_char_set_input
    by (apply eqb_char_sym_Forall, includes_Forall, Hno,
          (nth_error_In _ _ Hl)).
  destruct (each_char _ s) as [s1|]; [| reflexivity].
  apply (IH (set_index (plus_one (index s1)) s1)).
Qed.

(** X25: a text without [=] gives the same result, or the same error,
    on every input. *)
Theorem Emo_input_unused_without_read :
  forall (fuel : nat) (code : string) (input1 input2 : list N),
    includes (Ascii.eqb "=") code = false ->
    run fuel code input1 = run fuel code input2.
Proof.
  intros fuel code input1 input2 Hno. unfold run, emulate.
  destruct (check code); [| reflexivity].
  assert (Hlines : forall l, In l (split_each is_newline code) ->
                             includes (Ascii.eqb "=") (strip l) = false).
  { intros l Hl. apply strip_includes.
    apply (split_each_includes _ is_newline code l Hno Hl). }
  change (start input1) with (set_input input1 (start [])).
  change (start input2) with (set_input input2 (start [])).
  rewrite !(for_lines_set_input _ _ Hlines).
  destruct (for_lines fuel _ (start [])) as [[s|t]|]; reflexivity.
Qed.

Lemma Emo_input_unused_without_read_witness :
  run 10 (":^^^)" ++ nl ++ ":@")%string (code_units "abc")
  = run 10 (":^^^)" ++ nl ++ ":@")%string [].
Proof.
  apply (Emo_input_unused_without_read 10 (":^^^)" ++ nl ++ ":@")%string).
  reflexivity.
Defined.

(** ** The range of the numbers *)

Lemma exact_ToInt32 x : exact (Num (Number.ToInt32 x)).
Proof.
  unfold exact, Number.ToInt32, Number.limit.
  pose proof (Z.mod_pos_bound (x + 2 ^ 31) (2 ^ 32) ltac:(lia)). lia.
Qed.

Lemma exact_shiftr x : exact (Num (Z.shiftr (Number.ToInt32 x) 1)).
Proof.
  pose proof (exact_ToInt32 x) as H. unfold exact, Number.limit in *.
  rewrite Z.shiftr_div_pow2 by lia. change (2 ^ 1)%Z with 2%Z.
  pose proof (Z.div_le_mono _ _ 2 ltac:(lia) (proj2 H)).
  pose proof (Z.div_le_mono _ _ 2 ltac:(lia) (proj1 H)).
  change (2 ^ 53 / 2)%Z with (2 ^ 52)%Z in *.
  change (- 2 ^ 53 / 2)%Z with (- 2 ^ 52)%Z in *. lia.
Qed.

Lemma exact_increment x : exact (Num x) -> exact (Num (Number.increment x)).
Proof.
  unfold exact, Number.increment, Number.limit.
  destruct (Z.eqb_spec x (2 ^ 53)); lia.
Qed.

Lemma exact_decrement x : exact (Num x) -> exact (Num (Number.decrement x)).
Proof.
  unfold exact, Number.decrement, Number.limit.
  destruct (Z.eqb_spec x (- 2 ^ 53)); lia.
Qed.

Lemma exact_plus_one v : exact v -> exact (plus_one v).
Proof. destruct v; try exact (fun _ => I). apply exact_increment. Qed.

Lemma exact_minus_one v : exact v -> exact (minus_one v).
Proof. destruct v; try exact (fun _ => I). apply exact_decrement. Qed.

Lemma exact_shift_left v : exact (shift_left v).
Proof. apply exact_ToInt32. Qed.

Lemma exact_shift_right v : exact (shift_right v).
Proof.
  destruct v as [| |z]; [| | apply exact_shiftr];
    vm_compute; split; discriminate.
Qed.

Lemma exact_or_zero v : exact v -> exact (or_zero v).
Proof.
  destruct v as [| |z]; simpl; intros H;
    try (unfold Number.limit; lia).
  destruct (z =? 0)%Z; [unfold exact, Number.limit; lia | exact H].
Qed.

Lemma exact_code_unit c : (c < 65536)%N -> exact (Num (Z.of_N c)).
Proof. unfold exact, Number.limit. lia. Qed.

Lemma exact_assign a k v :
  (forall j, exact (a j)) -> exact v -> forall j, exact (assign a k v j).
Proof.
  intros Ha Hv j. unfold assign. destruct (j =? k)%Z; auto.
Qed.

Lemma exact_last : forall l, Forall exact l -> exact (last l Undefined).
Proof.
  induction l as [|v l IH]; intros H; [exact I|].
  inversion H as [|? ? Hv Hl]; subst.
  destruct l; [exact Hv | apply IH, Hl].
Qed.

Lemma exact_removelast : forall l, Forall exact l -> Forall exact (removelast l).
Proof.
  induction l as [|v l IH]; intros H; [constructor|].
  inversion H as [|? ? Hv Hl]; subst.
  destruct l; [constructor | constructor; [exact Hv | apply IH, Hl]].
Qed.

Lemma exact_push l v : Forall exact l -> exact v -> Forall exact (l ++ [v]).
Proof.
  intros Hl Hv. apply Forall_app. split; [exact Hl | repeat constructor; exact Hv].
Qed.

Ltac fields :=
  cbn [input output memory loopBegin loopEnd stack ptrOrValue justLooped
       register workingLocation currentMemoryPtr loopIndex index
       set_workingLocation set_ptrOrValue set_register set_memory
       set_currentMemoryPtr set_input set_output set_justLooped
       set_loopIndex set_loopBegin set_loopEnd set_stack set_index].

Ltac split_limits :=
  split; [| split; [| split; [| split; [| split; [| split;
    [| split; [| split; [| split]]]]]]]].

Lemma step_within_limits c s s' :
  within_limits s -> step c s = Returns s' -> within_limits s'.
Proof.
  unfold within_limits.
  intros [Hin [Hm [Hb [He [Hs [Hr [Hw [Hp [Hl Hi]]]]]]]]].
  unfold step, on_pointer_or_value, current.
  repeat match goal with
         | |- context [if ?b then _ else _] => destruct b
         end;
    try (destruct (input s) as [|code rest] eqn:Einput;
         [discriminate | inversion Hin as [|? ? Hcode Hrest]; subst]);
    intros H; inversion H; subst s'; fields; split_limits;
    auto using exact_assign, exact_plus_one, exact_minus_one,
      exact_increment, exact_decrement, exact_ToInt32, exact_shiftr,
      exact_shift_left, exact_shift_right, exact_or_zero, exact_code_unit,
      exact_last, exact_removelast, exact_push.
Qed.

Lemma each_char_within_limits : forall chars s s',
  within_limits s -> each_char chars s = Returns s' -> within_limits s'.
Proof.
  induction chars as [|c rest IH]; intros s s' Hs H; simpl in H.
  - inversion H; subst; exact Hs.
  - destruct (step c s) as [s1|] eqn:E; [| discriminate H].
    apply (IH s1 s' (step_within_limits c s s1 Hs E) H).
Qed.

Lemma set_index_within_limits s :
  within_limits s -> within_limits (set_index (plus_one (index s)) s).
Proof.
  unfold within_limits.
  intros [Hin [Hm [Hb [He [Hs [Hr [Hw [Hp [Hl Hi]]]]]]]]].
  fields. split_limits; auto using exact_plus_one.
Qed.

(** X26: every number of a run stays within [2 ^ 53] in magnitude, the
    range in which the numbers of the code are exact integers. *)
Theorem Emo_within_limits :
  forall (fuel : nat) (lines : list string) (s s' : State),
    within_limits s ->
    for_lines fuel lines s = Some (Returns s') ->
    within_limits s'.
Proof.
  induction fuel as [|fuel IH]; intros lines s s' Hs H; [discriminate H|].
  simpl in H. destruct (index s) as [| |z].
  - inversion H; subst; exact Hs.
  - inversion H; subst; exact Hs.
  - destruct (z <? Z.of_nat (List.length lines))%Z;
      [| inversion H; subst; exact Hs].
    destruct (line_at lines z) as [l|]; [| discriminate H].
    destruct (each_char (list_ascii_of_string (strip l)) s) as [s1|] eqn:E;
      [| discriminate H].
    apply (IH lines (set_index (plus_one (index s1)) s1) s'); [| exact H].
    apply set_index_within_limits.
    apply (each_char_within_limits _ _ _ Hs E).
Qed.

Lemma Emo_start_within_limits inputString :
  Forall (fun c => (c < 65536)%N) inputString ->
  within_limits (start inputString).
Proof.
  intros H. unfold within_limits, start. fields.
  split_limits;
    [exact H | intros k; exact I | intros k; exact I | intros k; exact I
    | constructor | | | | |]; vm_compute; split; discriminate.
Qed.

Lemma Emo_within_limits_witness :
  exists s',
    for_lines 5 [":^o)"; "=-cP"; ";-{X@"] (start (code_units "a"))
    = Some (Returns s')
    /\ within_limits s'.
Proof.
  destruct (for_lines 5 [":^o)"; "=-cP"; ";-{X@"] (start (code_units "a")))
    as [[s'|t]|] eqn:E.
  - exists s'. split; [reflexivity|].
    apply (Emo_within_limits 5 [":^o)"; "=-cP"; ";-{X@"]
             (start (code_units "a")) s'); [| exact E].
    apply Emo_start_within_limits. repeat constructor.
  - exfalso. vm_compute in E. discriminate E.
  - exfalso. vm_compute in E. discriminate E.
Defined.

End EmoProperties.
